(** * The shader dispatch cache of libplacebo (src/dispatch.c)

    A shallow embedding of the dispatch object: the accumulator pool, the
    collection of compiled passes with its age-based garbage collector, the
    variable placer, the three dispatch entry points and the persistent
    program cache ([pl_dispatch_save] / [pl_dispatch_load]).

    Conventions.
    - C integers are [Z]; the two [uint8_t] counters of [struct pl_dispatch]
      wrap modulo 256, the fields written by [WRITE(uint32_t, _)] and
      [WRITE(uint64_t, _)] are truncated to their width.
    - [PL_ARRAY]s are lists; a pointer into [dp->passes] is the index of the
      element; a [struct pl_shader *] is an address into a store of
      accumulators, so that the pool and the caller's handle alias one object.
    - A run that dereferences NULL, reads outside the cache buffer, or fails a
      [pl_assert]/[abort()] has no result ([None]).
    - Calls into the GPU backend and log messages are recorded, in order, in
      the [trace] of the [world]. *)

From Stdlib Require Import String.
From Stdlib Require Import ZArith List Bool Lia Permutation Sorted.
From coqutil Require Import Byte.
From coqutil Require Import Word.LittleEndianList.
Import ListNotations.
Local Open Scope Z_scope.

Set Implicit Arguments.

(** ** Machine integers *)

Definition uint8 (z : Z) : Z := z mod 2 ^ 8.
Definition uint32 (z : Z) : Z := z mod 2 ^ 32.
Definition uint64 (z : Z) : Z := z mod 2 ^ 64.

(** Modelled from the spec: the macro [PL_ALIGN2] of common.h, which is not
    among the sources. Section 4.2: the push-constant size "is rounded up to
    a 4-byte multiple"; the macro is
    [(((x) + (align) - 1) & ~((align) - 1))]. *)
Definition PL_ALIGN2 (x align : Z) : Z :=
  Z.land (x + align - 1) (Z.lnot (align - 1)).

(** [#define MAX_PASSES 100] and [#define MIN_AGE 10] *)
Definition MAX_PASSES : Z := 100.
Definition MIN_AGE : Z := 10.

(** ** [PL_ARRAY] operations

    Modelled from the spec: the [PL_ARRAY] macros of common.h, which is not
    among the sources. The collections of section 3 are arrays that are
    appended to at the end, popped from the end and shortened by removing
    one index. *)

(** [PL_ARRAY_POP(arr, &out)]: removes the last element, false when empty. *)
Definition PL_ARRAY_POP {A} (arr : list A) : option (list A * A) :=
  match rev arr with
  | [] => None
  | x :: r => Some (rev r, x)
  end.

(** [PL_ARRAY_APPEND(parent, arr, x)] *)
Definition PL_ARRAY_APPEND {A} (arr : list A) (x : A) : list A := arr ++ [x].

(** [PL_ARRAY_REMOVE_AT(arr, idx)] *)
Definition PL_ARRAY_REMOVE_AT {A} (arr : list A) (idx : nat) : list A :=
  firstn idx arr ++ skipn (S idx) arr.

(** [arr.elem[idx] = x] for [idx < arr.num]. *)
Fixpoint array_set {A} (arr : list A) (idx : nat) (x : A) : list A :=
  match arr, idx with
  | [], _ => []
  | _ :: r, O => x :: r
  | y :: r, S i => y :: array_set r i x
  end.

(** ** GPU objects and capabilities, as far as the dispatch code reads them *)

Record pl_glsl_desc := {
  version : Z;
  gles : bool;
  vulkan : bool
}.

Record pl_gpu_limits := {
  max_pushc_size : Z;
  max_ubo_size : Z
}.

(** [gpu->caps] is a bit mask; the two bits the dispatch code tests. *)
Record pl_gpu := {
  PL_GPU_CAP_INPUT_VARIABLES : bool;
  PL_GPU_CAP_PARALLEL_COMPUTE : bool;
  glsl : pl_glsl_desc;
  limits : pl_gpu_limits
}.

(** A [const struct pl_fmt *]: formats are compared by pointer. *)
Record pl_fmt := {
  fmt_id : Z;
  texel_size : Z
}.

Record pl_tex_params := {
  tex_w : Z; tex_h : Z; tex_d : Z;
  format : pl_fmt;
  renderable : bool;
  storable : bool
}.

Record pl_tex := {
  tex_id : Z;
  tex_params : pl_tex_params
}.

(** Modelled from the spec: [pl_tex_params_dimension] of the public gpu.h,
    which is not among the sources. Section 4.6 asks for a 2D target: a
    texture has as many dimensions as it has extents, [d ? 3 : h ? 2 : 1]. *)
Definition pl_tex_params_dimension (p : pl_tex_params) : Z :=
  if negb (tex_d p =? 0) then 3 else if negb (tex_h p =? 0) then 2 else 1.

Record pl_buf := {
  buf_id : Z;
  buf_size : Z
}.

Inductive pl_blend_mode :=
| PL_BLEND_ZERO | PL_BLEND_ONE | PL_BLEND_SRC_ALPHA | PL_BLEND_ONE_MINUS_SRC_ALPHA.

Record pl_blend_params := {
  src_rgb : pl_blend_mode; dst_rgb : pl_blend_mode;
  src_alpha : pl_blend_mode; dst_alpha : pl_blend_mode
}.

Inductive pl_prim_type :=
| PL_PRIM_TRIANGLE_LIST | PL_PRIM_TRIANGLE_STRIP | PL_PRIM_TRIANGLE_FAN.

Inductive pl_pass_type := PL_PASS_RASTER | PL_PASS_COMPUTE.

Inductive pl_desc_type :=
| PL_DESC_SAMPLED_TEX | PL_DESC_STORAGE_IMG | PL_DESC_BUF_UNIFORM
| PL_DESC_BUF_STORAGE | PL_DESC_BUF_TEXEL_UNIFORM | PL_DESC_BUF_TEXEL_STORAGE.

Inductive pl_var_type := PL_VAR_SINT | PL_VAR_UINT | PL_VAR_FLOAT.

Record pl_var := {
  var_name : string;
  var_type : pl_var_type;
  dim_v : Z; dim_m : Z; dim_a : Z
}.

Record pl_var_layout := {
  layout_offset : Z;
  layout_stride : Z;
  layout_size : Z
}.

Record pl_desc := {
  desc_name : string;
  desc_type : pl_desc_type;
  binding : Z
}.

(** A bound object of a descriptor: a texture or a buffer, or nothing. *)
Inductive pl_object := ObjNone | ObjTex (t : pl_tex) | ObjBuf (b : pl_buf).

Record pl_buffer_var := {
  bv_var : pl_var;
  bv_layout : pl_var_layout
}.

Record pl_shader_desc := {
  sd_desc : pl_desc;
  sd_object : pl_object;
  buffer_vars : list pl_buffer_var
}.

Record pl_vertex_attrib := {
  va_name : string;
  va_fmt : pl_fmt;
  va_offset : Z;
  va_location : Z
}.

Record pl_shader_va := {
  attr : pl_vertex_attrib;
  va_data : list (list byte)
}.

Record pl_shader_var := {
  var : pl_var;
  data : list byte;
  dynamic : bool
}.

(** ** The shader accumulator *)

Inductive pl_shader_sig := PL_SHADER_SIG_NONE | PL_SHADER_SIG_COLOR.

(** [struct pl_shader_params]: [id] and [index] are [uint8_t]. *)
Record pl_shader_params := {
  sh_id : Z;
  sh_index : Z
}.

Record pl_shader := {
  sh_params : pl_shader_params;
  failed : bool;
  mutable : bool;
  is_compute : bool;
  input : pl_shader_sig;
  output : pl_shader_sig;
  compute_group_size : Z * Z;
  output_size : option (Z * Z);
  glsl_text : string;
  vars : list pl_shader_var;
  descs : list pl_shader_desc;
  vas : list pl_shader_va
}.

(** Modelled from the spec: [pl_shader_alloc] and [pl_shader_reset] are
    defined in shaders.c, which is not among the sources. Section 4.1: "begin
    returns a cleared Accumulator", tagged with the identity it was given. *)
Definition pl_shader_alloc (params : pl_shader_params) : pl_shader :=
  {| sh_params := params; failed := false; mutable := true;
     is_compute := false; input := PL_SHADER_SIG_NONE;
     output := PL_SHADER_SIG_NONE; compute_group_size := (0, 0);
     output_size := None; glsl_text := EmptyString;
     vars := []; descs := []; vas := [] |}.

Definition pl_shader_reset (sh : pl_shader) (params : pl_shader_params)
  : pl_shader := pl_shader_alloc params.

(** ** Compiled passes and the dispatch object *)

Inductive pass_var_type :=
| PASS_VAR_NONE | PASS_VAR_GLOBAL | PASS_VAR_UBO | PASS_VAR_PUSHC.

Record pass_var := {
  pv_index : Z;
  pv_type : pass_var_type;
  pv_layout : pl_var_layout;
  cached_data : option (list byte)
}.

Record pl_pass_params := {
  pass_type : pl_pass_type;
  descriptors : list pl_desc;
  variables : list pl_var;
  push_constants_size : Z;
  vertex_attribs : list pl_vertex_attrib;
  vertex_type : pl_prim_type;
  vertex_stride : Z;
  blend_params : option pl_blend_params;
  load_target : bool;
  target_dummy : option pl_tex;
  vertex_shader : string;
  glsl_shader : string;
  cached_program : list byte
}.

(** Modelled from the spec: [struct pl_pass] of the public gpu.h, which is
    not among the sources. Section 6: pass-create gets the parameters and
    "may emit a cached_program on success"; the pass carries its copy of the
    parameters, with the program the backend exposes. *)
Record pl_pass := {
  pass_id : Z;
  pass_params : pl_pass_params
}.


Record pl_pass_run_params := {
  rp_pass : option pl_pass;
  desc_bindings : list pl_object;
  var_updates : list (Z * list byte);
  push_constants : list byte;
  vertex_count : Z;
  vertex_data : option (list byte);
  compute_groups : Z * Z * Z;
  scissors : Z * Z * Z * Z;
  rp_target : option pl_tex
}.

Record pass := {
  signature : Z;
  pass_ : option pl_pass;
  last_index : Z;
  pass_vars : list pass_var;
  ubo : option pl_buf;
  ubo_desc : pl_shader_desc;
  run_params : pl_pass_run_params
}.

Record cached_pass := {
  cp_signature : Z;
  cached_program_ : list byte
}.

(** A [struct pl_shader *] that is not NULL. *)
Definition sh_ptr := nat.

Record pl_dispatch := {
  gpu : pl_gpu;
  current_ident : Z;
  current_index : Z;
  max_passes : Z;
  shaders : list sh_ptr;
  passes : list pass;
  cached_passes : list cached_pass
}.

(** ** Observable effects *)

Inductive pl_log_level := PL_LOG_ERR | PL_LOG_WARN | PL_LOG_DEBUG | PL_LOG_TRACE.

Inductive event :=
| EvLog (lev : pl_log_level) (msg : string)
| EvBufCreate (sz : Z) (res : option pl_buf)
| EvBufDestroy (b : pl_buf)
| EvBufWrite (b : pl_buf) (off : Z) (bytes : list byte)
| EvPassCreate (sig : Z) (p : pl_pass_params) (res : option pl_pass)
| EvPassDestroy (p : pl_pass)
| EvPassRun (rp : pl_pass_run_params).

Record world := {
  dp : pl_dispatch;
  heap : list pl_shader;
  trace : list event
}.

Definition set_dp (wd : world) (d : pl_dispatch) : world :=
  {| dp := d; heap := heap wd; trace := trace wd |}.

Definition emit (wd : world) (evs : list event) : world :=
  {| dp := dp wd; heap := heap wd; trace := trace wd ++ evs |}.

Definition PL_ERR (msg : string) : event := EvLog PL_LOG_ERR msg.
Definition PL_WARN (msg : string) : event := EvLog PL_LOG_WARN msg.
Definition PL_DEBUG (msg : string) : event := EvLog PL_LOG_DEBUG msg.
Definition PL_TRACE (msg : string) : event := EvLog PL_LOG_TRACE msg.

Definition set_passes (d : pl_dispatch) (l : list pass) : pl_dispatch :=
  {| gpu := gpu d; current_ident := current_ident d;
     current_index := current_index d; max_passes := max_passes d;
     shaders := shaders d; passes := l; cached_passes := cached_passes d |}.

Definition set_cached_passes (d : pl_dispatch) (l : list cached_pass)
  : pl_dispatch :=
  {| gpu := gpu d; current_ident := current_ident d;
     current_index := current_index d; max_passes := max_passes d;
     shaders := shaders d; passes := passes d; cached_passes := l |}.

Definition set_shaders (d : pl_dispatch) (l : list sh_ptr) : pl_dispatch :=
  {| gpu := gpu d; current_ident := current_ident d;
     current_index := current_index d; max_passes := max_passes d;
     shaders := l; passes := passes d; cached_passes := cached_passes d |}.

Definition set_max_passes (d : pl_dispatch) (m : Z) : pl_dispatch :=
  {| gpu := gpu d; current_ident := current_ident d;
     current_index := current_index d; max_passes := m;
     shaders := shaders d; passes := passes d;
     cached_passes := cached_passes d |}.

Definition set_current_ident (d : pl_dispatch) (c : Z) : pl_dispatch :=
  {| gpu := gpu d; current_ident := c;
     current_index := current_index d; max_passes := max_passes d;
     shaders := shaders d; passes := passes d;
     cached_passes := cached_passes d |}.

(** ** What the dispatch code calls but does not define *)

(** The backend's table of function pointers ([struct pl_gpu_fns], gpu.h) as
    far as dispatch.c goes through it. A backend may answer differently from
    call to call: its answers depend on the calls made so far. A pass that is
    created comes with the program the backend is willing to cache. *)
Class pl_gpu_fns := {
  buf_create : list event -> Z -> option pl_buf;
  pass_create : list event -> pl_pass_params -> option (Z * list byte);
  desc_namespace : pl_gpu -> pl_desc_type -> nat
}.

Record pl_dispatch_vertex_params := {
  vp_shader : option sh_ptr;
  vp_target : option pl_tex;
  vp_scissors : Z * Z * Z * Z;
  vp_blend_params : option pl_blend_params;
  vp_vertex_attribs : list pl_vertex_attrib;
  vertex_position_idx : Z;
  vertex_coords : Z;
  vertex_flipped : bool;
  vp_vertex_type : pl_prim_type;
  vp_vertex_stride : Z;
  vp_vertex_count : Z;
  vp_vertex_data : option (list byte)
}.

(** The helpers of shaders.c and gpu.c, which are not among the sources:
    the fingerprint, the std430 and host layouts, the uniform-buffer
    descriptor builder, and the GLSL text generation of dispatch.c itself,
    which only produces the two source strings of the pass parameters. *)
Class shader_lib := {
  pl_shader_signature : pl_shader -> Z;
  pl_shader_finalize : pl_shader -> pl_shader;
  pl_std430_layout : Z -> pl_var -> pl_var_layout;
  pl_var_host_layout : Z -> pl_var -> pl_var_layout;
  sh_buf_desc_append :
    pl_gpu -> pl_shader_desc -> pl_var -> option (pl_shader_desc * pl_var_layout);
  sh_buf_desc_size : pl_shader_desc -> Z;
  sh_try_compute : pl_shader -> Z -> Z -> bool -> Z -> option pl_shader;
  sh_attr_vec2 : pl_shader -> string -> Z * Z * Z * Z -> pl_tex_params
                 -> pl_shader * string;
  translate_compute_shader :
    pl_shader -> Z * Z * Z * Z -> pl_tex -> option pl_blend_params -> pl_shader;
  compute_vertex_attribs : pl_shader -> Z -> Z -> pl_shader;
  vertex_projection : pl_dispatch_vertex_params -> pl_tex_params
                      -> option pl_shader_var;
  generate_shaders :
    pl_gpu -> list pass_var -> pl_pass_params -> pl_shader
    -> option string -> option string -> string * string;
  memcpy_layout :
    list byte -> pl_var_layout -> list byte -> pl_var_layout -> list byte
}.

(** ** Creation, the accumulator pool and the frame counters *)

Definition pl_dispatch_create (g : pl_gpu) : pl_dispatch :=
  {| gpu := g; current_ident := 0; current_index := 0;
     max_passes := MAX_PASSES; shaders := []; passes := [];
     cached_passes := [] |}.

(** [.id = unique ? dp->current_ident++ : 0], on a [uint8_t]. *)
Definition pl_dispatch_begin_ex (wd : world) (unique : bool)
  : option (world * sh_ptr) :=
  let d := dp wd in
  let params := {| sh_id := if unique then current_ident d else 0;
                   sh_index := current_index d |} in
  let d := if unique
           then set_current_ident d (uint8 (current_ident d + 1)) else d in
  match PL_ARRAY_POP (shaders d) with
  | Some (rest, sh) =>
      match nth_error (heap wd) sh with
      | Some s =>
          Some ({| dp := set_shaders d rest;
                   heap := array_set (heap wd) sh (pl_shader_reset s params);
                   trace := trace wd |}, sh)
      | None => None
      end
  | None =>
      Some ({| dp := d; heap := heap wd ++ [pl_shader_alloc params];
               trace := trace wd |}, length (heap wd))
  end.

Definition pl_dispatch_reset_frame (wd : world) : world :=
  let d := dp wd in
  set_dp wd
    {| gpu := gpu d; current_ident := 0;
       current_index := uint8 (current_index d + 1);
       max_passes := max_passes d; shaders := shaders d;
       passes := passes d; cached_passes := cached_passes d |}.

Definition pl_dispatch_begin (wd : world) : option (world * sh_ptr) :=
  pl_dispatch_begin_ex wd false.

(** [pl_dispatch_abort(dp, psh)]: returns the world and the new [*psh]. *)
Definition pl_dispatch_abort (wd : world) (psh : option sh_ptr)
  : world * option sh_ptr :=
  match psh with
  | None => (wd, None)
  | Some sh =>
      (set_dp wd (set_shaders (dp wd) (PL_ARRAY_APPEND (shaders (dp wd)) sh)),
       None)
  end.

(** ** The variable placer *)

Definition with_push_constants_size (p : pl_pass_params) (n : Z)
  : pl_pass_params :=
  {| pass_type := pass_type p; descriptors := descriptors p;
     variables := variables p; push_constants_size := n;
     vertex_attribs := vertex_attribs p; vertex_type := vertex_type p;
     vertex_stride := vertex_stride p; blend_params := blend_params p;
     load_target := load_target p; target_dummy := target_dummy p;
     vertex_shader := vertex_shader p; glsl_shader := glsl_shader p;
     cached_program := cached_program p |}.

Definition with_variables (p : pl_pass_params) (l : list pl_var)
  : pl_pass_params :=
  {| pass_type := pass_type p; descriptors := descriptors p;
     variables := l; push_constants_size := push_constants_size p;
     vertex_attribs := vertex_attribs p; vertex_type := vertex_type p;
     vertex_stride := vertex_stride p; blend_params := blend_params p;
     load_target := load_target p; target_dummy := target_dummy p;
     vertex_shader := vertex_shader p; glsl_shader := glsl_shader p;
     cached_program := cached_program p |}.

Definition with_cached_program (p : pl_pass_params) (l : list byte)
  : pl_pass_params :=
  {| pass_type := pass_type p; descriptors := descriptors p;
     variables := variables p; push_constants_size := push_constants_size p;
     vertex_attribs := vertex_attribs p; vertex_type := vertex_type p;
     vertex_stride := vertex_stride p; blend_params := blend_params p;
     load_target := load_target p; target_dummy := target_dummy p;
     vertex_shader := vertex_shader p; glsl_shader := glsl_shader p;
     cached_program := l |}.

Definition with_raster (p : pl_pass_params) (target : pl_tex) (load : bool)
  (vas : list pl_vertex_attrib) (stride : Z) : pl_pass_params :=
  {| pass_type := pass_type p; descriptors := descriptors p;
     variables := variables p; push_constants_size := push_constants_size p;
     vertex_attribs := vas; vertex_type := vertex_type p;
     vertex_stride := stride; blend_params := blend_params p;
     load_target := load; target_dummy := Some target;
     vertex_shader := vertex_shader p; glsl_shader := glsl_shader p;
     cached_program := cached_program p |}.

Definition with_descriptors (p : pl_pass_params) (l : list pl_desc)
  : pl_pass_params :=
  {| pass_type := pass_type p; descriptors := l;
     variables := variables p; push_constants_size := push_constants_size p;
     vertex_attribs := vertex_attribs p; vertex_type := vertex_type p;
     vertex_stride := vertex_stride p; blend_params := blend_params p;
     load_target := load_target p; target_dummy := target_dummy p;
     vertex_shader := vertex_shader p; glsl_shader := glsl_shader p;
     cached_program := cached_program p |}.

Definition with_sources (p : pl_pass_params) (src : string * string)
  : pl_pass_params :=
  {| pass_type := pass_type p; descriptors := descriptors p;
     variables := variables p; push_constants_size := push_constants_size p;
     vertex_attribs := vertex_attribs p; vertex_type := vertex_type p;
     vertex_stride := vertex_stride p; blend_params := blend_params p;
     load_target := load_target p; target_dummy := target_dummy p;
     vertex_shader := fst src; glsl_shader := snd src;
     cached_program := cached_program p |}.

Definition zero_layout : pl_var_layout :=
  {| layout_offset := 0; layout_stride := 0; layout_size := 0 |}.

(** An element of [pl_calloc_ptr(pass, sh->vars.num, pass->vars)]. *)
Definition zero_pass_var : pass_var :=
  {| pv_index := 0; pv_type := PASS_VAR_NONE; pv_layout := zero_layout;
     cached_data := None |}.

Definition pass_var_placed (pv : pass_var) : bool :=
  match pv_type pv with PASS_VAR_NONE => false | _ => true end.

Section Placer.
Context {lib : shader_lib}.

(** [add_pass_var]: the result is the return value, the updated
    [pass->ubo_desc], [*params] and [*pv], and the error it logs. *)
Definition add_pass_var (g : pl_gpu) (ubo_d : pl_shader_desc)
  (params : pl_pass_params) (sv : pl_shader_var) (pv : pass_var)
  (greedy : bool)
  : bool * pl_shader_desc * pl_pass_params * pass_var * list event :=
  if pass_var_placed pv then (true, ubo_d, params, pv, []) else
  let try_pushc :=
    greedy || ((dim_m (var sv) =? 1) && (dim_a (var sv) =? 1))
    || dynamic sv in
  let pushc :=
    if try_pushc && vulkan (glsl g)
       && negb (max_pushc_size (limits g) =? 0)
    then
      let lay := pl_std430_layout (push_constants_size params) (var sv) in
      let pv1 := {| pv_index := pv_index pv; pv_type := pv_type pv;
                    pv_layout := lay; cached_data := cached_data pv |} in
      let new_size := layout_offset lay + layout_size lay in
      if new_size <=? max_pushc_size (limits g)
      then (true, with_push_constants_size params new_size,
            {| pv_index := pv_index pv; pv_type := PASS_VAR_PUSHC;
               pv_layout := lay; cached_data := cached_data pv |})
      else (false, params, pv1)
    else (false, params, pv) in
  let '(done, params1, pv1) := pushc in
  if done then (true, ubo_d, params1, pv1, []) else
  if negb greedy then (true, ubo_d, params1, pv1, []) else
  let try_ubo := negb (PL_GPU_CAP_INPUT_VARIABLES g) || negb (dynamic sv) in
  let in_ubo :=
    if try_ubo && (440 <=? version (glsl g))
       && negb (max_ubo_size (limits g) =? 0)
    then sh_buf_desc_append g ubo_d (var sv) else None in
  match in_ubo with
  | Some (ubo_d', lay) =>
      (true, ubo_d', params1,
       {| pv_index := pv_index pv1; pv_type := PASS_VAR_UBO;
          pv_layout := lay; cached_data := cached_data pv1 |}, [])
  | None =>
      if PL_GPU_CAP_INPUT_VARIABLES g
      then (true, ubo_d,
            with_variables params1 (variables params1 ++ [var sv]),
            {| pv_index := Z.of_nat (length (variables params1));
               pv_type := PASS_VAR_GLOBAL;
               pv_layout := pl_var_host_layout 0 (var sv);
               cached_data := cached_data pv1 |}, [])
      else (false, ubo_d, params1, pv1,
            [PL_ERR "Unable to add input variable"])
  end.

(** One of the two loops
    [for (i < sh->vars.num) if (!add_pass_var(.., greedy)) goto error;]
    over [sh->vars.elem] and [pass->vars] in step. *)
Fixpoint place_vars (g : pl_gpu) (greedy : bool)
  (svs : list pl_shader_var) (pvs : list pass_var)
  (ubo_d : pl_shader_desc) (params : pl_pass_params)
  : bool * pl_shader_desc * pl_pass_params * list pass_var * list event :=
  match svs, pvs with
  | sv :: svs', pv :: pvs' =>
      let '(ok, ubo_d1, params1, pv1, evs) :=
        add_pass_var g ubo_d params sv pv greedy in
      if ok then
        let '(ok', ubo_d2, params2, pvs2, evs') :=
          place_vars g greedy svs' pvs' ubo_d1 params1 in
        (ok', ubo_d2, params2, pv1 :: pvs2, evs ++ evs')
      else (false, ubo_d1, params1, pv1 :: pvs', evs)
  | _, _ => (true, ubo_d, params, pvs, [])
  end.
End Placer.

(** ** The eviction controller *)

(** The C library's [qsort], by its contract: the result is a rearrangement
    of the array, in ascending order of a consistent comparison function. The
    order among elements that compare equal is unspecified. *)
Definition cmp_total {A} (cmp : A -> A -> Z) : Prop :=
  forall a b, cmp a b <= 0 \/ cmp b a <= 0.

Definition cmp_trans {A} (cmp : A -> A -> Z) : Prop :=
  forall a b c, cmp a b <= 0 -> cmp b c <= 0 -> cmp a c <= 0.

Class libc_qsort := {
  qsort : forall A, (A -> A -> Z) -> list A -> list A;
  qsort_perm : forall A (cmp : A -> A -> Z) l, Permutation l (qsort cmp l);
  qsort_sorted : forall A (cmp : A -> A -> Z) l,
    cmp_total cmp -> cmp_trans cmp ->
    StronglySorted (fun a b => cmp a b <= 0) (qsort cmp l)
}.

(** [#define pass_age(pass) (dp->current_index - (pass)->last_index)]. Both
    operands are copies of the [uint8_t] frame counter, so neither this [int]
    difference nor that of [cmp_pass_age] can overflow. *)
Definition pass_age (d : pl_dispatch) (p : pass) : Z :=
  current_index d - last_index p.

Definition cmp_pass_age (a b : pass) : Z := last_index b - last_index a.

(** [pass_destroy]: the destroy wrappers of the GPU do nothing on NULL. *)
Definition pass_destroy (p : pass) : list event :=
  match ubo p with Some b => [EvBufDestroy b] | None => [] end ++
  match pass_ p with Some q => [EvPassDestroy q] | None => [] end.

(** [while (idx < num && pass_age(elem[idx]) < MIN_AGE) idx++;] where [rest]
    holds the elements from [idx] on. *)
Fixpoint skip_young (d : pl_dispatch) (rest : list pass) (idx : nat) : nat :=
  match rest with
  | p :: rest' =>
      if pass_age d p <? MIN_AGE then skip_young d rest' (S idx) else idx
  | [] => idx
  end.

Section Eviction.
Context {libc : libc_qsort}.

Definition garbage_collect_passes (wd : world) : world :=
  let d := dp wd in
  let num := length (passes d) in
  if Z.of_nat num <=? max_passes d then wd else
  let elem := qsort cmp_pass_age (passes d) in
  let idx := skip_young d (skipn (Nat.div num 2) elem) (Nat.div num 2) in
  let destroyed := flat_map pass_destroy (skipn idx elem) in
  let num_evicted := (num - idx)%nat in
  let d1 := set_passes d (firstn idx elem) in
  if negb (Nat.eqb num_evicted 0)
  then emit (set_dp wd d1)
         (destroyed ++ [PL_DEBUG "Evicted passes from dispatch cache"])
  else emit (set_dp wd (set_max_passes d1 (max_passes d1 * 2))) destroyed.
End Eviction.

(** ** Lookup and construction of compiled passes *)

Definition blend_mode_eqb (a b : pl_blend_mode) : bool :=
  match a, b with
  | PL_BLEND_ZERO, PL_BLEND_ZERO | PL_BLEND_ONE, PL_BLEND_ONE
  | PL_BLEND_SRC_ALPHA, PL_BLEND_SRC_ALPHA
  | PL_BLEND_ONE_MINUS_SRC_ALPHA, PL_BLEND_ONE_MINUS_SRC_ALPHA => true
  | _, _ => false
  end.

Definition prim_type_eqb (a b : pl_prim_type) : bool :=
  match a, b with
  | PL_PRIM_TRIANGLE_LIST, PL_PRIM_TRIANGLE_LIST
  | PL_PRIM_TRIANGLE_STRIP, PL_PRIM_TRIANGLE_STRIP
  | PL_PRIM_TRIANGLE_FAN, PL_PRIM_TRIANGLE_FAN => true
  | _, _ => false
  end.

Definition blend_equal (a b : option pl_blend_params) : bool :=
  match a, b with
  | None, None => true
  | Some a, Some b =>
      blend_mode_eqb (src_rgb a) (src_rgb b)
      && blend_mode_eqb (dst_rgb a) (dst_rgb b)
      && blend_mode_eqb (src_alpha a) (src_alpha b)
      && blend_mode_eqb (dst_alpha a) (dst_alpha b)
  | _, _ => false
  end.

Definition with_last_index (p : pass) (i : Z) : pass :=
  {| signature := signature p; pass_ := pass_ p; last_index := i;
     pass_vars := pass_vars p; ubo := ubo p; ubo_desc := ubo_desc p;
     run_params := run_params p |}.

Definition with_descs (sh : pl_shader) (l : list pl_shader_desc) : pl_shader :=
  {| sh_params := sh_params sh; failed := failed sh; mutable := mutable sh;
     is_compute := is_compute sh; input := input sh; output := output sh;
     compute_group_size := compute_group_size sh;
     output_size := output_size sh; glsl_text := glsl_text sh;
     vars := vars sh; descs := l; vas := vas sh |}.

Definition with_vas (sh : pl_shader) (l : list pl_shader_va) : pl_shader :=
  {| sh_params := sh_params sh; failed := failed sh; mutable := mutable sh;
     is_compute := is_compute sh; input := input sh; output := output sh;
     compute_group_size := compute_group_size sh;
     output_size := output_size sh; glsl_text := glsl_text sh;
     vars := vars sh; descs := descs sh; vas := l |}.

Definition with_vars (sh : pl_shader) (l : list pl_shader_var) : pl_shader :=
  {| sh_params := sh_params sh; failed := failed sh; mutable := mutable sh;
     is_compute := is_compute sh; input := input sh; output := output sh;
     compute_group_size := compute_group_size sh;
     output_size := output_size sh; glsl_text := glsl_text sh;
     vars := l; descs := descs sh; vas := vas sh |}.

(** Modelled from the spec: [pl_shader_is_compute], [sh_desc] and [sh_var]
    of shaders.c, which is not among the sources. Section 3: the accumulator
    has a compute flag and ordered lists of variables and descriptors, to
    which the builders append. *)
Definition pl_shader_is_compute (sh : pl_shader) : bool := is_compute sh.
Definition sh_desc (sh : pl_shader) (sd : pl_shader_desc) : pl_shader :=
  with_descs sh (descs sh ++ [sd]).
Definition sh_var (sh : pl_shader) (sv : pl_shader_var) : pl_shader :=
  with_vars sh (vars sh ++ [sv]).

(** The outcome of the scan over [dp->passes] at the head of [find_pass]. *)
Inductive scan_result :=
| ScanHit (i : nat)
| ScanMiss
| ScanAssert.

(** The first loop of [find_pass], over the elements from index [i] on. *)
Fixpoint scan_passes (sig : Z) (compute : bool) (target : option pl_tex)
  (blend : option pl_blend_params) (load : bool)
  (vparams : option pl_dispatch_vertex_params) (l : list pass) (i : nat)
  : scan_result :=
  match l with
  | [] => ScanMiss
  | p :: l' =>
      if negb (signature p =? sig)
      then scan_passes sig compute target blend load vparams l' (S i)
      else
        match pass_ p with
        | None => ScanHit i
        | Some q =>
            if compute then ScanHit i else
            match target with
            | None => ScanAssert
            | Some t =>
                let tfmt :=
                  option_map (fun x => format (tex_params x))
                             (target_dummy (pass_params q)) in
                let raster_ok :=
                  match tfmt with
                  | Some f => fmt_id (format (tex_params t)) =? fmt_id f
                  | None => false
                  end in
                let raster_ok :=
                  raster_ok
                  && blend_equal (blend_params (pass_params q)) blend in
                let raster_ok :=
                  raster_ok && Bool.eqb load (load_target (pass_params q)) in
                let raster_ok :=
                  match vparams with
                  | Some vp =>
                      raster_ok
                      && prim_type_eqb (vertex_type (pass_params q))
                                       (vp_vertex_type vp)
                      && (vertex_stride (pass_params q) =? vp_vertex_stride vp)
                  | None => raster_ok
                  end in
                if raster_ok then ScanHit i
                else scan_passes sig compute target blend load vparams l' (S i)
            end
        end
  end.

(** The loop over [dp->cached_passes]: the first entry with the signature. *)
Fixpoint find_cached (sig : Z) (l : list cached_pass) (i : nat)
  : option (nat * cached_pass) :=
  match l with
  | [] => None
  | c :: l' =>
      if cp_signature c =? sig then Some (i, c)
      else find_cached sig l' (S i)
  end.

(** The loop that fills [params.vertex_attribs]. *)
Fixpoint place_vertex_attribs (custom : bool) (l : list pl_shader_va)
  (va_loc stride : Z) : list pl_vertex_attrib * Z :=
  match l with
  | [] => ([], stride)
  | sva :: l' =>
      let va := attr sva in
      let tsz := texel_size (va_fmt va) in
      let va' :=
        {| va_name := String.append (va_name va) "_v"; va_fmt := va_fmt va;
           va_offset := if custom then va_offset va else stride;
           va_location := va_loc |} in
      let stride' := if custom then stride else stride + tsz in
      let '(rest, stride'') :=
        place_vertex_attribs custom l' (va_loc + (tsz + 16 - 1) / 16) stride'
      in (va' :: rest, stride'')
  end.

(** The loop that numbers the descriptors per namespace. *)
Fixpoint place_descriptors {fns : pl_gpu_fns} (g : pl_gpu)
  (l : list pl_shader_desc) (counters : nat -> Z) : list pl_desc :=
  match l with
  | [] => []
  | sd :: l' =>
      let ns := desc_namespace g (desc_type (sd_desc sd)) in
      {| desc_name := desc_name (sd_desc sd);
         desc_type := desc_type (sd_desc sd);
         binding := counters ns |}
      :: place_descriptors g l'
           (fun n => if Nat.eqb n ns then counters n + 1 else counters n)
  end.

Definition zero_shader_desc : pl_shader_desc :=
  {| sd_desc := {| desc_name := EmptyString; desc_type := PL_DESC_SAMPLED_TEX;
                   binding := 0 |};
     sd_object := ObjNone; buffer_vars := [] |}.

Definition init_ubo_desc : pl_shader_desc :=
  {| sd_desc := {| desc_name := "UBO"; desc_type := PL_DESC_BUF_UNIFORM;
                   binding := 0 |};
     sd_object := ObjNone; buffer_vars := [] |}.

Definition zero_run_params : pl_pass_run_params :=
  {| rp_pass := None; desc_bindings := []; var_updates := [];
     push_constants := []; vertex_count := 0; vertex_data := None;
     compute_groups := (0, 0, 0); scissors := (0, 0, 0, 0);
     rp_target := None |}.

Definition zeros (n : Z) : list byte := repeat Byte.x00 (Z.to_nat n).

(** The state of the record under construction in [find_pass]. *)
Record building := {
  b_sh : pl_shader;
  b_params : pl_pass_params;
  b_vars : list pass_var;
  b_ubo : option pl_buf;
  b_pass : option pl_pass;
  b_rparams : pl_pass_run_params
}.

Definition with_rp_vertex (rp : pl_pass_run_params) (n : Z) (v : list byte)
  : pl_pass_run_params :=
  {| rp_pass := rp_pass rp; desc_bindings := desc_bindings rp;
     var_updates := var_updates rp; push_constants := push_constants rp;
     vertex_count := n; vertex_data := Some v;
     compute_groups := compute_groups rp; scissors := scissors rp;
     rp_target := rp_target rp |}.

Definition with_rp_bindings (rp : pl_pass_run_params) (l : list pl_object)
  : pl_pass_run_params :=
  {| rp_pass := rp_pass rp; desc_bindings := l;
     var_updates := var_updates rp; push_constants := push_constants rp;
     vertex_count := vertex_count rp; vertex_data := vertex_data rp;
     compute_groups := compute_groups rp; scissors := scissors rp;
     rp_target := rp_target rp |}.

Definition with_rp_pushc (rp : pl_pass_run_params) (l : list byte)
  : pl_pass_run_params :=
  {| rp_pass := rp_pass rp; desc_bindings := desc_bindings rp;
     var_updates := var_updates rp; push_constants := l;
     vertex_count := vertex_count rp; vertex_data := vertex_data rp;
     compute_groups := compute_groups rp; scissors := scissors rp;
     rp_target := rp_target rp |}.

Definition with_rp_pass (rp : pl_pass_run_params) (q : option pl_pass)
  : pl_pass_run_params :=
  {| rp_pass := q; desc_bindings := desc_bindings rp;
     var_updates := var_updates rp; push_constants := push_constants rp;
     vertex_count := vertex_count rp; vertex_data := vertex_data rp;
     compute_groups := compute_groups rp; scissors := scissors rp;
     rp_target := rp_target rp |}.

Section FindPass.
Context {fns : pl_gpu_fns} {lib : shader_lib} {libc : libc_qsort}.

Definition failed_build (sh : pl_shader) (params : pl_pass_params)
  (pvs : list pass_var) (u : option pl_buf) (rp : pl_pass_run_params)
  : building :=
  {| b_sh := sh; b_params := params; b_vars := pvs; b_ubo := u;
     b_pass := None; b_rparams := rp |}.

(** [find_pass] from the allocation of the new record up to the label
    [error]: every [goto error] and the fall-through end here, with the
    record as it stands. An [assert(target)] that fails has no result. *)
Definition build_pass (wd : world) (sh : pl_shader) (sig : Z)
  (target : option pl_tex) (vert_pos : option string)
  (blend : option pl_blend_params) (load : bool)
  (vparams : option pl_dispatch_vertex_params) (out_proj : option string)
  : option (world * building) :=
  let d := dp wd in
  let g := gpu d in
  let params :=
    {| pass_type := if pl_shader_is_compute sh
                    then PL_PASS_COMPUTE else PL_PASS_RASTER;
       descriptors := []; variables := []; push_constants_size := 0;
       vertex_attribs := [];
       vertex_type := match vparams with
                      | Some vp => vp_vertex_type vp
                      | None => PL_PRIM_TRIANGLE_STRIP
                      end;
       vertex_stride := match vparams with
                        | Some vp => vp_vertex_stride vp
                        | None => 0
                        end;
       blend_params := blend; load_target := false; target_dummy := None;
       vertex_shader := EmptyString; glsl_shader := EmptyString;
       cached_program := [] |} in
  (* Find and attach the cached program, if any *)
  let '(wd, params) :=
    match find_cached sig (cached_passes d) 0 with
    | Some (i, c) =>
        (emit (set_dp wd (set_cached_passes d
                            (PL_ARRAY_REMOVE_AT (cached_passes d) i)))
              [PL_DEBUG "Re-using cached program"],
         with_cached_program params (cached_program_ c))
    | None => (wd, params)
    end in
  let raster :=
    match pass_type params with
    | PL_PASS_COMPUTE => Some (params, zero_run_params)
    | PL_PASS_RASTER =>
        match target with
        | None => None
        | Some t =>
            let custom := match vparams with Some _ => true | None => false end in
            let '(vas', stride) :=
              place_vertex_attribs custom (vas sh) 0 (vertex_stride params) in
            let params := with_raster params t load vas' stride in
            Some (params,
                  if custom then zero_run_params
                  else with_rp_vertex zero_run_params 4 (zeros (4 * stride)))
        end
    end in
  match raster with
  | None => None
  | Some (params, rparams) =>
      (* Place all the variables, in two rounds *)
      let pvs := repeat zero_pass_var (length (vars sh)) in
      let '(ok, ubo_d, params, pvs, evs) :=
        place_vars g false (vars sh) pvs init_ubo_desc params in
      let wd := emit wd evs in
      if negb ok then Some (wd, failed_build sh params pvs None rparams) else
      let '(ok, ubo_d, params, pvs, evs) :=
        place_vars g true (vars sh) pvs ubo_d params in
      let wd := emit wd evs in
      if negb ok then Some (wd, failed_build sh params pvs None rparams) else
      (* Create and attach the UBO if necessary *)
      let ubo_size := sh_buf_desc_size ubo_d in
      let res := if ubo_size =? 0 then None
                 else buf_create (trace wd) ubo_size in
      let wd := if ubo_size =? 0 then wd
                else emit wd [EvBufCreate ubo_size res] in
      match ubo_size =? 0, res with
      | false, None =>
          Some (emit wd [PL_ERR "Failed creating uniform buffer for dispatch"],
                failed_build sh params pvs None rparams)
      | _, _ =>
          let ubo_index := length (descs sh) in
          let sh :=
            match res with
            | Some b =>
                sh_desc sh {| sd_desc := sd_desc ubo_d; sd_object := ObjBuf b;
                              buffer_vars := buffer_vars ubo_d |}
            | None => sh
            end in
          (* Place and fill in the descriptors *)
          let params :=
            with_descriptors params
              (place_descriptors g (descs sh) (fun _ => 0)) in
          let bindings := repeat ObjNone (length (descs sh)) in
          let bindings :=
            match res with
            | Some b => array_set bindings ubo_index (ObjBuf b)
            | None => bindings
            end in
          let rparams := with_rp_bindings rparams bindings in
          (* Create the push constants region *)
          let params :=
            with_push_constants_size params
              (PL_ALIGN2 (push_constants_size params) 4) in
          let rparams :=
            with_rp_pushc rparams (zeros (push_constants_size params)) in
          (* Finalize the shaders and create the pass itself *)
          let params :=
            with_sources params
              (generate_shaders g pvs params sh vert_pos out_proj) in
          let sh := pl_shader_finalize sh in
          let created := pass_create (trace wd) params in
          let q :=
            option_map
              (fun r => {| pass_id := fst r;
                           pass_params := with_cached_program params (snd r) |})
              created in
          let wd := emit wd [EvPassCreate sig params q] in
          let wd :=
            match q with
            | Some _ => wd
            | None => emit wd [PL_ERR "Failed creating render pass for dispatch"]
            end in
          Some (wd, {| b_sh := sh; b_params := params; b_vars := pvs;
                       b_ubo := res; b_pass := q;
                       b_rparams := with_rp_pass rparams q |})
      end
  end.

(** [find_pass]: the result is the accumulator as it leaves the function
    and the index in [dp->passes] of the record returned. *)
Definition find_pass (wd : world) (sh : pl_shader)
  (target : option pl_tex) (vert_pos : option string)
  (blend : option pl_blend_params) (load : bool)
  (vparams : option pl_dispatch_vertex_params) (out_proj : option string)
  : option (world * pl_shader * nat) :=
  let d := dp wd in
  let sig := uint64 (pl_shader_signature sh) in
  match scan_passes sig (pl_shader_is_compute sh) target blend load vparams
                    (passes d) 0 with
  | ScanAssert => None
  | ScanHit i =>
      match nth_error (passes d) i with
      | Some p =>
          Some (set_dp wd
                  (set_passes d
                     (array_set (passes d) i
                        (with_last_index p (current_index d)))),
                sh, i)
      | None => None
      end
  | ScanMiss =>
      match build_pass wd sh sig target vert_pos blend load vparams out_proj with
      | None => None
      | Some (wd1, b) =>
          let p :=
            {| signature := sig; pass_ := b_pass b;
               last_index := current_index d; pass_vars := b_vars b;
               ubo := b_ubo b; ubo_desc := zero_shader_desc;
               run_params := b_rparams b |} in
          let wd2 := garbage_collect_passes wd1 in
          let d2 := dp wd2 in
          Some (set_dp wd2 (set_passes d2 (PL_ARRAY_APPEND (passes d2) p)),
                b_sh b, length (passes d2))
      end
  end.
End FindPass.

(** ** Per-dispatch updates of a compiled pass *)

Definition byte_eqb (a b : byte) : bool :=
  byte.unsigned a =? byte.unsigned b.

Fixpoint bytes_eqb (a b : list byte) : bool :=
  match a, b with
  | [], [] => true
  | x :: a', y :: b' => byte_eqb x y && bytes_eqb a' b'
  | _, _ => false
  end.

(** The row-by-row copy into [dp->tmp[0]] of a strided uniform-buffer write;
    the bytes between two rows are shown as zero. *)
Fixpoint strided_rows (fuel : nat) (src : list byte) (host dev : Z)
  : list byte :=
  match fuel, src with
  | O, _ | _, [] => []
  | S n, _ =>
      firstn (Z.to_nat host) src ++ zeros (dev - host)
      ++ strided_rows n (skipn (Z.to_nat host) src) host dev
  end.

Definition with_var_updates (rp : pl_pass_run_params)
  (l : list (Z * list byte)) : pl_pass_run_params :=
  {| rp_pass := rp_pass rp; desc_bindings := desc_bindings rp;
     var_updates := l; push_constants := push_constants rp;
     vertex_count := vertex_count rp; vertex_data := vertex_data rp;
     compute_groups := compute_groups rp; scissors := scissors rp;
     rp_target := rp_target rp |}.

Section Update.
Context {lib : shader_lib}.

(** [update_pass_var]: the new [*pv], the new run parameters and the
    buffer writes issued; no result where the C code asserts or aborts. *)
Definition update_pass_var (u : option pl_buf) (rp : pl_pass_run_params)
  (sv : pl_shader_var) (pv : pass_var)
  : option (pass_var * pl_pass_run_params * list event) :=
  let host_layout := pl_var_host_layout 0 (var sv) in
  if layout_size host_layout =? 0 then None else
  let bytes := firstn (Z.to_nat (layout_size host_layout)) (data sv) in
  let same := match cached_data pv with
              | Some c => bytes_eqb bytes c
              | None => false
              end in
  if same then Some (pv, rp, []) else
  let pv' := {| pv_index := pv_index pv; pv_type := pv_type pv;
                pv_layout := pv_layout pv; cached_data := Some bytes |} in
  match pv_type pv with
  | PASS_VAR_NONE => None
  | PASS_VAR_GLOBAL =>
      Some (pv',
            with_var_updates rp (var_updates rp ++ [(pv_index pv, data sv)]),
            [])
  | PASS_VAR_UBO =>
      match u with
      | None => None
      | Some b =>
          let off := layout_offset (pv_layout pv) in
          if layout_stride host_layout =? layout_stride (pv_layout pv) then
            if layout_size host_layout =? layout_size (pv_layout pv)
            then Some (pv', rp, [EvBufWrite b off bytes])
            else None
          else
            let tmp :=
              firstn (Z.to_nat (layout_size (pv_layout pv)))
                (strided_rows (length bytes) bytes
                   (layout_stride host_layout)
                   (layout_stride (pv_layout pv))) in
            Some (pv', rp, [EvBufWrite b off tmp])
      end
  | PASS_VAR_PUSHC =>
      Some (pv',
            with_rp_pushc rp
              (memcpy_layout (push_constants rp) (pv_layout pv)
                             (data sv) host_layout),
            [])
  end.

(** [for (i < sh->vars.num) update_pass_var(.., &sh->vars.elem[i],
    &pass->vars[i]);] A record with fewer entries than the accumulator has
    variables is read outside its table. *)
Fixpoint update_pass_vars (u : option pl_buf) (rp : pl_pass_run_params)
  (svs : list pl_shader_var) (pvs : list pass_var)
  : option (list pass_var * pl_pass_run_params * list event) :=
  match svs, pvs with
  | [], _ => Some (pvs, rp, [])
  | _ :: _, [] => None
  | sv :: svs', pv :: pvs' =>
      match update_pass_var u rp sv pv with
      | None => None
      | Some (pv', rp1, evs) =>
          match update_pass_vars u rp1 svs' pvs' with
          | None => None
          | Some (pvs'', rp2, evs') => Some (pv' :: pvs'', rp2, evs ++ evs')
          end
      end
  end.

(** The part the three entry points share after [find_pass] returned a
    record with a pass: descriptor bindings, then variables. *)
Definition update_bindings_and_vars (p : pass) (sh : pl_shader)
  : option (pass * list event) :=
  let rp := run_params p in
  if (length (desc_bindings rp) <? length (descs sh))%nat then None else
  let bindings :=
    map sd_object (descs sh)
    ++ skipn (length (descs sh)) (desc_bindings rp) in
  let rp := with_var_updates (with_rp_bindings rp bindings) [] in
  match update_pass_vars (ubo p) rp (vars sh) (pass_vars p) with
  | None => None
  | Some (pvs, rp, evs) =>
      Some ({| signature := signature p; pass_ := pass_ p;
               last_index := last_index p; pass_vars := pvs; ubo := ubo p;
               ubo_desc := ubo_desc p; run_params := rp |}, evs)
  end.
End Update.

Definition with_run_params (p : pass) (rp : pl_pass_run_params) : pass :=
  {| signature := signature p; pass_ := pass_ p; last_index := last_index p;
     pass_vars := pass_vars p; ubo := ubo p; ubo_desc := ubo_desc p;
     run_params := rp |}.

(** ** Rectangles ([struct pl_rect2d], as [(x0, y0, x1, y1)])

    Modelled from the spec: [pl_rect_w], [pl_rect_h], [pl_rect2d_normalize]
    and [pl_rect2d_eq] of the public common.h, which is not among the
    sources. Section 4.6: "compute a normalized rect clipped to the
    target"; normalizing orders the two corners. *)

Definition pl_rect_w (rc : Z * Z * Z * Z) : Z :=
  let '(x0, _, x1, _) := rc in x1 - x0.
Definition pl_rect_h (rc : Z * Z * Z * Z) : Z :=
  let '(_, y0, _, y1) := rc in y1 - y0.

Definition pl_rect2d_normalize (rc : Z * Z * Z * Z) : Z * Z * Z * Z :=
  let '(x0, y0, x1, y1) := rc in
  (Z.min x0 x1, Z.min y0 y1, Z.max x0 x1, Z.max y0 y1).

Definition pl_rect2d_eq (a b : Z * Z * Z * Z) : bool :=
  let '(a0, a1, a2, a3) := a in
  let '(b0, b1, b2, b3) := b in
  (a0 =? b0) && (a1 =? b1) && (a2 =? b2) && (a3 =? b3).

(** ** The dispatch entry points *)

Record pl_dispatch_params := {
  p_shader : option sh_ptr;
  p_target : option pl_tex;
  p_rect : Z * Z * Z * Z;
  p_blend_params : option pl_blend_params
}.

Record pl_dispatch_compute_params := {
  cp_shader : option sh_ptr;
  dispatch_size : Z * Z * Z;
  cp_width : Z;
  cp_height : Z
}.

Definition shader_sig_eqb (a b : pl_shader_sig) : bool :=
  match a, b with
  | PL_SHADER_SIG_NONE, PL_SHADER_SIG_NONE
  | PL_SHADER_SIG_COLOR, PL_SHADER_SIG_COLOR => true
  | _, _ => false
  end.

(** [memcpy(&buf[off], src, len(src))] *)
Definition write_at (buf : list byte) (off : Z) (src : list byte) : list byte :=
  firstn (Z.to_nat off) buf ++ src
  ++ skipn (Z.to_nat off + length src) buf.

(** The copy of the four corner values of every attribute into the vertex
    array of an implicit quad. *)
Fixpoint update_vertex_data (buf : list byte) (stride : Z)
  (svas : list pl_shader_va) (placed : list pl_vertex_attrib) : list byte :=
  match svas, placed with
  | sva :: svas', va :: placed' =>
      let sz := Z.to_nat (texel_size (va_fmt (attr sva))) in
      let corner n b :=
        write_at b (va_offset va + Z.of_nat n * stride)
                 (firstn sz (nth n (va_data sva) [])) in
      update_vertex_data (corner 3%nat (corner 2%nat (corner 1%nat (corner 0%nat buf))))
                         stride svas' placed'
  | _, _ => buf
  end.

(** The accumulator of a dispatch goes back to where the caller's handle
    points, and the handle goes through [pl_dispatch_abort]. (The reset of
    the four text buffers [dp->tmp] is not shown: they carry no state from
    one call to the next.) *)
Definition dispatch_return (a : sh_ptr) (r : world * pl_shader * bool)
  : world * option sh_ptr * bool :=
  let '(wd, sh, ret) := r in
  let wd := {| dp := dp wd; heap := array_set (heap wd) a sh;
               trace := trace wd |} in
  let '(wd, psh) := pl_dispatch_abort wd (Some a) in
  (wd, psh, ret).

Definition dispatch_error (wd : world) (sh : pl_shader) (msg : string)
  : option (world * pl_shader * bool) :=
  Some (emit wd [PL_ERR msg], sh, false).

Definition store_pass (wd : world) (idx : nat) (p : pass) : world :=
  set_dp wd (set_passes (dp wd) (array_set (passes (dp wd)) idx p)).

Section Dispatch.
Context {fns : pl_gpu_fns} {lib : shader_lib} {libc : libc_qsort}.

(** [pl_dispatch_finish] up to the label [error]. *)
Definition dispatch_finish_body (wd : world) (sh : pl_shader)
  (params : pl_dispatch_params) : option (world * pl_shader * bool) :=
  if failed sh
  then dispatch_error wd sh "Trying to dispatch a failed shader." else
  if negb (mutable sh)
  then dispatch_error wd sh "Trying to dispatch non-mutable shader?" else
  if negb (shader_sig_eqb (input sh) PL_SHADER_SIG_NONE)
     || negb (shader_sig_eqb (output sh) PL_SHADER_SIG_COLOR)
  then dispatch_error wd sh
         "Trying to dispatch shader with incompatible signature!" else
  match p_target params with
  | None => None
  | Some target =>
  let tpars := tex_params target in
  if negb (pl_tex_params_dimension tpars =? 2) || negb (renderable tpars)
  then dispatch_error wd sh
         "Trying to dispatch a shader using an invalid target texture." else
  if pl_shader_is_compute sh && negb (storable tpars)
  then dispatch_error wd sh
         "Trying to dispatch using a compute shader with a non-storable target texture."
  else
  let '(wd, sh) :=
    if storable tpars && PL_GPU_CAP_PARALLEL_COMPUTE (gpu (dp wd)) then
      match sh_try_compute sh 16 16 true 0 with
      | Some sh' =>
          (emit wd [PL_TRACE "Upgrading fragment shader to compute shader."],
           sh')
      | None => (wd, sh)
      end
    else (wd, sh) in
  let '(x0, y0, x1, y1) := p_rect params in
  let '(x0, x1) := if pl_rect_w (x0, y0, x1, y1) =? 0
                   then (0, tex_w tpars) else (x0, x1) in
  let '(y0, y1) := if pl_rect_h (x0, y0, x1, y1) =? 0
                   then (0, tex_h tpars) else (y0, y1) in
  let rc := (x0, y0, x1, y1) in
  let tw := Z.abs (pl_rect_w rc) in
  let th := Z.abs (pl_rect_h rc) in
  let size_ok := match output_size sh with
                 | Some (ow, oh) => (ow =? tw) && (oh =? th)
                 | None => true
                 end in
  if negb size_ok
  then dispatch_error wd sh
         "Trying to dispatch a shader with explicit output size requirements."
  else
  let '(sh, vert_pos) :=
    if pl_shader_is_compute sh
    then (translate_compute_shader sh rc target (p_blend_params params), None)
    else let '(sh', pos) := sh_attr_vec2 sh "position" rc tpars in
         (sh', Some pos) in
  let full := (0, 0, tex_w tpars, tex_h tpars) in
  let '(n0, n1, n2, n3) := pl_rect2d_normalize rc in
  let rc_norm := (Z.max n0 0, Z.max n1 0,
                  Z.min n2 (tex_w tpars), Z.min n3 (tex_h tpars)) in
  let load := match p_blend_params params with Some _ => true | None => false end
              || negb (pl_rect2d_eq rc_norm full) in
  match find_pass wd sh (Some target) vert_pos (p_blend_params params)
                  load None None with
  | None => None
  | Some (wd, sh, idx) =>
  match nth_error (passes (dp wd)) idx with
  | None => None
  | Some p =>
  match pass_ p with
  | None => Some (wd, sh, false)
  | Some q =>
  match update_bindings_and_vars p sh with
  | None => None
  | Some (p, evs) =>
  let rp := run_params p in
  let vdata :=
    option_map
      (fun buf => update_vertex_data buf (vertex_stride (pass_params q))
                    (vas sh) (vertex_attribs (pass_params q)))
      (vertex_data rp) in
  let '(block_w, block_h) := compute_group_size sh in
  if pl_shader_is_compute sh && ((block_w =? 0) || (block_h =? 0))
  then None else
  let rp :=
    {| rp_pass := rp_pass rp; desc_bindings := desc_bindings rp;
       var_updates := var_updates rp; push_constants := push_constants rp;
       vertex_count := vertex_count rp; vertex_data := vdata;
       compute_groups :=
         if pl_shader_is_compute sh
         then (Z.quot (tw + block_w - 1) block_w,
               Z.quot (th + block_h - 1) block_h, 1)
         else compute_groups rp;
       scissors := if pl_shader_is_compute sh then scissors rp else rc_norm;
       rp_target := Some target |} in
  Some (emit (store_pass wd idx (with_run_params p rp)) (evs ++ [EvPassRun rp]),
        sh, true)
  end end end end end.

Definition pl_dispatch_finish (wd : world) (params : pl_dispatch_params)
  : option (world * option sh_ptr * bool) :=
  match p_shader params with
  | None => None
  | Some a =>
      match nth_error (heap wd) a with
      | None => None
      | Some sh =>
          option_map (dispatch_return a) (dispatch_finish_body wd sh params)
      end
  end.

(** [pl_dispatch_compute] up to the label [error]. *)
Definition dispatch_compute_body (wd : world) (sh : pl_shader)
  (params : pl_dispatch_compute_params)
  : option (world * pl_shader * bool) :=
  if failed sh
  then dispatch_error wd sh "Trying to dispatch a failed shader." else
  if negb (mutable sh)
  then dispatch_error wd sh "Trying to dispatch non-mutable shader?" else
  if negb (shader_sig_eqb (input sh) PL_SHADER_SIG_NONE)
  then dispatch_error wd sh
         "Trying to dispatch shader with incompatible signature!" else
  if negb (pl_shader_is_compute sh)
  then dispatch_error wd sh
         "Trying to dispatch a non-compute shader using `pl_dispatch_compute`!"
  else
  let sized := negb (cp_width params =? 0) && negb (cp_height params =? 0) in
  if negb (Nat.eqb (length (vas sh)) 0) && negb sized
  then dispatch_error wd sh
         "Trying to dispatch a targetless compute shader that uses vertex attributes."
  else
  let sh := if negb (Nat.eqb (length (vas sh)) 0)
            then compute_vertex_attribs sh (cp_width params) (cp_height params)
            else sh in
  match find_pass wd sh None None None false None None with
  | None => None
  | Some (wd, sh, idx) =>
  match nth_error (passes (dp wd)) idx with
  | None => None
  | Some p =>
  match pass_ p with
  | None => Some (wd, sh, false)
  | Some q =>
  match update_bindings_and_vars p sh with
  | None => None
  | Some (p, evs) =>
  let rp := run_params p in
  let '(g0, g1, g2) := dispatch_size params in
  let groups := g0 * g1 * g2 in
  let '(block_w, block_h) := compute_group_size sh in
  if (groups =? 0) && (negb sized || (block_w =? 0) || (block_h =? 0))
  then None else
  let rp :=
    {| rp_pass := rp_pass rp; desc_bindings := desc_bindings rp;
       var_updates := var_updates rp; push_constants := push_constants rp;
       vertex_count := vertex_count rp; vertex_data := vertex_data rp;
       compute_groups :=
         if groups =? 0
         then (Z.quot (cp_width params + block_w - 1) block_w,
               Z.quot (cp_height params + block_h - 1) block_h, 1)
         else (g0, g1, g2);
       scissors := scissors rp; rp_target := rp_target rp |} in
  Some (emit (store_pass wd idx (with_run_params p rp)) (evs ++ [EvPassRun rp]),
        sh, true)
  end end end end.

Definition pl_dispatch_compute (wd : world)
  (params : pl_dispatch_compute_params)
  : option (world * option sh_ptr * bool) :=
  match cp_shader params with
  | None => None
  | Some a =>
      match nth_error (heap wd) a with
      | None => None
      | Some sh =>
          option_map (dispatch_return a) (dispatch_compute_body wd sh params)
      end
  end.

(** [pl_dispatch_vertex] up to the label [error]. *)
Definition dispatch_vertex_body (wd : world) (sh : pl_shader)
  (params : pl_dispatch_vertex_params)
  : option (world * pl_shader * bool) :=
  if failed sh
  then dispatch_error wd sh "Trying to dispatch a failed shader." else
  if negb (mutable sh)
  then dispatch_error wd sh "Trying to dispatch non-mutable shader?" else
  if negb (shader_sig_eqb (input sh) PL_SHADER_SIG_NONE)
     || negb (shader_sig_eqb (output sh) PL_SHADER_SIG_COLOR)
  then dispatch_error wd sh
         "Trying to dispatch shader with incompatible signature!" else
  match vp_target params with
  | None => None
  | Some target =>
  let tpars := tex_params target in
  if negb (pl_tex_params_dimension tpars =? 2) || negb (renderable tpars)
  then dispatch_error wd sh
         "Trying to dispatch a shader using an invalid target texture." else
  if pl_shader_is_compute sh
  then dispatch_error wd sh
         "Trying to dispatch a compute shader using pl_dispatch_vertex." else
  if negb (Nat.eqb (length (vas sh)) 0)
  then dispatch_error wd sh
         "Trying to dispatch a custom vertex shader with already attached vertex attributes."
  else
  let pos_idx := vertex_position_idx params in
  if (pos_idx <? 0)
     || (Z.of_nat (length (vp_vertex_attribs params)) <=? pos_idx)
  then dispatch_error wd sh "Vertex position index out of range?" else
  let sh :=
    with_vas sh (map (fun a => {| attr := a; va_data := [] |})
                     (vp_vertex_attribs params)) in
  let '(sh, out_proj) :=
    match vertex_projection params tpars with
    | Some sv => (sh_var sh sv, Some (var_name (var sv)))
    | None => (sh, None)
    end in
  let vert_pos :=
    option_map va_name
      (nth_error (vp_vertex_attribs params) (Z.to_nat pos_idx)) in
  match find_pass wd sh (Some target) vert_pos (vp_blend_params params)
                  true (Some params) out_proj with
  | None => None
  | Some (wd, sh, idx) =>
  match nth_error (passes (dp wd)) idx with
  | None => None
  | Some p =>
  match pass_ p with
  | None => Some (wd, sh, false)
  | Some q =>
  match update_bindings_and_vars p sh with
  | None => None
  | Some (p, evs) =>
  let rp := run_params p in
  let '(s0, s1, s2, s3) := vp_scissors params in
  let sc := if vertex_flipped params
            then (s0, tex_h tpars - s1, s2, tex_h tpars - s3)
            else (s0, s1, s2, s3) in
  let rp :=
    {| rp_pass := rp_pass rp; desc_bindings := desc_bindings rp;
       var_updates := var_updates rp; push_constants := push_constants rp;
       vertex_count := vp_vertex_count params;
       vertex_data := vp_vertex_data params;
       compute_groups := compute_groups rp;
       scissors := pl_rect2d_normalize sc;
       rp_target := Some target |} in
  Some (emit (store_pass wd idx (with_run_params p rp)) (evs ++ [EvPassRun rp]),
        sh, true)
  end end end end end.

Definition pl_dispatch_vertex (wd : world)
  (params : pl_dispatch_vertex_params)
  : option (world * option sh_ptr * bool) :=
  match vp_shader params with
  | None => None
  | Some a =>
      match nth_error (heap wd) a with
      | None => None
      | Some sh =>
          option_map (dispatch_return a) (dispatch_vertex_body wd sh params)
      end
  end.
End Dispatch.

(** ** The persistent cache *)

(** [static const char cache_magic[] = {'P', 'L', 'D', 'P'};] *)
Definition cache_magic : list byte := [Byte.x50; Byte.x4c; Byte.x44; Byte.x50].
Definition cache_version : Z := 1.

(** [write_buf]: [assert(size)], then the bytes go behind what was written
    so far. *)
Definition write_buf (out : list byte) (src : list byte)
  : option (list byte) :=
  match src with
  | [] => None
  | _ => Some (out ++ src)
  end.

(** [WRITE(uint32_t, v)] and [WRITE(uint64_t, v)], little-endian. *)
Definition WRITE32 (out : list byte) (v : Z) : option (list byte) :=
  write_buf out (le_split 4 (uint32 v)).
Definition WRITE64 (out : list byte) (v : Z) : option (list byte) :=
  write_buf out (le_split 8 (uint64 v)).

Definition bind {A B} (m : option A) (k : A -> option B) : option B :=
  match m with
  | Some x => k x
  | None => None
  end.

Notation "x <- m ;; k" := (bind m (fun x => k))
  (at level 61, m at next level, right associativity).

(** The first loop of [pl_dispatch_save], over the compiled passes. *)
Fixpoint save_passes (out : list byte) (l : list pass) : option (list byte) :=
  match l with
  | [] => Some out
  | p :: l' =>
      match pass_ p with
      | None => save_passes out l'
      | Some q =>
          let prog := cached_program (pass_params q) in
          if Nat.eqb (length prog) 0 then save_passes out l' else
          out <- WRITE64 out (signature p) ;;
          out <- WRITE64 out (Z.of_nat (length prog)) ;;
          out <- write_buf out prog ;;
          save_passes out l'
      end
  end.

(** The second loop, over the loaded programs that were not compiled yet. *)
Fixpoint save_cached_passes (out : list byte) (l : list cached_pass)
  : option (list byte) :=
  match l with
  | [] => Some out
  | c :: l' =>
      out <- WRITE64 out (cp_signature c) ;;
      out <- WRITE64 out (Z.of_nat (length (cached_program_ c))) ;;
      out <- write_buf out (cached_program_ c) ;;
      save_cached_passes out l'
  end.

(** What [pl_dispatch_save(dp, out)] writes to [out]; the value it returns is
    the length of this. *)
Definition save_bytes (d : pl_dispatch) : option (list byte) :=
  out <- write_buf [] cache_magic ;;
  out <- WRITE32 out cache_version ;;
  out <- WRITE32 out (Z.of_nat (length (passes d))
                      + Z.of_nat (length (cached_passes d))) ;;
  out <- save_passes out (passes d) ;;
  save_cached_passes out (cached_passes d).

(** The passes that [pl_dispatch_save] writes an entry for. *)
Definition has_program (p : pass) : bool :=
  match pass_ p with
  | Some q => negb (Nat.eqb (length (cached_program (pass_params q))) 0)
  | None => false
  end.

Definition pl_dispatch_save (wd : world) : option (world * list byte) :=
  out <- save_bytes (dp wd) ;;
  Some (emit wd
          (map (fun _ => PL_DEBUG "Saving bytes of cached program")
               (filter has_program (passes (dp wd)))
           ++ map (fun _ => PL_DEBUG "Saving bytes of cached program")
                  (cached_passes (dp wd))),
        out).

(** [LOAD(var)] for a variable of [n] bytes: the value and the new position
    of [cache]; nothing when the bytes are not all inside the buffer. *)
Definition LOAD (n : nat) (cache : list byte) (pos : nat)
  : option (list byte * nat) :=
  if (pos + n <=? length cache)%nat
  then Some (firstn n (skipn pos cache), (pos + n)%nat)
  else None.

(** The loop "Skip passes that are already compiled": its [continue] belongs
    to this loop, so every record with the signature moves [cache] on, and
    the loop runs to its end. *)
Fixpoint skip_compiled (sig : Z) (sz : nat) (l : list pass) (pos : nat)
  : nat * list event :=
  match l with
  | [] => (pos, [])
  | p :: l' =>
      if signature p =? sig then
        let '(pos', evs) := skip_compiled sig sz l' (pos + sz)%nat in
        (pos', PL_DEBUG "Skipping already compiled pass" :: evs)
      else skip_compiled sig sz l' pos
  end.

(** One round of the loop over the entries in [pl_dispatch_load]. *)
Definition load_entry (d : pl_dispatch) (cache : list byte) (pos : nat)
  : option (pl_dispatch * nat * list event) :=
  r <- LOAD 8 cache pos ;;
  let sig := le_combine (fst r) in
  r <- LOAD 8 cache (snd r) ;;
  let sz := le_combine (fst r) in
  let pos := snd r in
  if sz =? 0 then Some (d, pos, []) else
  let '(pos, evs) := skip_compiled sig (Z.to_nat sz) (passes d) pos in
  let fresh := {| cp_signature := sig; cached_program_ := [] |} in
  let '(i, cps) :=
    match find_cached sig (cached_passes d) 0 with
    | Some (i, _) => (i, cached_passes d)
    | None => (length (cached_passes d), cached_passes d ++ [fresh])
    end in
  r <- LOAD (Z.to_nat sz) cache pos ;;
  Some (set_cached_passes d
          (array_set cps i {| cp_signature := sig; cached_program_ := fst r |}),
        snd r,
        evs ++ [PL_DEBUG "Loading bytes of cached program"]).

Fixpoint load_entries (n : nat) (d : pl_dispatch) (cache : list byte)
  (pos : nat) : option (pl_dispatch * nat * list event) :=
  match n with
  | O => Some (d, pos, [])
  | S n' =>
      r <- load_entry d cache pos ;;
      let '(d1, pos1, evs) := r in
      r <- load_entries n' d1 cache pos1 ;;
      let '(d2, pos2, evs') := r in
      Some (d2, pos2, evs ++ evs')
  end.

(** [pl_dispatch_load(dp, cache)], where [cache] is the buffer the pointer
    points into. *)
Definition pl_dispatch_load (wd : world) (cache : list byte) : option world :=
  r <- LOAD 4 cache 0 ;;
  if negb (bytes_eqb (fst r) cache_magic)
  then Some (emit wd [PL_ERR "Failed loading dispatch cache: invalid magic bytes"])
  else
  r <- LOAD 4 cache (snd r) ;;
  if negb (le_combine (fst r) =? cache_version)
  then Some (emit wd [PL_WARN "Failed loading dispatch cache: wrong version"])
  else
  r <- LOAD 4 cache (snd r) ;;
  let num := le_combine (fst r) in
  r <- load_entries (Z.to_nat num) (dp wd) cache (snd r) ;;
  let '(d, _, evs) := r in
  Some (emit (set_dp wd d) evs).

(** ** A reference environment

    An insertion sort for [qsort], a backend that compiles every shader
    except the one whose text is ["bad"] and hands out the shader text as the
    program to cache, and simple stand-ins for the helpers of shaders.c. They
    are used to run the code on concrete inputs. *)

Fixpoint insert_sorted {A} (cmp : A -> A -> Z) (x : A) (l : list A) : list A :=
  match l with
  | [] => [x]
  | y :: l' => if cmp x y <=? 0 then x :: l else y :: insert_sorted cmp x l'
  end.

Definition insertion_sort {A} (cmp : A -> A -> Z) (l : list A) : list A :=
  fold_right (insert_sorted cmp) [] l.

Definition el_size : Z := 4.

Definition ref_std430_layout (off : Z) (v : pl_var) : pl_var_layout :=
  let stride := el_size * dim_v v in
  let align := if dim_v v =? 3 then stride + el_size else stride in
  let stride := if 1 <? dim_m v * dim_a v then align else stride in
  {| layout_offset := PL_ALIGN2 off align; layout_stride := stride;
     layout_size := stride * dim_m v * dim_a v |}.

Definition ref_host_layout (off : Z) (v : pl_var) : pl_var_layout :=
  let stride := el_size * dim_v v in
  {| layout_offset := off; layout_stride := stride;
     layout_size := stride * dim_m v * dim_a v |}.

Definition ref_buf_desc_size (sd : pl_shader_desc) : Z :=
  match rev (buffer_vars sd) with
  | [] => 0
  | bv :: _ => layout_offset (bv_layout bv) + layout_size (bv_layout bv)
  end.

Definition ref_buf_desc_append (g : pl_gpu) (sd : pl_shader_desc) (v : pl_var)
  : option (pl_shader_desc * pl_var_layout) :=
  let lay := ref_std430_layout (ref_buf_desc_size sd) v in
  if max_ubo_size (limits g) <? layout_offset lay + layout_size lay then None
  else Some ({| sd_desc := sd_desc sd; sd_object := sd_object sd;
                buffer_vars := buffer_vars sd
                               ++ [{| bv_var := v; bv_layout := lay |}] |},
             lay).

Fixpoint string_hash (s : string) (acc : Z) : Z :=
  match s with
  | EmptyString => acc
  | String c s' =>
      string_hash s' (uint64 (acc * 31 + Z.of_nat (Ascii.nat_of_ascii c)))
  end.

#[local] Instance ref_shader_lib : shader_lib := {|
  pl_shader_signature := fun sh => string_hash (glsl_text sh) 7;
  pl_shader_finalize := fun sh =>
    {| sh_params := sh_params sh; failed := failed sh; mutable := false;
       is_compute := is_compute sh; input := input sh; output := output sh;
       compute_group_size := compute_group_size sh;
       output_size := output_size sh; glsl_text := glsl_text sh;
       vars := vars sh; descs := descs sh; vas := vas sh |};
  pl_std430_layout := ref_std430_layout;
  pl_var_host_layout := ref_host_layout;
  sh_buf_desc_append := ref_buf_desc_append;
  sh_buf_desc_size := ref_buf_desc_size;
  sh_try_compute := fun _ _ _ _ _ => None;
  sh_attr_vec2 := fun sh name _ _ =>
    (with_vas sh (vas sh ++ [{| attr := {| va_name := name;
                                           va_fmt := {| fmt_id := 0; texel_size := 8 |};
                                           va_offset := 0; va_location := 0 |};
                                va_data := [] |}]), name);
  translate_compute_shader := fun sh _ _ _ =>
    {| sh_params := sh_params sh; failed := failed sh; mutable := mutable sh;
       is_compute := is_compute sh; input := input sh;
       output := PL_SHADER_SIG_NONE;
       compute_group_size := compute_group_size sh;
       output_size := output_size sh; glsl_text := glsl_text sh;
       vars := vars sh; descs := descs sh; vas := vas sh |};
  compute_vertex_attribs := fun sh _ _ => sh;
  vertex_projection := fun _ _ => None;
  generate_shaders := fun _ _ _ sh _ _ => (EmptyString, glsl_text sh);
  memcpy_layout := fun dst _ _ _ => dst
|}.

#[local] Instance ref_gpu_fns : pl_gpu_fns := {|
  buf_create := fun tr sz =>
    Some {| buf_id := Z.of_nat (length tr); buf_size := sz |};
  pass_create := fun tr p =>
    if String.eqb (glsl_shader p) "bad" then None
    else Some (Z.of_nat (length tr), list_byte_of_string (glsl_shader p));
  desc_namespace := fun _ _ => 0%nat
|}.

Definition ref_gpu : pl_gpu :=
  {| PL_GPU_CAP_INPUT_VARIABLES := false;
     PL_GPU_CAP_PARALLEL_COMPUTE := true;
     glsl := {| version := 450; gles := false; vulkan := true |};
     limits := {| max_pushc_size := 128; max_ubo_size := 65536 |} |}.

(** A compute shader as a shader builder leaves it, with the given text. *)
Definition compute_shader (text : string) : pl_shader :=
  {| sh_params := {| sh_id := 0; sh_index := 0 |}; failed := false;
     mutable := true; is_compute := true; input := PL_SHADER_SIG_NONE;
     output := PL_SHADER_SIG_NONE; compute_group_size := (16, 16);
     output_size := None; glsl_text := text;
     vars := []; descs := []; vas := [] |}.

(** A fragment shader with the given text. *)
Definition fragment_shader (text : string) : pl_shader :=
  {| sh_params := {| sh_id := 0; sh_index := 0 |}; failed := false;
     mutable := true; is_compute := false; input := PL_SHADER_SIG_NONE;
     output := PL_SHADER_SIG_COLOR; compute_group_size := (0, 0);
     output_size := None; glsl_text := text;
     vars := []; descs := []; vas := [] |}.

Definition new_world (g : pl_gpu) : world :=
  {| dp := pl_dispatch_create g; heap := []; trace := [] |}.

Lemma insert_sorted_perm {A} (cmp : A -> A -> Z) x l :
  Permutation (x :: l) (insert_sorted cmp x l).
Proof.
  induction l as [|y l IH]; simpl; [reflexivity|].
  destruct (cmp x y <=? 0); [reflexivity|].
  rewrite perm_swap. apply perm_skip, IH.
Qed.

Lemma insertion_sort_perm {A} (cmp : A -> A -> Z) l :
  Permutation l (insertion_sort cmp l).
Proof.
  induction l as [|x l IH]; simpl; [reflexivity|].
  rewrite <- insert_sorted_perm. apply perm_skip, IH.
Qed.

Lemma insert_sorted_sorted {A} (cmp : A -> A -> Z) x l :
  cmp_total cmp -> cmp_trans cmp ->
  StronglySorted (fun a b => cmp a b <= 0) l ->
  StronglySorted (fun a b => cmp a b <= 0) (insert_sorted cmp x l).
Proof.
  intros Htot Htr. induction l as [|y l IH]; intros Hs; simpl.
  - constructor; constructor.
  - inversion Hs as [|? ? Hs' Hall]; subst.
    destruct (cmp x y <=? 0) eqn:E.
    + apply Z.leb_le in E. constructor; [assumption|].
      constructor; [assumption|].
      eapply Forall_impl; [|exact Hall]. intros b Hb. eapply Htr; eassumption.
    + apply Z.leb_gt in E. constructor; [apply IH; assumption|].
      assert (Hyx : cmp y x <= 0) by (destruct (Htot x y); [lia|assumption]).
      eapply Permutation_Forall; [apply insert_sorted_perm|].
      constructor; assumption.
Qed.

Lemma insertion_sort_sorted {A} (cmp : A -> A -> Z) l :
  cmp_total cmp -> cmp_trans cmp ->
  StronglySorted (fun a b => cmp a b <= 0) (insertion_sort cmp l).
Proof.
  intros Htot Htr. induction l as [|x l IH]; simpl.
  - constructor.
  - apply insert_sorted_sorted; assumption.
Qed.

#[local] Instance ref_qsort : libc_qsort := {|
  qsort := @insertion_sort;
  qsort_perm := @insertion_sort_perm;
  qsort_sorted := @insertion_sort_sorted
|}.

(** Running a list of compute shaders, one dispatch each: the accumulator
    comes from [pl_dispatch_begin], a shader builder fills in the text, and
    [pl_dispatch_compute] consumes it. *)
Definition build_compute (wd : world) (a : sh_ptr) (text : string) : world :=
  {| dp := dp wd; heap := array_set (heap wd) a (compute_shader text);
     trace := trace wd |}.

Definition dispatch_text (wd : world) (text : string) : option world :=
  r <- pl_dispatch_begin wd ;;
  let '(wd, a) := r in
  r <- pl_dispatch_compute (build_compute wd a text)
         {| cp_shader := Some a; dispatch_size := (1, 1, 1);
            cp_width := 0; cp_height := 0 |} ;;
  Some (fst (fst r)).

Fixpoint dispatch_texts (wd : world) (texts : list string) : option world :=
  match texts with
  | [] => Some wd
  | t :: texts' => wd <- dispatch_text wd t ;; dispatch_texts wd texts'
  end.

Fixpoint text_of (n : nat) : string :=
  match n with
  | O => "s"
  | S n' => String.append "a" (text_of n')
  end.

Fixpoint reset_frames (n : nat) (wd : world) : world :=
  match n with
  | O => wd
  | S n' => reset_frames n' (pl_dispatch_reset_frame wd)
  end.

(** ** The eviction controller: what a collection keeps *)

Lemma skip_young_spec d rest idx :
  (idx <= skip_young d rest idx <= idx + length rest)%nat /\
  match skipn (skip_young d rest idx - idx) rest with
  | [] => True
  | p :: _ => MIN_AGE <= pass_age d p
  end.
Proof.
  revert idx. induction rest as [|p rest IH]; intros idx; simpl.
  - split; [lia|]. now destruct (idx - idx)%nat.
  - destruct (pass_age d p <? MIN_AGE) eqn:E.
    + destruct (IH (S idx)) as [Hr Hs]. split; [lia|].
      replace (skip_young d rest (S idx) - idx)%nat
        with (S (skip_young d rest (S idx) - S idx)) by lia.
      exact Hs.
    + apply Z.ltb_ge in E. split; [lia|].
      rewrite Nat.sub_diag. exact E.
Qed.

Lemma StronglySorted_skipn {A} (R : A -> A -> Prop) n l :
  StronglySorted R l -> StronglySorted R (skipn n l).
Proof.
  revert l. induction n as [|n IH]; intros l Hs; [exact Hs|].
  destruct l as [|x l]; [constructor|]. simpl. apply IH.
  now inversion Hs.
Qed.

Lemma cmp_pass_age_total : cmp_total cmp_pass_age.
Proof. intros a b. unfold cmp_pass_age. lia. Qed.

Lemma cmp_pass_age_trans : cmp_trans cmp_pass_age.
Proof. intros a b c. unfold cmp_pass_age. lia. Qed.

(** What is cut off behind the index found by the scan is old enough. *)
Lemma evicted_are_old {libc : libc_qsort} d l :
  let elem := qsort cmp_pass_age l in
  let half := Nat.div (length l) 2 in
  let idx := skip_young d (skipn half elem) half in
  (half <= idx <= length l)%nat /\
  Forall (fun p => MIN_AGE <= pass_age d p) (skipn idx elem).
Proof.
  intros elem half idx.
  assert (Hlen : length elem = length l)
    by (symmetry; apply Permutation_length, qsort_perm).
  destruct (skip_young_spec d (skipn half elem) half) as [Hr Hs].
  fold idx in Hr, Hs. rewrite length_skipn, Hlen in Hr.
  assert (Hhalf : (half <= length l)%nat)
    by (unfold half; apply Nat.Div0.div_le_upper_bound; lia).
  split; [lia|].
  rewrite skipn_skipn in Hs.
  replace (idx - half + half)%nat with idx in Hs by lia.
  pose proof (StronglySorted_skipn idx
                (qsort_sorted l cmp_pass_age_total cmp_pass_age_trans)) as Hss.
  fold elem in Hss.
  destruct (skipn idx elem) as [|p tl]; [constructor|].
  inversion Hss as [|? ? _ Hall]; subst.
  constructor; [exact Hs|].
  eapply Forall_impl; [|exact Hall].
  intros b Hb. unfold cmp_pass_age in Hb. unfold pass_age in *. lia.
Qed.

(** C3, as the code has it. A collection keeps at least the first half of
    the records, rounded down: of [n] records at least [n / 2] remain, so
    [n <= 2 * kept + 1]. Every record it removes has an age of at least
    [MIN_AGE] frames, and these are the records whose pass and buffer are
    destroyed. *)
Theorem eviction_floor {libc : libc_qsort} (wd : world) :
  exists evicted log,
    Permutation (passes (dp wd))
                (passes (dp (garbage_collect_passes wd)) ++ evicted) /\
    Forall (fun p => MIN_AGE <= pass_age (dp wd) p) evicted /\
    trace (garbage_collect_passes wd)
      = trace wd ++ flat_map pass_destroy evicted ++ log /\
    (length (passes (dp wd))
     <= 2 * length (passes (dp (garbage_collect_passes wd))) + 1)%nat.
Proof.
  unfold garbage_collect_passes.
  destruct (Z.of_nat (length (passes (dp wd))) <=? max_passes (dp wd)).
  - exists [], []. rewrite !app_nil_r. repeat split; auto; lia.
  - set (l := passes (dp wd)).
    destruct (evicted_are_old (dp wd) l) as [Hidx Hold].
    set (elem := qsort cmp_pass_age l) in *.
    set (half := Nat.div (length l) 2) in *.
    set (idx := skip_young (dp wd) (skipn half elem) half) in *.
    assert (Hlen : length elem = length l)
      by (symmetry; apply Permutation_length, qsort_perm).
    assert (Hkept : length (firstn idx elem) = idx)
      by (rewrite length_firstn; lia).
    assert (Hhalf : (length l <= 2 * half + 1)%nat).
    { unfold half. pose proof (Nat.div_mod_eq (length l) 2) as E.
      pose proof (Nat.mod_upper_bound (length l) 2). lia. }
    exists (skipn idx elem).
    destruct (negb (Nat.eqb (length l - idx) 0)); simpl;
      [eexists [_] | exists []];
      (split; [rewrite firstn_skipn; apply qsort_perm|]);
      (split; [exact Hold|]);
      (split; [now rewrite ?app_nil_r|]);
      rewrite Hkept; lia.
Qed.

Definition old_world : world :=
  match dispatch_texts (new_world ref_gpu) (map text_of (seq 0 101)) with
  | Some wd => reset_frames 20 wd
  | None => new_world ref_gpu
  end.

(** C3 as stated fails: at the default capacity the collector first runs
    on 101 records, and when all of them are old it keeps 50, fewer than
    half. *)
Lemma eviction_keeps_less_than_half :
  length (passes (dp old_world)) = 101%nat /\
  length (passes (dp (garbage_collect_passes old_world))) = 50%nat /\
  ~ (length (passes (dp old_world))
     <= 2 * length (passes (dp (garbage_collect_passes old_world))))%nat.
Proof.
  assert (H1 : length (passes (dp old_world)) = 101%nat) by (vm_compute; reflexivity).
  assert (H2 : length (passes (dp (garbage_collect_passes old_world))) = 50%nat)
    by (vm_compute; reflexivity).
  rewrite H1, H2. repeat split; lia.
Qed.

(** ** Identity tags within a frame *)

(** A sequence of [pl_dispatch_begin_ex] calls; for each call the [unique]
    flag and the identity tag of the accumulator it returned. *)
Fixpoint begin_many (wd : world) (flags : list bool)
  : option (world * list (bool * Z)) :=
  match flags with
  | [] => Some (wd, [])
  | u :: flags' =>
      r <- pl_dispatch_begin_ex wd u ;;
      let '(wd1, a) := r in
      sh <- nth_error (heap wd1) a ;;
      r <- begin_many wd1 flags' ;;
      Some (fst r, (u, sh_id (sh_params sh)) :: snd r)
  end.

Definition unique_tags (tags : list (bool * Z)) : list Z :=
  map snd (filter fst tags).

(** Every pointer in the pool points to an accumulator. *)
Definition pool_valid (wd : world) : Prop :=
  Forall (fun a => (a < length (heap wd))%nat) (shaders (dp wd)).

Lemma length_array_set {A} (l : list A) i x :
  length (array_set l i x) = length l.
Proof.
  revert i. induction l as [|y l IH]; intros [|i]; simpl; auto.
Qed.

Lemma nth_error_array_set {A} (l : list A) i x :
  (i < length l)%nat -> nth_error (array_set l i x) i = Some x.
Proof.
  revert i. induction l as [|y l IH]; intros [|i] H; simpl in *;
    try lia; auto. apply IH. lia.
Qed.

Lemma PL_ARRAY_POP_spec {A} (l : list A) :
  match PL_ARRAY_POP l with
  | Some (rest, x) => l = rest ++ [x]
  | None => l = []
  end.
Proof.
  unfold PL_ARRAY_POP. destruct (rev l) as [|x r] eqn:E.
  - apply (f_equal (@rev A)) in E. now rewrite rev_involutive in E.
  - apply (f_equal (@rev A)) in E. rewrite rev_involutive in E.
    simpl in E. exact E.
Qed.

(** One call: it returns, the tag is the counter when [unique], the counter
    moves on by one modulo 256, and the pool stays valid. *)
Lemma begin_ex_spec wd u :
  pool_valid wd ->
  exists wd1 a sh,
    pl_dispatch_begin_ex wd u = Some (wd1, a) /\
    nth_error (heap wd1) a = Some sh /\
    sh_id (sh_params sh) = (if u then current_ident (dp wd) else 0) /\
    current_ident (dp wd1)
      = (if u then uint8 (current_ident (dp wd) + 1) else current_ident (dp wd)) /\
    pool_valid wd1.
Proof.
  intros Hv. unfold pl_dispatch_begin_ex.
  assert (Hsh : shaders (if u then set_current_ident (dp wd)
                                     (uint8 (current_ident (dp wd) + 1))
                         else dp wd) = shaders (dp wd))
    by (destruct u; reflexivity).
  rewrite Hsh. pose proof (PL_ARRAY_POP_spec (shaders (dp wd))) as Hpop.
  destruct (PL_ARRAY_POP (shaders (dp wd))) as [[rest a]|].
  - unfold pool_valid in Hv. rewrite Hpop in Hv.
    apply Forall_app in Hv. destruct Hv as [Hrest Ha].
    inversion Ha as [|? ? Ha' _]; subst.
    destruct (nth_error (heap wd) a) as [s|] eqn:E;
      [|apply nth_error_None in E; lia].
    eexists _, a, _. split; [reflexivity|]. simpl.
    split; [apply nth_error_array_set; assumption|].
    split; [reflexivity|].
    split; [destruct u; reflexivity|].
    unfold pool_valid. simpl. rewrite length_array_set.
    destruct u; exact Hrest.
  - eexists _, (length (heap wd)), _. split; [reflexivity|]. simpl.
    split; [rewrite nth_error_app2, Nat.sub_diag by lia; reflexivity|].
    split; [reflexivity|].
    split; [destruct u; reflexivity|].
    unfold pool_valid in *. destruct u; simpl; rewrite Hpop; constructor.
Qed.

Lemma NoDup_uint8_run c n :
  (n <= 256)%nat ->
  NoDup (map (fun i => uint8 (c + Z.of_nat i)) (seq 0 n)).
Proof.
  intros Hn. apply NoDup_nth_error. intros i j Hi E.
  rewrite length_map, length_seq in Hi.
  rewrite !nth_error_map in E.
  rewrite nth_error_seq in E.
  destruct (Nat.ltb_spec i n) as [_|]; [|lia]. 
  rewrite nth_error_seq in E.
  destruct (Nat.ltb_spec j n) as [Hj|Hj]; [|discriminate].
  simpl in E. injection E as E. unfold uint8 in E.
  assert (H : (Z.of_nat i - Z.of_nat j) mod 2 ^ 8 = 0).
  { replace (Z.of_nat i - Z.of_nat j)
      with ((c + Z.of_nat i) - (c + Z.of_nat j)) by lia.
    rewrite Zminus_mod, E, Z.sub_diag. reflexivity. }
  apply Z.mod_divide in H; [|lia]. destruct H as [k Hk].
  change (2 ^ 8) with 256 in Hk. lia.
Qed.

(** C7 as stated fails: the 257th unique accumulator of a frame gets the
    tag of the first. *)
Lemma unique_tags_wrap :
  exists wd' tags,
    begin_many (pl_dispatch_reset_frame (new_world ref_gpu))
               (repeat true 257) = Some (wd', tags) /\
    ~ NoDup (unique_tags tags).
Proof.
  assert (H : match begin_many (pl_dispatch_reset_frame (new_world ref_gpu))
                               (repeat true 257) with
              | Some (_, tags) =>
                  match nth_error (unique_tags tags) 0,
                        nth_error (unique_tags tags) 256 with
                  | Some x, Some y => x =? y
                  | _, _ => false
                  end
              | None => false
              end = true) by (vm_compute; reflexivity).
  destruct (begin_many _ _) as [[wd' tags]|]; [|discriminate].
  exists wd', tags. split; [reflexivity|]. intros Hnd.
  destruct (nth_error (unique_tags tags) 0) as [x|] eqn:E0; [|discriminate].
  destruct (nth_error (unique_tags tags) 256) as [y|] eqn:E1; [|discriminate].
  apply Z.eqb_eq in H. subst y.
  assert (Hlen : (0 < length (unique_tags tags))%nat).
  { apply nth_error_Some. rewrite E0. discriminate. }
  rewrite <- E1 in E0.
  pose proof (proj1 (NoDup_nth_error (unique_tags tags)) Hnd 0%nat 256%nat Hlen E0).
  discriminate.
Qed.

(** ** The accumulator goes back to the pool *)

Ltac break_in H :=
  match type of H with
  | context [match ?x with _ => _ end] =>
      lazymatch x with
      | context [match _ with _ => _ end] => fail
      | _ => first [ is_var x; destruct x
                   | let E := fresh "E" in destruct x eqn:E ]
      end
  end.

Ltac solve_by_cases H :=
  repeat (first [ discriminate H
                | progress (cbv beta iota zeta delta [bind] in H)
                | break_in H ]);
  try (match type of H with
       | Some _ = Some _ => inversion H; subst; clear H
       end).

(** The same for the entry points, which end in one [Some] per path: the
    result is taken apart as soon as it is reached. *)
Ltac body_cases H :=
  repeat (lazymatch type of H with
          | Some _ = Some _ => fail
          | _ => first [ discriminate H
                       | progress (cbv beta iota zeta delta [bind] in H)
                       | break_in H ]
          end);
  try (match type of H with
       | Some _ = Some _ => inversion H; subst; clear H
       end).

Lemma gc_shaders {libc : libc_qsort} wd :
  shaders (dp (garbage_collect_passes wd)) = shaders (dp wd) /\
  heap (garbage_collect_passes wd) = heap wd.
Proof.
  unfold garbage_collect_passes.
  repeat match goal with |- context [if ?x then _ else _] => destruct x end;
    split; reflexivity.
Qed.

Section PoolFacts.
Context {fns : pl_gpu_fns} {lib : shader_lib} {libc : libc_qsort}.

Lemma build_pass_world wd sh sig target vert_pos blend load vparams
      out_proj wd1 b :
  build_pass wd sh sig target vert_pos blend load vparams out_proj
    = Some (wd1, b) ->
  shaders (dp wd1) = shaders (dp wd) /\ heap wd1 = heap wd /\
  (b_pass b = None \/
   exists params q,
     b_pass b = Some q /\ In (EvPassCreate sig params (Some q)) (trace wd1)).
Proof.
  unfold build_pass, failed_build. intros H.
  destruct (find_cached sig (cached_passes (dp wd)) 0) as [[i c]|];
    solve_by_cases H; simpl; (split; [reflexivity|split; [reflexivity|]]);
    auto;
    right; eexists _, _; (split; [reflexivity|]);
    rewrite ?in_app_iff; simpl; auto.
Qed.

Lemma find_pass_shaders wd sh target vert_pos blend load vparams out_proj
      wd1 sh1 i :
  find_pass wd sh target vert_pos blend load vparams out_proj
    = Some (wd1, sh1, i) ->
  shaders (dp wd1) = shaders (dp wd) /\ heap wd1 = heap wd.
Proof.
  unfold find_pass. intros H.
  destruct (scan_passes _ _ _ _ _ _ _ _); [| |discriminate].
  - destruct (nth_error _ _); [|discriminate].
    injection H as <- <- <-. split; reflexivity.
  - destruct (build_pass _ _ _ _ _ _ _ _ _) as [[wd0 b]|] eqn:E;
      [|discriminate].
    apply build_pass_world in E. destruct E as (E1 & E2 & _).
    injection H as <- <- <-. simpl.
    destruct (gc_shaders wd0) as [G1 G2]. rewrite G1, G2. split; assumption.
Qed.

Ltac pool_cases H :=
  body_cases H;
  try match goal with
      | E : find_pass _ _ _ _ _ _ _ _ = Some _ |- _ =>
          apply find_pass_shaders in E; destruct E
      end;
  simpl in *; split; congruence.

Lemma dispatch_finish_body_pool wd sh params wd1 sh1 ret :
  dispatch_finish_body wd sh params = Some (wd1, sh1, ret) ->
  shaders (dp wd1) = shaders (dp wd) /\ heap wd1 = heap wd.
Proof. unfold dispatch_finish_body, dispatch_error. intros H. pool_cases H. Qed.

Lemma dispatch_compute_body_pool wd sh params wd1 sh1 ret :
  dispatch_compute_body wd sh params = Some (wd1, sh1, ret) ->
  shaders (dp wd1) = shaders (dp wd) /\ heap wd1 = heap wd.
Proof. unfold dispatch_compute_body, dispatch_error. intros H. pool_cases H. Qed.

Lemma dispatch_vertex_body_pool wd sh params wd1 sh1 ret :
  dispatch_vertex_body wd sh params = Some (wd1, sh1, ret) ->
  shaders (dp wd1) = shaders (dp wd) /\ heap wd1 = heap wd.
Proof. unfold dispatch_vertex_body, dispatch_error. intros H. pool_cases H. Qed.

Lemma dispatch_return_pool a wd1 sh1 ret wd' psh ret' :
  dispatch_return a (wd1, sh1, ret) = (wd', psh, ret') ->
  psh = None /\ ret' = ret /\
  shaders (dp wd') = shaders (dp wd1) ++ [a] /\
  heap wd' = array_set (heap wd1) a sh1.
Proof.
  unfold dispatch_return, pl_dispatch_abort, PL_ARRAY_APPEND. simpl.
  intros H. injection H as <- <- <-. repeat split.
Qed.
End PoolFacts.



Definition one_shader_world : world :=
  {| dp := pl_dispatch_create ref_gpu; heap := [compute_shader "s"];
     trace := [] |}.


(** ** Loading a cache with a bad header *)

Lemma byte_eqb_eq a b : byte_eqb a b = true <-> a = b.
Proof.
  unfold byte_eqb. rewrite Z.eqb_eq. split.
  - apply byte.unsigned_inj.
  - now intros ->.
Qed.

Lemma bytes_eqb_eq a : forall b, bytes_eqb a b = true <-> a = b.
Proof.
  induction a as [|x a IH]; intros [|y b]; simpl; try (split; congruence).
  rewrite andb_true_iff, byte_eqb_eq, IH. split.
  - now intros [-> ->].
  - intros E. injection E as -> ->. split; reflexivity.
Qed.

(** C8, as the code has it. A buffer that holds a magic and a version, one
    of them wrong, is rejected: [pl_dispatch_load] returns, the dispatch
    object and the accumulators are unchanged, and one message is logged: an
    error for a wrong magic, a warning for a wrong version behind the right
    magic. *)
Theorem load_rejects_bad_header (wd : world) (cache : list byte) :
  (8 <= length cache)%nat ->
  firstn 4 cache <> cache_magic \/
  le_combine (firstn 4 (skipn 4 cache)) <> cache_version ->
  exists wd' lev msg,
    pl_dispatch_load wd cache = Some wd' /\
    dp wd' = dp wd /\ heap wd' = heap wd /\
    trace wd' = trace wd ++ [EvLog lev msg] /\
    (firstn 4 cache <> cache_magic -> lev = PL_LOG_ERR) /\
    (firstn 4 cache = cache_magic -> lev = PL_LOG_WARN).
Proof.
  intros Hlen Hbad. unfold pl_dispatch_load, LOAD.
  destruct (Nat.leb_spec (0 + 4) (length cache)) as [_|]; [|simpl in *; lia].
  cbn [bind fst snd skipn].
  destruct (bytes_eqb (firstn 4 cache) cache_magic) eqn:Em; cbn [negb].
  - apply bytes_eqb_eq in Em.
    destruct Hbad as [Hbad|Hbad]; [contradiction|].
    destruct (Nat.leb_spec (0 + 4 + 4) (length cache)) as [_|];
      [|simpl in *; lia].
    cbn [bind fst snd]. change (0 + 4)%nat with 4%nat.
    destruct (le_combine (firstn 4 (skipn 4 cache)) =? cache_version) eqn:Ev;
      [apply Z.eqb_eq in Ev; contradiction|].
    cbn [negb]. eexists _, PL_LOG_WARN, _. split; [reflexivity|].
    do 3 (split; [reflexivity|]).
    split; [intros; contradiction | intros; reflexivity].
  - assert (Hm : firstn 4 cache <> cache_magic).
    { intros E. apply bytes_eqb_eq in E. congruence. }
    eexists _, PL_LOG_ERR, _. split; [reflexivity|].
    do 3 (split; [reflexivity|]).
    split; [intros; reflexivity | intros; contradiction].
Qed.

(** A cache of version 2 with no entries. *)
Definition wrong_version_cache : list byte :=
  cache_magic ++ le_split 4 2 ++ le_split 4 0.

(** A cache with the magic [PLDX]. *)
Definition wrong_magic_cache : list byte :=
  [Byte.x50; Byte.x4c; Byte.x44; Byte.x58] ++ le_split 4 1 ++ le_split 4 0.

Lemma load_rejects_bad_header_witness :
  exists wd' lev msg,
    pl_dispatch_load (new_world ref_gpu) wrong_version_cache = Some wd' /\
    dp wd' = dp (new_world ref_gpu) /\ heap wd' = heap (new_world ref_gpu) /\
    trace wd' = trace (new_world ref_gpu) ++ [EvLog lev msg] /\
    (firstn 4 wrong_version_cache <> cache_magic -> lev = PL_LOG_ERR) /\
    (firstn 4 wrong_version_cache = cache_magic -> lev = PL_LOG_WARN).
Proof.
  apply load_rejects_bad_header.
  - vm_compute. lia.
  - right. vm_compute. discriminate.
Defined.

(** C8 as stated fails for the magic: a wrong magic is reported as an error,
    and no warning is logged. *)
Lemma wrong_magic_is_an_error :
  exists wd',
    pl_dispatch_load (new_world ref_gpu) wrong_magic_cache = Some wd' /\
    dp wd' = dp (new_world ref_gpu) /\
    trace wd' = [PL_ERR "Failed loading dispatch cache: invalid magic bytes"] /\
    forall msg, ~ In (PL_WARN msg) (trace wd').
Proof.
  eexists. split; [vm_compute; reflexivity|].
  split; [reflexivity|]. split; [reflexivity|].
  intros msg [H|[]]. discriminate.
Qed.

(** ** Two defects of the persistent cache *)

(** The state after one shader was compiled: one live record. *)
Definition one_live_world : world :=
  match dispatch_texts (new_world ref_gpu) ["x"%string] with
  | Some wd => wd
  | None => new_world ref_gpu
  end.

(** A well-formed cache with two entries of 16 bytes each: the first for
    the signature of the live record, the second for signature 9. *)
Definition two_entry_cache : list byte :=
  cache_magic ++ le_split 4 1 ++ le_split 4 2
  ++ (le_split 8 337 ++ le_split 8 16 ++ repeat Byte.x11 16)
  ++ (le_split 8 9 ++ le_split 8 16 ++ repeat Byte.x00 16).

(** C1 fails on the code. The record with signature 337 is live, so the
    first entry should be skipped and the second loaded. Instead [cache]
    moves past the sixteen bytes, the function goes on to store a program
    for 337 (the sixteen bytes that follow, which are the header of the
    second entry), moves [cache] again, and reads the second entry from the
    middle of its data: signature 9 is never loaded. *)
Theorem load_does_not_skip_compiled :
  map signature (passes (dp one_live_world)) = [337] /\
  cached_passes (dp one_live_world) = [] /\
  exists wd',
    pl_dispatch_load one_live_world two_entry_cache = Some wd' /\
    cached_passes (dp wd')
      = [{| cp_signature := 337;
            cached_program_ := le_split 8 9 ++ le_split 8 16 |}] /\
    load_entry (dp one_live_world) two_entry_cache 12
      = Some (dp wd', (12 + 16 + 2 * 16)%nat,
              [PL_DEBUG "Skipping already compiled pass";
               PL_DEBUG "Loading bytes of cached program"]).
Proof.
  split; [vm_compute; reflexivity|]. split; [vm_compute; reflexivity|].
  eexists. split; [vm_compute; reflexivity|].
  split; vm_compute; reflexivity.
Qed.

(** The state after the backend failed to compile one shader: the only
    live record is the one without a pass. *)
Definition one_failed_world : world :=
  match dispatch_texts (new_world ref_gpu) ["bad"%string] with
  | Some wd => wd
  | None => new_world ref_gpu
  end.

(** C2 fails on the code. The entry count written is the number of live
    records plus the number of loaded programs; a record without a program
    is counted but not written. Here the count is 1 and no entry follows. *)
Theorem save_counts_unwritten_records :
  map has_program (passes (dp one_failed_world)) = [false] /\
  cached_passes (dp one_failed_world) = [] /\
  save_bytes (dp one_failed_world)
    = Some (cache_magic ++ le_split 4 1 ++ le_split 4 1).
Proof.
  repeat split; vm_compute; reflexivity.
Qed.

(** ** When the eviction controller runs *)

Definition capacity4_world : world :=
  set_dp (new_world ref_gpu) (set_max_passes (pl_dispatch_create ref_gpu) 4).

(** The controller does nothing while the count is within the bound. *)
Lemma gc_within_capacity {libc : libc_qsort} wd :
  Z.of_nat (length (passes (dp wd))) <= max_passes (dp wd) ->
  garbage_collect_passes wd = wd.
Proof.
  intros H. unfold garbage_collect_passes.
  apply Z.leb_le in H. now rewrite H.
Qed.

(** C4 fails on the code. [find_pass] calls the controller before it
    appends the new record, and the controller compares the count before
    the append with [<=]. With capacity 4, five different shaders in one
    frame leave five records and capacity 4; the capacity grows to 8 only
    with the sixth. With the default capacity, 101 shaders leave 101 records
    and capacity 100. *)
Theorem fifth_pass_exceeds_capacity :
  option_map (fun wd => (length (passes (dp wd)), max_passes (dp wd)))
             (dispatch_texts capacity4_world (map text_of (seq 0 5)))
    = Some (5%nat, 4) /\
  option_map (fun wd => (length (passes (dp wd)), max_passes (dp wd)))
             (dispatch_texts capacity4_world (map text_of (seq 0 6)))
    = Some (6%nat, 8) /\
  option_map (fun wd => (length (passes (dp wd)), max_passes (dp wd)))
             (dispatch_texts (new_world ref_gpu) (map text_of (seq 0 101)))
    = Some (101%nat, MAX_PASSES).
Proof.
  repeat split; vm_compute; reflexivity.
Qed.

(** ** Records whose pass could not be created *)

Definition count_creates (sig : Z) (tr : list event) : nat :=
  length (filter (fun e => match e with
                           | EvPassCreate s _ _ => s =? sig
                           | _ => false
                           end) tr).

(** The shader ["bad"] fails to compile in frame 0; ten frames later 101
    other shaders are dispatched; then ["bad"] is dispatched again. *)
Definition evicted_sentinel_run : option world :=
  wd <- dispatch_texts (new_world ref_gpu) ["bad"%string] ;;
  wd <- dispatch_texts (reset_frames 10 wd) (map text_of (seq 0 101)) ;;
  dispatch_texts wd ["bad"%string].

(** C5 as stated fails: the record of a failed shader is evicted like any
    other, and the next dispatch of the shader asks the backend again. *)
Lemma sentinel_is_evicted :
  option_map
    (fun wd => (map (fun p => (signature p, pass_ p)) (passes (dp wd)),
                count_creates 305822 (trace wd)))
    (dispatch_texts (new_world ref_gpu) ["bad"%string])
    = Some ([(305822, None)], 1%nat) /\
  option_map (fun wd => count_creates 305822 (trace wd)) evicted_sentinel_run
    = Some 2%nat.
Proof.
  split; vm_compute; reflexivity.
Qed.

(** While a record of the signature without a pass is in the collection,
    the scan stops at it or at a record of the signature before it: it does
    not run to the end. The scan needs a target for a shader that is not a
    compute shader ([pl_assert(target)]). *)
Lemma scan_passes_sentinel sig compute target blend load vparams l :
  forall i0 k s,
    compute = true \/ target <> None ->
    nth_error l k = Some s -> signature s = sig -> pass_ s = None ->
    exists i p,
      scan_passes sig compute target blend load vparams l i0
        = ScanHit (i0 + i) /\
      (i <= k)%nat /\ nth_error l i = Some p /\ signature p = sig /\
      (pass_ p = None \/ (i < k)%nat).
Proof.
  induction l as [|p l IH]; intros i0 k s Hc Hn Hs Hp.
  - destruct k; discriminate.
  - assert (Hhere : forall k', k = S k' -> signature p = sig ->
              exists i p0,
                ScanHit i0 = ScanHit (i0 + i) /\
                (i <= k)%nat /\ nth_error (p :: l) i = Some p0 /\
                signature p0 = sig /\ (pass_ p0 = None \/ (i < k)%nat)).
    { intros k' -> E. exists 0%nat, p. rewrite Nat.add_0_r.
      repeat split; auto; try lia. }
    assert (Hnext : forall k', k = S k' ->
              exists i p0,
                scan_passes sig compute target blend load vparams l (S i0)
                  = ScanHit (i0 + i) /\
                (i <= k)%nat /\ nth_error (p :: l) i = Some p0 /\
                signature p0 = sig /\ (pass_ p0 = None \/ (i < k)%nat)).
    { intros k' ->. simpl in Hn.
      destruct (IH (S i0) k' s Hc Hn Hs Hp) as (i & q & E & Hi & Hq & Hsq & Hpq).
      exists (S i), q. rewrite E. split; [f_equal; lia|].
      split; [lia|]. split; [exact Hq|]. split; [exact Hsq|].
      destruct Hpq; [left; assumption|right; lia]. }
    destruct k as [|k'].
    + simpl in Hn. injection Hn as ->. simpl.
      rewrite Hs, Z.eqb_refl, Hp. simpl.
      exists 0%nat, s. rewrite Nat.add_0_r. repeat split; auto.
    + simpl. destruct (signature p =? sig) eqn:E; simpl;
        [|exact (Hnext k' eq_refl)].
      apply Z.eqb_eq in E.
      destruct (pass_ p) as [q|] eqn:Eq.
      * destruct compute; [exact (Hhere k' eq_refl E)|].
        destruct target as [t|]; [|destruct Hc; [discriminate|contradiction]].
        match goal with
        | |- context [if ?c then _ else _] => destruct c
        end; [exact (Hhere k' eq_refl E)|exact (Hnext k' eq_refl)].
      * exists 0%nat, p. rewrite Nat.add_0_r. repeat split; auto; lia.
Qed.

(** C5, as the code has it. A lookup that misses appends the record it
    built whether or not a pass was created, and the pass handle is empty
    unless a pass-create succeeded. While a record of the signature without
    a pass is in the collection, at any position and whatever other records
    of the signature there are, a lookup of the signature (with a target
    when the shader is not a compute shader) builds nothing and calls
    nothing: it returns that record or a record of the signature that
    stands before it, with the frame tag of the returned record refreshed;
    the trace and everything else in the world stay as they are. (The
    record can be evicted like any other; after that the shader is built
    again.) *)
Theorem failed_pass_is_sticky
        {fns : pl_gpu_fns} {lib : shader_lib} {libc : libc_qsort}
        (wd : world) (sh : pl_shader) (target : option pl_tex)
        (vert_pos : option string) (blend : option pl_blend_params)
        (load : bool) (vparams : option pl_dispatch_vertex_params)
        (out_proj : option string) :
  let sig := uint64 (pl_shader_signature sh) in
  (forall wd1 b,
      scan_passes sig (pl_shader_is_compute sh) target blend load vparams
                  (passes (dp wd)) 0 = ScanMiss ->
      build_pass wd sh sig target vert_pos blend load vparams out_proj
        = Some (wd1, b) ->
      (b_pass b = None \/
       exists params q,
         b_pass b = Some q /\
         In (EvPassCreate sig params (Some q)) (trace wd1)) /\
      exists wd' p,
        find_pass wd sh target vert_pos blend load vparams out_proj
          = Some (wd', b_sh b, length (passes (dp (garbage_collect_passes wd1)))) /\
        passes (dp wd') = passes (dp (garbage_collect_passes wd1)) ++ [p] /\
        signature p = sig /\ pass_ p = b_pass b) /\
  (pl_shader_is_compute sh = true \/ target <> None ->
   forall k s,
     nth_error (passes (dp wd)) k = Some s ->
     signature s = sig -> pass_ s = None ->
     exists i p wd',
       find_pass wd sh target vert_pos blend load vparams out_proj
         = Some (wd', sh, i) /\
       wd' = set_dp wd
               (set_passes (dp wd)
                  (array_set (passes (dp wd)) i
                     (with_last_index p (current_index (dp wd))))) /\
       trace wd' = trace wd /\
       (i <= k)%nat /\
       nth_error (passes (dp wd)) i = Some p /\ signature p = sig /\
       (pass_ p = None \/ (i < k)%nat)).
Proof.
  intros sig. split.
  - intros wd1 b Hscan Hb.
    split; [apply (build_pass_world _ _ _ _ _ _ _ _ _ Hb)|].
    unfold find_pass. fold sig. rewrite Hscan, Hb.
    eexists _, _. split; [reflexivity|]. simpl. repeat split.
  - intros Hc k s Hn Hs Hp.
    destruct (@scan_passes_sentinel sig (pl_shader_is_compute sh) target blend
                load vparams (passes (dp wd)) 0%nat k s Hc Hn Hs Hp)
      as (i & p & E & Hi & Hni & Hsi & Hpi).
    exists i, p. eexists. unfold find_pass. fold sig. rewrite E. simpl.
    rewrite Hni. split; [reflexivity|]. repeat split; assumption.
Qed.

Lemma failed_pass_is_sticky_witness :
  exists i p wd',
    find_pass one_failed_world (compute_shader "bad")
              None None None false None None
      = Some (wd', compute_shader "bad", i) /\
    trace wd' = trace one_failed_world /\
    i = 0%nat /\
    nth_error (passes (dp one_failed_world)) i = Some p /\
    pass_ p = None.
Proof.
  destruct (nth_error (passes (dp one_failed_world)) 0) as [s|] eqn:En;
    [|vm_compute in En; discriminate].
  assert (Hs : match nth_error (passes (dp one_failed_world)) 0 with
               | Some s =>
                   (signature s
                    =? uint64 (pl_shader_signature (compute_shader "bad")))
                   && match pass_ s with None => true | Some _ => false end
               | None => false
               end = true) by (vm_compute; reflexivity).
  rewrite En in Hs. apply andb_true_iff in Hs. destruct Hs as [Hs Hp].
  apply Z.eqb_eq in Hs.
  assert (Hp' : pass_ s = None) by (destruct (pass_ s); [discriminate|reflexivity]).
  destruct (proj2 (failed_pass_is_sticky one_failed_world
                     (compute_shader "bad") None None None false None None)
              (or_introl eq_refl) 0%nat s En Hs Hp')
    as (i & p & wd' & E & _ & Ht & Hi & Hn & _ & Hq).
  exists i, p, wd'. split; [exact E|]. split; [exact Ht|].
  split; [lia|]. split; [exact Hn|].
  destruct Hq as [Hq|Hq]; [exact Hq|lia].
Defined.

(** ** Placement of the variables *)

Lemma PL_ALIGN2_4 x : PL_ALIGN2 x 4 = 4 * ((x + 3) / 4).
Proof.
  unfold PL_ALIGN2. replace (x + 4 - 1) with (x + 3) by lia.
  change (4 - 1) with (Z.ones 2). rewrite <- Z.ldiff_land.
  rewrite Z.ldiff_ones_r by lia.
  rewrite Z.shiftl_mul_pow2, Z.shiftr_div_pow2 by lia.
  change (2 ^ 2) with 4. lia.
Qed.

Lemma PL_ALIGN2_4_aligned x : x mod 4 = 0 -> PL_ALIGN2 x 4 = x.
Proof.
  intros H. rewrite PL_ALIGN2_4.
  pose proof (Z.div_mod x 4 ltac:(lia)) as E. rewrite H in E.
  replace (x + 3) with (3 + (x / 4) * 4) by lia.
  rewrite Z.div_add by lia. change (3 / 4) with 0. lia.
Qed.

Definition std430_word_sized {lib : shader_lib} : Prop :=
  forall off v,
    (layout_offset (pl_std430_layout off v)
     + layout_size (pl_std430_layout off v)) mod 4 = 0.

(** The push-constant size of pass parameters under construction. *)
Definition pushc_ok (g : pl_gpu) (n : Z) : Prop :=
  n mod 4 = 0 /\ n <= max_pushc_size (limits g).

Definition placed (pv : pass_var) : Prop := pv_type pv <> PASS_VAR_NONE.

(** What holds of a record with a pass. *)
Definition record_ok (g : pl_gpu) (p : pass) : Prop :=
  forall q, pass_ p = Some q ->
    Forall placed (pass_vars p) /\
    push_constants_size (pass_params q) mod 4 = 0 /\
    push_constants_size (pass_params q) <= max_pushc_size (limits g).

Section PlacerFacts.
Context {lib : shader_lib}.
Hypothesis Hstd430 : std430_word_sized.

Lemma add_pass_var_spec g ubo_d params sv pv greedy ok ubo_d' params' pv' evs :
  add_pass_var g ubo_d params sv pv greedy = (ok, ubo_d', params', pv', evs) ->
  (pushc_ok g (push_constants_size params) ->
   pushc_ok g (push_constants_size params')) /\
  (placed pv -> placed pv') /\
  (greedy = true -> ok = true -> placed pv').
Proof.
  unfold add_pass_var, pass_var_placed, placed. intros H.
  destruct greedy; destruct (pv_type pv) eqn:Et;
    repeat (first [ discriminate H
                  | progress (cbv beta iota zeta in H)
                  | break_in H ]);
    inversion H; subst; clear H; simpl;
    (split; [|split]); intros; simpl in *; try congruence; auto;
    try discriminate.
  all: split; [apply Hstd430 | now apply Z.leb_le].
Qed.

Lemma place_vars_spec g greedy svs : forall pvs ubo_d params ok ubo_d' params' pvs' evs,
  place_vars g greedy svs pvs ubo_d params = (ok, ubo_d', params', pvs', evs) ->
  (pushc_ok g (push_constants_size params) ->
   pushc_ok g (push_constants_size params')) /\
  length pvs' = length pvs /\
  (greedy = true -> ok = true -> (length pvs <= length svs)%nat ->
   Forall placed pvs').
Proof.
  induction svs as [|sv svs IH]; intros pvs ubo_d params ok ubo_d' params' pvs' evs H.
  - simpl in H. injection H as <- <- <- <- <-.
    split; [auto|split; [reflexivity|]]. intros _ _ Hl.
    destruct pvs; [constructor | simpl in Hl; lia].
  - destruct pvs as [|pv pvs].
    + simpl in H. injection H as <- <- <- <- <-.
      split; [auto|split; [reflexivity|]]. intros; constructor.
    + simpl in H.
      destruct (add_pass_var g ubo_d params sv pv greedy)
        as [[[[ok1 u1] p1] pv1] e1] eqn:Ea.
      apply add_pass_var_spec in Ea. destruct Ea as (Ha1 & _ & Ha3).
      destruct ok1.
      * destruct (place_vars g greedy svs pvs u1 p1)
          as [[[[ok2 u2] p2] pvs2] e2] eqn:Ep.
        apply IH in Ep. destruct Ep as (Hp1 & Hp2 & Hp3).
        injection H as <- <- <- <- <-.
        split; [auto|split; [simpl; congruence|]].
        intros Hg Hok Hl. constructor; [auto|].
        apply Hp3; auto. simpl in Hl. lia.
      * injection H as <- <- <- <- <-.
        split; [auto|split; [reflexivity|]]. intros _ Hok. discriminate.
Qed.
End PlacerFacts.


Lemma Forall_array_set {A} (P : A -> Prop) l i x :
  Forall P l -> P x -> Forall P (array_set l i x).
Proof.
  intros Hl Hx. revert i. induction Hl as [|y l Hy Hl IH]; intros [|i]; simpl;
    constructor; auto.
Qed.

Lemma Forall_firstn {A} (P : A -> Prop) n l :
  Forall P l -> Forall P (firstn n l).
Proof.
  intros H. revert n. induction H; intros [|n]; simpl; constructor; auto.
Qed.

Lemma gc_Forall {libc : libc_qsort} (P : pass -> Prop) wd :
  Forall P (passes (dp wd)) ->
  Forall P (passes (dp (garbage_collect_passes wd))) /\
  gpu (dp (garbage_collect_passes wd)) = gpu (dp wd).
Proof.
  intros H. unfold garbage_collect_passes.
  assert (Hs : Forall P (qsort cmp_pass_age (passes (dp wd))))
    by (eapply Permutation_Forall; [apply qsort_perm | exact H]).
  repeat match goal with |- context [if ?x then _ else _] => destruct x end;
    simpl; (split; [|reflexivity]); auto using Forall_firstn.
Qed.

Section RecordFacts.
Context {fns : pl_gpu_fns} {lib : shader_lib} {libc : libc_qsort}.
Hypothesis Hstd430 : std430_word_sized.

Lemma build_pass_record_ok wd sh sig target vert_pos blend load vparams
      out_proj wd1 b :
  0 <= max_pushc_size (limits (gpu (dp wd))) ->
  build_pass wd sh sig target vert_pos blend load vparams out_proj
    = Some (wd1, b) ->
  passes (dp wd1) = passes (dp wd) /\ gpu (dp wd1) = gpu (dp wd) /\
  forall q, b_pass b = Some q ->
    Forall placed (b_vars b) /\
    push_constants_size (pass_params q) mod 4 = 0 /\
    push_constants_size (pass_params q) <= max_pushc_size (limits (gpu (dp wd))).
Proof.
  unfold build_pass, failed_build. intros Hmax H.
  destruct (find_cached sig (cached_passes (dp wd)) 0) as [[i c]|];
    solve_by_cases H; simpl;
    (split; [reflexivity|split; [reflexivity|]]);
    intros q Hq; try discriminate Hq; injection Hq as <-; simpl.
  all: repeat match goal with
              | E : place_vars _ _ _ _ _ _ = _ |- _ =>
                  apply (place_vars_spec Hstd430) in E;
                  destruct E as (? & ? & ?)
              end.
  all: simpl in *; try discriminate.
  all: rewrite ?repeat_length in *.
  all: assert (H0k : pushc_ok (gpu (dp wd)) 0)
    by (split; [reflexivity|assumption]).
  all: repeat match goal with
              | b : bool |- _ => destruct b; try discriminate
              end.
  all: repeat match goal with
              | H : pushc_ok ?g ?x -> _, a : pushc_ok ?g ?x |- _ =>
                  specialize (H a)
              end.
  all: match goal with
       | E : option_map _ ?c = Some _ |- _ =>
           destruct c; [|discriminate E]; simpl in E; injection E as <-
       end; simpl.
  all: match goal with
       | H : pushc_ok _ (push_constants_size ?p) |-
           _ /\ PL_ALIGN2 (push_constants_size ?p) 4 mod 4 = 0 /\ _ =>
           destruct H as [Hm Hle];
           rewrite (@PL_ALIGN2_4_aligned _ Hm)
       end.
  all: split; [|split; assumption].
  all: match goal with
       | H : true = true -> true = true -> _ -> Forall placed ?l
         |- Forall placed ?l => apply H; auto; lia
       end.
Qed.
End RecordFacts.

Section DispatchFacts.
Context {fns : pl_gpu_fns} {lib : shader_lib} {libc : libc_qsort}.
Hypothesis Hstd430 : std430_word_sized.

Lemma find_pass_record_ok wd sh target vert_pos blend load vparams out_proj
      wd' sh' i :
  0 <= max_pushc_size (limits (gpu (dp wd))) ->
  Forall (record_ok (gpu (dp wd))) (passes (dp wd)) ->
  find_pass wd sh target vert_pos blend load vparams out_proj
    = Some (wd', sh', i) ->
  gpu (dp wd') = gpu (dp wd) /\
  Forall (record_ok (gpu (dp wd))) (passes (dp wd')).
Proof.
  intros Hmax Hinv. unfold find_pass. intros H.
  destruct (scan_passes _ _ _ _ _ _ _ _); [| |discriminate].
  - destruct (nth_error _ _) as [p|] eqn:En; [|discriminate].
    injection H as <- <- <-. simpl. split; [reflexivity|].
    apply Forall_array_set; [exact Hinv|].
    apply nth_error_In in En.
    rewrite Forall_forall in Hinv. exact (Hinv p En).
  - destruct (build_pass _ _ _ _ _ _ _ _ _) as [[wd0 b]|] eqn:E;
      [|discriminate].
    apply (build_pass_record_ok Hstd430) in E; [|exact Hmax].
    destruct E as (Ep & Eg & Eb).
    injection H as <- <- <-. simpl.
    destruct (@gc_Forall _ (record_ok (gpu (dp wd))) wd0) as [G1 G2];
      [rewrite Ep; exact Hinv|].
    split; [congruence|].
    apply Forall_app. split; [exact G1|].
    constructor; [|constructor]. intros q Hq. simpl in *. auto.
Qed.

Lemma update_pass_var_type u rp sv pv pv' rp' evs :
  update_pass_var u rp sv pv = Some (pv', rp', evs) ->
  pv_type pv' = pv_type pv.
Proof.
  unfold update_pass_var. intros H.
  solve_by_cases H; reflexivity.
Qed.

Lemma update_pass_vars_spec u svs : forall rp pvs pvs' rp' evs,
  update_pass_vars u rp svs pvs = Some (pvs', rp', evs) ->
  (Forall placed pvs -> Forall placed pvs') /\
  (length svs <= length pvs')%nat.
Proof.
  induction svs as [|sv svs IH]; intros rp pvs pvs' rp' evs H.
  - simpl in H. injection H as <- <- <-. split; [auto|simpl; lia].
  - destruct pvs as [|pv pvs]; [discriminate|]. simpl in H.
    destruct (update_pass_var u rp sv pv) as [[[pv1 rp1] e1]|] eqn:E1;
      [|discriminate].
    destruct (update_pass_vars u rp1 svs pvs) as [[[pvs2 rp2] e2]|] eqn:E2;
      [|discriminate].
    injection H as <- <- <-.
    apply update_pass_var_type in E1. apply IH in E2.
    destruct E2 as [F L]. split; [|simpl; lia].
    intros Hp. inversion Hp; subst. constructor; [|auto].
    unfold placed in *. congruence.
Qed.

Lemma update_bindings_and_vars_spec p sh p' evs :
  update_bindings_and_vars p sh = Some (p', evs) ->
  pass_ p' = pass_ p /\
  (Forall placed (pass_vars p) -> Forall placed (pass_vars p')) /\
  (length (vars sh) <= length (pass_vars p'))%nat.
Proof.
  unfold update_bindings_and_vars. intros H.
  destruct (_ <? _)%nat; [discriminate|].
  destruct (update_pass_vars _ _ _ _) as [[[pvs rp] e]|] eqn:E;
    [|discriminate].
  injection H as <- <-. simpl.
  apply update_pass_vars_spec in E. destruct E. auto.
Qed.
End DispatchFacts.

(** The records of a dispatch object of the GPU [g] are in order. *)
Definition state_ok (g : pl_gpu) (wd : world) : Prop :=
  gpu (dp wd) = g /\ Forall (record_ok g) (passes (dp wd)).

(** What a dispatch that ran its pass leaves behind, where [sh] is the
    accumulator that was dispatched: the record the pass was run from is in
    the collection and has a pass; its table has an entry for every variable
    of the accumulator, each with a placement; the push-constant size of the
    pass is a multiple of four within the budget of the GPU. *)
Definition ran_ok (g : pl_gpu) (wd' : world) (sh : pl_shader) : Prop :=
  Forall (record_ok g) (passes (dp wd')) /\
  gpu (dp wd') = g /\
  exists idx p q tr,
    nth_error (passes (dp wd')) idx = Some p /\
    pass_ p = Some q /\
    trace wd' = tr ++ [EvPassRun (run_params p)] /\
    (length (vars sh) <= length (pass_vars p))%nat /\
    Forall placed (pass_vars p) /\
    push_constants_size (pass_params q) mod 4 = 0 /\
    push_constants_size (pass_params q) <= max_pushc_size (limits g).

Section RanFacts.
Context {fns : pl_gpu_fns} {lib : shader_lib} {libc : libc_qsort}.
Hypothesis Hstd430 : std430_word_sized.

Lemma ran_core wdX sh0 target vert_pos blend load vparams out_proj
      wd0 sh1 idx p q p' evs rp :
  0 <= max_pushc_size (limits (gpu (dp wdX))) ->
  Forall (record_ok (gpu (dp wdX))) (passes (dp wdX)) ->
  find_pass wdX sh0 target vert_pos blend load vparams out_proj
    = Some (wd0, sh1, idx) ->
  nth_error (passes (dp wd0)) idx = Some p ->
  pass_ p = Some q ->
  update_bindings_and_vars p sh1 = Some (p', evs) ->
  ran_ok (gpu (dp wdX))
         (emit (store_pass wd0 idx (with_run_params p' rp))
               (evs ++ [EvPassRun rp]))
         sh1.
Proof.
  intros Hmax Hinv Hf Hn Hq Hu.
  apply (find_pass_record_ok Hstd430) in Hf; [|assumption..].
  destruct Hf as [Hg Hall].
  apply update_bindings_and_vars_spec in Hu.
  destruct Hu as (Hpass & Hplaced & Hlen).
  assert (Hp : record_ok (gpu (dp wdX)) p).
  { rewrite Forall_forall in Hall. apply Hall.
    eapply nth_error_In; eassumption. }
  destruct (Hp q Hq) as (Hv & Hm & Hle).
  assert (Hp' : record_ok (gpu (dp wdX)) (with_run_params p' rp)).
  { intros q' Hq'. simpl in *. rewrite Hpass, Hq in Hq'.
    injection Hq' as <-. auto. }
  unfold ran_ok. simpl. split; [apply Forall_array_set; assumption|].
  split; [assumption|].
  exists idx, (with_run_params p' rp), q, (trace wd0 ++ evs).
  split.
  { apply nth_error_array_set. apply nth_error_Some. congruence. }
  simpl. split; [congruence|]. split; [now rewrite app_assoc|]. auto.
Qed.

Ltac ok_cases H :=
  body_cases H;
  first
    [ match goal with
      | E : find_pass ?wx _ _ _ _ _ _ _ = Some _,
        En : nth_error _ _ = Some _,
        Ep : pass_ _ = Some _,
        Eu : update_bindings_and_vars _ _ = Some _,
        Hmax : 0 <= max_pushc_size _,
        Hinv : Forall (record_ok _) _
        |- _ /\ (_ -> ran_ok _ (emit (store_pass _ _ (with_run_params _ ?rp))
                                    _) _) =>
          pose proof (@ran_core wx _ _ _ _ _ _ _ _ _ _ _ _ _ _ rp
                                Hmax Hinv E En Ep Eu) as R;
          split; [destruct R as (? & ? & _); split; assumption
                 | intros _; exact R]
      end
    | match goal with
      | E : find_pass ?wx _ _ _ _ _ _ _ = Some _,
        Hmax : 0 <= max_pushc_size _,
        Hinv : Forall (record_ok _) _ |- _ =>
          apply (find_pass_record_ok Hstd430) in E;
          [|exact Hmax|exact Hinv];
          destruct E; split; [split; assumption | discriminate]
      end
    | split; [split; [reflexivity | assumption] | discriminate] ].

Lemma dispatch_finish_body_ok wd sh params wd1 sh1 ret :
  0 <= max_pushc_size (limits (gpu (dp wd))) ->
  Forall (record_ok (gpu (dp wd))) (passes (dp wd)) ->
  dispatch_finish_body wd sh params = Some (wd1, sh1, ret) ->
  state_ok (gpu (dp wd)) wd1 /\ (ret = true -> ran_ok (gpu (dp wd)) wd1 sh1).
Proof.
  unfold dispatch_finish_body, dispatch_error, state_ok. intros Hmax Hinv H.
  ok_cases H.
Qed.

Lemma dispatch_compute_body_ok wd sh params wd1 sh1 ret :
  0 <= max_pushc_size (limits (gpu (dp wd))) ->
  Forall (record_ok (gpu (dp wd))) (passes (dp wd)) ->
  dispatch_compute_body wd sh params = Some (wd1, sh1, ret) ->
  state_ok (gpu (dp wd)) wd1 /\ (ret = true -> ran_ok (gpu (dp wd)) wd1 sh1).
Proof.
  unfold dispatch_compute_body, dispatch_error, state_ok. intros Hmax Hinv H.
  ok_cases H.
Qed.

Lemma dispatch_vertex_body_ok wd sh params wd1 sh1 ret :
  0 <= max_pushc_size (limits (gpu (dp wd))) ->
  Forall (record_ok (gpu (dp wd))) (passes (dp wd)) ->
  dispatch_vertex_body wd sh params = Some (wd1, sh1, ret) ->
  state_ok (gpu (dp wd)) wd1 /\ (ret = true -> ran_ok (gpu (dp wd)) wd1 sh1).
Proof.
  unfold dispatch_vertex_body, dispatch_error, state_ok. intros Hmax Hinv H.
  ok_cases H.
Qed.
End RanFacts.

Lemma land_mult4_mod4 y m : Z.land y (4 * m) mod 4 = 0.
Proof.
  change 4 with (2 ^ 2) at 2. rewrite <- Z.land_ones by lia.
  apply Z.bits_inj'. intros n Hn.
  rewrite !Z.land_spec, Z.bits_0.
  destruct (Z.ltb_spec n 2).
  - replace (4 * m) with (Z.shiftl m 2)
      by (rewrite Z.shiftl_mul_pow2 by lia; change (2 ^ 2) with 4; lia).
    rewrite Z.shiftl_spec_low by lia. now rewrite andb_false_r.
  - rewrite Z.ones_spec_high by lia. now rewrite andb_false_r.
Qed.

Lemma PL_ALIGN2_mult4 x k : PL_ALIGN2 x (4 * k) mod 4 = 0.
Proof.
  unfold PL_ALIGN2.
  replace (Z.lnot (4 * k - 1)) with (4 * (- k)) by (unfold Z.lnot; lia).
  apply land_mult4_mod4.
Qed.

Lemma ref_std430_word_sized : @std430_word_sized ref_shader_lib.
Proof.
  intros off v. unfold pl_std430_layout, ref_shader_lib, ref_std430_layout.
  unfold el_size. cbv zeta.
  set (dv := dim_v v). set (n := dim_m v * dim_a v).
  assert (Ha : forall k s, (PL_ALIGN2 off (4 * k) + 4 * s) mod 4 = 0).
  { intros k s. rewrite Z.add_mod, PL_ALIGN2_mult4 by lia.
    rewrite Z.mul_comm, Z.mod_mul by lia. reflexivity. }
  destruct (dv =? 3); destruct (1 <? n).
  - replace (4 * dv + 4) with (4 * (dv + 1)) by lia.
    replace (4 * (dv + 1) * dim_m v * dim_a v)
      with (4 * ((dv + 1) * dim_m v * dim_a v)) by lia. apply Ha.
  - replace (4 * dv + 4) with (4 * (dv + 1)) by lia.
    replace (4 * dv * dim_m v * dim_a v)
      with (4 * (dv * dim_m v * dim_a v)) by lia. apply Ha.
  - replace (4 * dv * dim_m v * dim_a v)
      with (4 * (dv * dim_m v * dim_a v)) by lia. apply Ha.
  - replace (4 * dv * dim_m v * dim_a v)
      with (4 * (dv * dim_m v * dim_a v)) by lia. apply Ha.
Qed.

Lemma ran_ok_return g wd1 sh1 a sh0 wd' psh r :
  nth_error (heap wd1) a = Some sh0 ->
  ran_ok g wd1 sh1 ->
  dispatch_return a (wd1, sh1, r) = (wd', psh, true) ->
  nth_error (heap wd') a = Some sh1 /\ ran_ok g wd' sh1.
Proof.
  intros Hh Hr. unfold dispatch_return, pl_dispatch_abort. intros H.
  injection H as <- _ _. simpl. split; [|exact Hr].
  apply nth_error_array_set. apply nth_error_Some. congruence.
Qed.


Lemma load_entries_state n : forall d cache pos d' pos' evs,
  load_entries n d cache pos = Some (d', pos', evs) ->
  gpu d' = gpu d /\ passes d' = passes d.
Proof.
  induction n as [|n IH]; intros d cache pos d' pos' evs H.
  - simpl in H. injection H as <- <- <-. split; reflexivity.
  - simpl in H.
    destruct (load_entry d cache pos) as [[[d1 pos1] e1]|] eqn:E1;
      [|discriminate].
    cbn [bind] in H.
    destruct (load_entries n d1 cache pos1) as [[[d2 pos2] e2]|] eqn:E2;
      [|discriminate].
    cbn [bind] in H. injection H as <- <- <-.
    apply IH in E2. destruct E2 as [G P].
    assert (gpu d1 = gpu d /\ passes d1 = passes d) as [G1 P1].
    { unfold load_entry in E1. solve_by_cases E1; split; reflexivity. }
    split; congruence.
Qed.

Lemma load_state wd cache wd' :
  pl_dispatch_load wd cache = Some wd' ->
  gpu (dp wd') = gpu (dp wd) /\ passes (dp wd') = passes (dp wd).
Proof.
  unfold pl_dispatch_load. intros H.
  destruct (LOAD 4 cache 0) as [r0|]; [|discriminate]. cbn [bind] in H.
  destruct (negb _); [injection H as <-; split; reflexivity|].
  destruct (LOAD 4 cache (snd r0)) as [r1|]; [|discriminate]. cbn [bind] in H.
  destruct (negb _); [injection H as <-; split; reflexivity|].
  destruct (LOAD 4 cache (snd r1)) as [r2|]; [|discriminate]. cbn [bind] in H.
  destruct (load_entries _ _ _ _) as [[[d p] e]|] eqn:E; [|discriminate].
  cbn [bind] in H. injection H as <-. simpl.
  apply load_entries_state in E. exact E.
Qed.

Lemma begin_ex_state wd u wd' a :
  pl_dispatch_begin_ex wd u = Some (wd', a) ->
  gpu (dp wd') = gpu (dp wd) /\ passes (dp wd') = passes (dp wd).
Proof.
  unfold pl_dispatch_begin_ex. intros H.
  destruct u; solve_by_cases H; split; reflexivity.
Qed.

(** The worlds that the operations of the interface lead to from a new
    dispatch object on the GPU [g]; between two operations the shader
    builders write into the accumulators. *)
Inductive reachable {fns : pl_gpu_fns} {lib : shader_lib}
          {libc : libc_qsort} (g : pl_gpu) : world -> Prop :=
| reach_create : reachable g (new_world g)
| reach_begin wd u wd' a :
    reachable g wd -> pl_dispatch_begin_ex wd u = Some (wd', a) ->
    reachable g wd'
| reach_reset_frame wd :
    reachable g wd -> reachable g (pl_dispatch_reset_frame wd)
| reach_abort wd psh :
    reachable g wd -> reachable g (fst (pl_dispatch_abort wd psh))
| reach_build wd a sh :
    reachable g wd ->
    reachable g {| dp := dp wd; heap := array_set (heap wd) a sh;
                   trace := trace wd |}
| reach_finish wd params wd' psh ret :
    reachable g wd -> pl_dispatch_finish wd params = Some (wd', psh, ret) ->
    reachable g wd'
| reach_compute wd params wd' psh ret :
    reachable g wd -> pl_dispatch_compute wd params = Some (wd', psh, ret) ->
    reachable g wd'
| reach_vertex wd params wd' psh ret :
    reachable g wd -> pl_dispatch_vertex wd params = Some (wd', psh, ret) ->
    reachable g wd'
| reach_load wd cache wd' :
    reachable g wd -> pl_dispatch_load wd cache = Some wd' ->
    reachable g wd'
| reach_save wd wd' out :
    reachable g wd -> pl_dispatch_save wd = Some (wd', out) ->
    reachable g wd'.

Section Reachable.
Context {fns : pl_gpu_fns} {lib : shader_lib} {libc : libc_qsort}.
Hypothesis Hstd430 : std430_word_sized.
Variable g : pl_gpu.
Hypothesis Hbudget : 0 <= max_pushc_size (limits g).

Lemma finish_ok wd params wd' psh ret :
  state_ok g wd ->
  pl_dispatch_finish wd params = Some (wd', psh, ret) ->
  state_ok g wd' /\
  (ret = true ->
   exists a sh, p_shader params = Some a /\
                nth_error (heap wd') a = Some sh /\ ran_ok g wd' sh).
Proof.
  intros [Hg Hinv] H. unfold pl_dispatch_finish in H.
  destruct (p_shader params) as [a|]; [|discriminate].
  destruct (nth_error (heap wd) a) as [sh|] eqn:Eh; [|discriminate].
  destruct (dispatch_finish_body wd sh params) as [[[wd1 sh1] r]|] eqn:E;
    [|discriminate].
  assert (H' : dispatch_return a (wd1, sh1, r) = (wd', psh, ret))
    by (cbn [option_map] in H; congruence).
  assert (r = ret) as ->
    by (unfold dispatch_return in H'; simpl in H'; congruence).
  pose proof (dispatch_finish_body_pool _ _ _ E) as [_ Hheap].
  apply (dispatch_finish_body_ok Hstd430) in E;
    [|rewrite Hg; assumption..].
  rewrite Hg in E. destruct E as [Es Er]. split.
  - apply (f_equal (fun x => fst (fst x))) in H'. simpl in H'.
    rewrite <- H'. exact Es.
  - intros ->. rewrite <- Hheap in Eh.
    destruct (ran_ok_return Eh (Er eq_refl) H') as [R1 R2].
    exists a, sh1. auto.
Qed.

Lemma compute_ok wd params wd' psh ret :
  state_ok g wd ->
  pl_dispatch_compute wd params = Some (wd', psh, ret) ->
  state_ok g wd' /\
  (ret = true ->
   exists a sh, cp_shader params = Some a /\
                nth_error (heap wd') a = Some sh /\ ran_ok g wd' sh).
Proof.
  intros [Hg Hinv] H. unfold pl_dispatch_compute in H.
  destruct (cp_shader params) as [a|]; [|discriminate].
  destruct (nth_error (heap wd) a) as [sh|] eqn:Eh; [|discriminate].
  destruct (dispatch_compute_body wd sh params) as [[[wd1 sh1] r]|] eqn:E;
    [|discriminate].
  assert (H' : dispatch_return a (wd1, sh1, r) = (wd', psh, ret))
    by (cbn [option_map] in H; congruence).
  assert (r = ret) as ->
    by (unfold dispatch_return in H'; simpl in H'; congruence).
  pose proof (dispatch_compute_body_pool _ _ _ E) as [_ Hheap].
  apply (dispatch_compute_body_ok Hstd430) in E;
    [|rewrite Hg; assumption..].
  rewrite Hg in E. destruct E as [Es Er]. split.
  - apply (f_equal (fun x => fst (fst x))) in H'. simpl in H'.
    rewrite <- H'. exact Es.
  - intros ->. rewrite <- Hheap in Eh.
    destruct (ran_ok_return Eh (Er eq_refl) H') as [R1 R2].
    exists a, sh1. auto.
Qed.

Lemma vertex_ok wd params wd' psh ret :
  state_ok g wd ->
  pl_dispatch_vertex wd params = Some (wd', psh, ret) ->
  state_ok g wd' /\
  (ret = true ->
   exists a sh, vp_shader params = Some a /\
                nth_error (heap wd') a = Some sh /\ ran_ok g wd' sh).
Proof.
  intros [Hg Hinv] H. unfold pl_dispatch_vertex in H.
  destruct (vp_shader params) as [a|]; [|discriminate].
  destruct (nth_error (heap wd) a) as [sh|] eqn:Eh; [|discriminate].
  destruct (dispatch_vertex_body wd sh params) as [[[wd1 sh1] r]|] eqn:E;
    [|discriminate].
  assert (H' : dispatch_return a (wd1, sh1, r) = (wd', psh, ret))
    by (cbn [option_map] in H; congruence).
  assert (r = ret) as ->
    by (unfold dispatch_return in H'; simpl in H'; congruence).
  pose proof (dispatch_vertex_body_pool _ _ _ E) as [_ Hheap].
  apply (dispatch_vertex_body_ok Hstd430) in E;
    [|rewrite Hg; assumption..].
  rewrite Hg in E. destruct E as [Es Er]. split.
  - apply (f_equal (fun x => fst (fst x))) in H'. simpl in H'.
    rewrite <- H'. exact Es.
  - intros ->. rewrite <- Hheap in Eh.
    destruct (ran_ok_return Eh (Er eq_refl) H') as [R1 R2].
    exists a, sh1. auto.
Qed.

(** Every reachable world has its records in order. *)
Lemma reachable_state_ok wd : reachable g wd -> state_ok g wd.
Proof.
  induction 1 as [|wd u wd' a _ IH H|wd _ IH|wd psh _ IH|wd a sh _ IH
                  |wd params wd' psh ret _ IH H
                  |wd params wd' psh ret _ IH H
                  |wd params wd' psh ret _ IH H
                  |wd cache wd' _ IH H|wd wd' out _ IH H].
  - split; [reflexivity|constructor].
  - apply begin_ex_state in H. destruct H as [G P], IH as [IG IP].
    split; [congruence|rewrite P; exact IP].
  - exact IH.
  - destruct psh; exact IH.
  - exact IH.
  - edestruct finish_ok as [Hs _]; [exact IH|exact H|exact Hs].
  - edestruct compute_ok as [Hs _]; [exact IH|exact H|exact Hs].
  - edestruct vertex_ok as [Hs _]; [exact IH|exact H|exact Hs].
  - apply load_state in H. destruct H as [G P], IH as [IG IP].
    split; [congruence|rewrite P; exact IP].
  - unfold pl_dispatch_save in H.
    destruct (save_bytes (dp wd)); [|discriminate].
    cbn [bind] in H. injection H as <- _. exact IH.
Qed.
End Reachable.

(** C6. In every world reached from a new dispatch object, when one of the
    three entry points returns success, the record its pass was run from has
    a placement other than none for every variable of the accumulator, and
    the push-constant size of the pass is a multiple of four and within the
    budget of the GPU. [pl_std430_layout] (gpu.c) is a parameter here: its
    regions end at multiples of four bytes, every GLSL scalar having four;
    the budget, a [size_t], is not negative. *)
Theorem successful_dispatch_places_all
        {fns : pl_gpu_fns} {lib : shader_lib} {libc : libc_qsort}
        (g : pl_gpu) (wd : world) :
  std430_word_sized ->
  0 <= max_pushc_size (limits g) ->
  reachable g wd ->
  (forall params wd' psh,
      pl_dispatch_finish wd params = Some (wd', psh, true) ->
      exists a sh, p_shader params = Some a /\
                   nth_error (heap wd') a = Some sh /\
                   ran_ok g wd' sh) /\
  (forall params wd' psh,
      pl_dispatch_compute wd params = Some (wd', psh, true) ->
      exists a sh, cp_shader params = Some a /\
                   nth_error (heap wd') a = Some sh /\
                   ran_ok g wd' sh) /\
  (forall params wd' psh,
      pl_dispatch_vertex wd params = Some (wd', psh, true) ->
      exists a sh, vp_shader params = Some a /\
                   nth_error (heap wd') a = Some sh /\
                   ran_ok g wd' sh).
Proof.
  intros Hstd Hmax Hreach.
  assert (Hok : state_ok g wd)
    by (eapply reachable_state_ok; eassumption).
  split; [|split]; intros params wd' psh H.
  - edestruct finish_ok as [_ Hr];
      [exact Hstd|exact Hmax|exact Hok|exact H|exact (Hr eq_refl)].
  - edestruct compute_ok as [_ Hr];
      [exact Hstd|exact Hmax|exact Hok|exact H|exact (Hr eq_refl)].
  - edestruct vertex_ok as [_ Hr];
      [exact Hstd|exact Hmax|exact Hok|exact H|exact (Hr eq_refl)].
Qed.

(** A compute shader with one [vec4] variable. *)
Definition tint_shader : pl_shader :=
  with_vars (compute_shader "tint")
    [{| var := {| var_name := "tint"; var_type := PL_VAR_FLOAT;
                  dim_v := 4; dim_m := 1; dim_a := 1 |};
        data := repeat Byte.x3f 16; dynamic := false |}].

(** A new dispatch object after [pl_dispatch_begin] and the builder of
    [tint_shader]. *)
Definition tint_world : world :=
  {| dp := pl_dispatch_create ref_gpu; heap := [tint_shader]; trace := [] |}.

Definition tint_params : pl_dispatch_compute_params :=
  {| cp_shader := Some 0%nat; dispatch_size := (1, 1, 1);
     cp_width := 0; cp_height := 0 |}.

Lemma successful_dispatch_places_all_witness :
  exists wd' a sh,
    pl_dispatch_compute tint_world tint_params = Some (wd', None, true) /\
    cp_shader tint_params = Some a /\
    nth_error (heap wd') a = Some sh /\
    ran_ok ref_gpu wd' sh.
Proof.
  assert (Hc : option_map (fun x => (snd (fst x), snd x))
                          (pl_dispatch_compute tint_world tint_params)
               = Some (None, true)) by (vm_compute; reflexivity).
  destruct (pl_dispatch_compute tint_world tint_params)
    as [[[wd' psh] r]|] eqn:E; [|discriminate].
  simpl in Hc. injection Hc as -> ->.
  assert (Hreach : reachable ref_gpu tint_world).
  { set (W := {| dp := pl_dispatch_create ref_gpu;
                 heap := [pl_shader_alloc {| sh_id := 0; sh_index := 0 |}];
                 trace := [] |}).
    change (reachable ref_gpu
              {| dp := dp W; heap := array_set (heap W) 0 tint_shader;
                 trace := trace W |}).
    apply reach_build.
    apply (@reach_begin _ _ _ ref_gpu (new_world ref_gpu) false W 0%nat);
      [apply reach_create | reflexivity]. }
  assert (Hb : 0 <= max_pushc_size (limits ref_gpu))
    by (vm_compute; discriminate).
  destruct (@successful_dispatch_places_all _ _ _ ref_gpu tint_world
              ref_std430_word_sized Hb Hreach) as (_ & Hcmp & _).
  destruct (Hcmp _ _ _ E) as (a & sh & Ha & Hh & Hr).
  exists wd', a, sh. auto.
Defined.

(** ** Saving, loading and saving again *)

(** A renderable 16x16 texture of the given format. *)
Definition target_of_format (k : Z) : pl_tex :=
  {| tex_id := k;
     tex_params := {| tex_w := 16; tex_h := 16; tex_d := 0;
                      format := {| fmt_id := k; texel_size := 4 |};
                      renderable := true; storable := false |} |}.

(** One dispatch of a fragment shader onto a target. *)
Definition dispatch_fragment (wd : world) (text : string) (target : pl_tex)
  : option world :=
  r <- pl_dispatch_begin wd ;;
  let '(wd, a) := r in
  r <- pl_dispatch_finish
         {| dp := dp wd; heap := array_set (heap wd) a (fragment_shader text);
            trace := trace wd |}
         {| p_shader := Some a; p_target := Some target;
            p_rect := (0, 0, 0, 0); p_blend_params := None |} ;;
  Some (fst (fst r)).

(** The same shader rendered to targets of two formats: two live records
    with one signature. *)
Definition two_format_world : world :=
  match (wd <- dispatch_fragment (new_world ref_gpu) "x" (target_of_format 1) ;;
         dispatch_fragment wd "x" (target_of_format 2)) with
  | Some wd => wd
  | None => new_world ref_gpu
  end.

(** The entries [pl_dispatch_save] writes, in the order it writes them. *)
Definition entry_of_pass (p : pass) : Z * list byte :=
  (signature p,
   match pass_ p with
   | Some q => cached_program (pass_params q)
   | None => []
   end).

Definition entry_of_cached (c : cached_pass) : Z * list byte :=
  (cp_signature c, cached_program_ c).

Definition saved_entries (d : pl_dispatch) : list (Z * list byte) :=
  map entry_of_pass (filter has_program (passes d))
  ++ map entry_of_cached (cached_passes d).

Definition encode_entry (e : Z * list byte) : list byte :=
  le_split 8 (uint64 (fst e))
  ++ le_split 8 (uint64 (Z.of_nat (length (snd e)))) ++ snd e.

(** What loading an entry into an empty slot stores. *)
Definition cached_of_entry (e : Z * list byte) : cached_pass :=
  {| cp_signature := uint64 (fst e); cached_program_ := snd e |}.

(** C9 as stated fails: two live records can share a signature, the cache
    is keyed by the signature alone, and loading the two entries leaves one. *)
Lemma save_load_save_differs :
  map signature (passes (dp two_format_world)) = [337; 337] /\
  exists blob wd' blob',
    save_bytes (dp two_format_world) = Some blob /\
    pl_dispatch_load (new_world ref_gpu) blob = Some wd' /\
    save_bytes (dp wd') = Some blob' /\
    blob' <> blob.
Proof.
  split; [vm_compute; reflexivity|].
  eexists _, _, _. split; [vm_compute; reflexivity|].
  split; [vm_compute; reflexivity|].
  split; [vm_compute; reflexivity|].
  intros E. apply (f_equal (@length byte)) in E. vm_compute in E. discriminate.
Qed.

Lemma write_buf_nonempty out src :
  src <> [] -> write_buf out src = Some (out ++ src).
Proof. destruct src; [contradiction|reflexivity]. Qed.

Lemma WRITE64_spec out v : WRITE64 out v = Some (out ++ le_split 8 (uint64 v)).
Proof. reflexivity. Qed.

Lemma WRITE32_spec out v : WRITE32 out v = Some (out ++ le_split 4 (uint32 v)).
Proof. reflexivity. Qed.

Lemma save_passes_spec l : forall out,
  save_passes out l
  = Some (out ++ flat_map encode_entry (map entry_of_pass (filter has_program l))).
Proof.
  induction l as [|p l IH]; intros out.
  - simpl. now rewrite app_nil_r.
  - cbn [save_passes filter].
    destruct (pass_ p) as [q|] eqn:Eq.
    + destruct (Nat.eqb (length (cached_program (pass_params q))) 0) eqn:El.
      * assert (Hp : has_program p = false)
          by (unfold has_program; rewrite Eq, El; reflexivity).
        rewrite Hp. apply IH.
      * assert (Hp : has_program p = true)
          by (unfold has_program; rewrite Eq, El; reflexivity).
        rewrite Hp. cbn [map flat_map].
        rewrite WRITE64_spec. cbn [bind].
        rewrite WRITE64_spec. cbn [bind].
        rewrite write_buf_nonempty
          by (intros E; rewrite E in El; discriminate).
        cbn [bind]. rewrite IH. f_equal.
        unfold encode_entry, entry_of_pass. cbn [fst snd]. rewrite Eq.
        now rewrite <- !app_assoc.
    + assert (Hp : has_program p = false)
        by (unfold has_program; rewrite Eq; reflexivity).
      rewrite Hp. apply IH.
Qed.

Lemma save_cached_passes_spec l : forall out,
  Forall (fun c => cached_program_ c <> []) l ->
  save_cached_passes out l
  = Some (out ++ flat_map encode_entry (map entry_of_cached l)).
Proof.
  induction l as [|c l IH]; intros out Hne.
  - simpl. now rewrite app_nil_r.
  - inversion Hne as [|? ? Hc Hl]; subst.
    cbn [save_cached_passes map flat_map].
    rewrite WRITE64_spec. cbn [bind].
    rewrite WRITE64_spec. cbn [bind].
    rewrite write_buf_nonempty by exact Hc.
    cbn [bind]. rewrite IH by exact Hl. f_equal.
    unfold encode_entry, entry_of_cached. cbn [fst snd].
    now rewrite <- !app_assoc.
Qed.

Definition cache_header (n : Z) : list byte :=
  cache_magic ++ le_split 4 (uint32 cache_version) ++ le_split 4 (uint32 n).

Lemma save_bytes_spec d :
  Forall (fun c => cached_program_ c <> []) (cached_passes d) ->
  save_bytes d
  = Some (cache_header (Z.of_nat (length (passes d))
                        + Z.of_nat (length (cached_passes d)))
          ++ flat_map encode_entry (saved_entries d)).
Proof.
  intros Hne. unfold save_bytes.
  rewrite write_buf_nonempty by discriminate. cbn [bind].
  rewrite WRITE32_spec. cbn [bind].
  rewrite WRITE32_spec. cbn [bind].
  rewrite save_passes_spec. cbn [bind].
  rewrite save_cached_passes_spec by exact Hne.
  unfold saved_entries, cache_header.
  rewrite flat_map_app. rewrite app_nil_l.
  now rewrite <- !app_assoc.
Qed.

Lemma LOAD_app n pre x post :
  length x = n ->
  LOAD n (pre ++ x ++ post) (length pre) = Some (x, (length pre + n)%nat).
Proof.
  intros Hx. unfold LOAD.
  destruct (Nat.leb_spec (length pre + n) (length (pre ++ x ++ post)))
    as [_|Hlt]; [|rewrite !length_app in Hlt; lia].
  rewrite skipn_app, skipn_all, Nat.sub_diag. simpl.
  rewrite firstn_app, <- Hx, firstn_all, Nat.sub_diag. simpl.
  now rewrite app_nil_r.
Qed.

Lemma LOAD_head n x post :
  length x = n -> LOAD n (x ++ post) 0 = Some (x, n).
Proof. intros H. exact (@LOAD_app n [] x post H). Qed.

Lemma skip_compiled_none sig sz l pos :
  Forall (fun p => signature p <> sig) l ->
  skip_compiled sig sz l pos = (pos, []).
Proof.
  induction 1 as [|p l Hp Hl IH]; simpl; [reflexivity|].
  apply Z.eqb_neq in Hp. now rewrite Hp.
Qed.

Lemma find_cached_none sig l i :
  Forall (fun c => cp_signature c <> sig) l -> find_cached sig l i = None.
Proof.
  intros H. revert i. induction H as [|c l Hc Hl IH]; intros i; simpl;
    [reflexivity|].
  apply Z.eqb_neq in Hc. rewrite Hc. apply IH.
Qed.

Lemma array_set_last {A} (l : list A) x y :
  array_set (l ++ [x]) (length l) y = l ++ [y].
Proof. induction l as [|z l IH]; simpl; [reflexivity|now rewrite IH]. Qed.

Lemma le_combine_uint64 z : le_combine (le_split 8 (uint64 z)) = uint64 z.
Proof.
  rewrite le_combine_split. unfold uint64.
  change (Z.of_nat 8 * 8) with 64. apply Z.mod_mod. lia.
Qed.

Lemma le_combine_uint32 z : le_combine (le_split 4 (uint32 z)) = uint32 z.
Proof.
  rewrite le_combine_split. unfold uint32.
  change (Z.of_nat 4 * 8) with 32. apply Z.mod_mod. lia.
Qed.

(** Loading one entry whose signature is neither live nor cached. *)
Lemma load_entry_fresh d pre e post :
  snd e <> [] ->
  Z.of_nat (length (snd e)) < 2 ^ 64 ->
  Forall (fun p => signature p <> uint64 (fst e)) (passes d) ->
  Forall (fun c => cp_signature c <> uint64 (fst e)) (cached_passes d) ->
  load_entry d (pre ++ encode_entry e ++ post) (length pre)
  = Some (set_cached_passes d (cached_passes d ++ [cached_of_entry e]),
          (length pre + length (encode_entry e))%nat,
          [PL_DEBUG "Loading bytes of cached program"]).
Proof.
  intros Hne Hlen Hlive Hcached. unfold load_entry, encode_entry.
  set (s8 := le_split 8 (uint64 (fst e))).
  set (l8 := le_split 8 (uint64 (Z.of_nat (length (snd e))))).
  rewrite <- !app_assoc.
  rewrite (LOAD_app pre s8 (l8 ++ snd e ++ post))
    by apply length_le_split.
  cbn [bind fst snd].
  replace (length pre + 8)%nat with (length (pre ++ s8))
    by (rewrite length_app; unfold s8; now rewrite length_le_split).
  replace (pre ++ s8 ++ l8 ++ snd e ++ post)
    with ((pre ++ s8) ++ l8 ++ snd e ++ post) by now rewrite <- app_assoc.
  rewrite (LOAD_app (pre ++ s8) l8 (snd e ++ post))
    by apply length_le_split.
  cbn [bind fst snd].
  assert (Hs8 : le_combine s8 = uint64 (fst e)) by apply le_combine_uint64.
  assert (Hl8 : le_combine l8 = Z.of_nat (length (snd e))).
  { unfold l8. rewrite le_combine_uint64. unfold uint64.
    apply Z.mod_small. lia. }
  rewrite !Hs8, !Hl8.
  destruct (Z.of_nat (length (snd e)) =? 0) eqn:Ez.
  { apply Z.eqb_eq in Ez. destruct (snd e); [contradiction|simpl in Ez; lia]. }
  rewrite skip_compiled_none by exact Hlive.
  rewrite find_cached_none by exact Hcached.
  rewrite Nat2Z.id.
  replace (length (pre ++ s8) + 8)%nat with (length ((pre ++ s8) ++ l8))
    by (rewrite !length_app; unfold l8; now rewrite length_le_split).
  replace ((pre ++ s8) ++ l8 ++ snd e ++ post)
    with (((pre ++ s8) ++ l8) ++ snd e ++ post) by now rewrite <- !app_assoc.
  rewrite (LOAD_app ((pre ++ s8) ++ l8) (snd e) post) by reflexivity.
  cbn [bind fst snd]. rewrite array_set_last.
  f_equal. f_equal. f_equal.
  rewrite !length_app. unfold s8, l8. rewrite !length_le_split. lia.
Qed.

(** Loading a run of entries with pairwise different signatures, none of
    them live or cached. *)
Lemma load_entries_fresh es : forall d pre post,
  Forall (fun e => snd e <> [] /\ Z.of_nat (length (snd e)) < 2 ^ 64) es ->
  NoDup (map (fun e => uint64 (fst e)) es) ->
  Forall (fun p => ~ In (signature p) (map (fun e => uint64 (fst e)) es))
         (passes d) ->
  Forall (fun c => ~ In (cp_signature c) (map (fun e => uint64 (fst e)) es))
         (cached_passes d) ->
  exists evs,
    load_entries (length es) d (pre ++ flat_map encode_entry es ++ post)
                 (length pre)
    = Some (set_cached_passes d (cached_passes d ++ map cached_of_entry es),
            (length pre + length (flat_map encode_entry es))%nat, evs).
Proof.
  induction es as [|e es IH]; intros d pre post Hes Hnd Hlive Hcached.
  - exists []. simpl. rewrite app_nil_r, Nat.add_0_r.
    destruct d; reflexivity.
  - inversion Hes as [|? ? [He1 He2] Hes']; subst.
    inversion Hnd as [|? ? Hnotin Hnd']; subst.
    cbn [length load_entries flat_map map].
    rewrite <- app_assoc.
    rewrite load_entry_fresh; [|assumption|assumption| |].
    2:{ eapply Forall_impl; [|exact Hlive]. intros p Hp E. apply Hp.
        left. now rewrite E. }
    2:{ eapply Forall_impl; [|exact Hcached]. intros c Hc E. apply Hc.
        left. now rewrite E. }
    cbn [bind].
    replace (length pre + length (encode_entry e))%nat
      with (length (pre ++ encode_entry e)) by now rewrite length_app.
    replace (pre ++ encode_entry e ++ flat_map encode_entry es ++ post)
      with ((pre ++ encode_entry e) ++ flat_map encode_entry es ++ post)
      by now rewrite <- app_assoc.
    destruct (IH (set_cached_passes d (cached_passes d ++ [cached_of_entry e]))
                 (pre ++ encode_entry e) post Hes' Hnd') as [evs Hl].
    + simpl. eapply Forall_impl; [|exact Hlive]. intros p Hp Hin.
      apply Hp. right. exact Hin.
    + simpl. apply Forall_app. split.
      * eapply Forall_impl; [|exact Hcached]. intros c Hc Hin.
        apply Hc. right. exact Hin.
      * constructor; [|constructor]. simpl. exact Hnotin.
    + rewrite Hl. cbn [bind]. eexists. f_equal. f_equal. f_equal.
      * simpl. rewrite <- app_assoc. reflexivity.
      * rewrite !length_app. lia.
Qed.

Lemma filter_all {A} (f : A -> bool) l :
  Forall (fun x => f x = true) l -> filter f l = l.
Proof.
  induction 1 as [|x l Hx Hl IH]; simpl; [reflexivity|].
  now rewrite Hx, IH.
Qed.

Lemma has_program_nonempty p :
  has_program p = true -> snd (entry_of_pass p) <> [].
Proof.
  unfold has_program, entry_of_pass. simpl.
  destruct (pass_ p) as [q|]; [|discriminate].
  destruct (cached_program (pass_params q)); [discriminate|].
  intros _. discriminate.
Qed.

Lemma encode_reloaded es :
  flat_map encode_entry (map entry_of_cached (map cached_of_entry es))
  = flat_map encode_entry es.
Proof.
  induction es as [|e es IH]; [reflexivity|].
  cbn [map flat_map]. rewrite IH. f_equal.
  unfold encode_entry, entry_of_cached, cached_of_entry.
  cbn [fst snd cp_signature cached_program_].
  replace (uint64 (uint64 (fst e))) with (uint64 (fst e))
    by (unfold uint64; now rewrite Z.mod_mod by lia).
  reflexivity.
Qed.

(** C9, as the code has it. When every live record has a program to save,
    no saved signature occurs twice, and sizes and count fit their fields,
    then the cache that was saved loads into a new dispatch object, which
    then holds one not-yet-compiled program per entry, and saving that
    object gives the same bytes. *)
Theorem save_load_save (d : pl_dispatch) :
  Forall (fun p => has_program p = true) (passes d) ->
  Forall (fun c => cached_program_ c <> []) (cached_passes d) ->
  NoDup (map (fun e => uint64 (fst e)) (saved_entries d)) ->
  Forall (fun e => Z.of_nat (length (snd e)) < 2 ^ 64) (saved_entries d) ->
  Z.of_nat (length (saved_entries d)) < 2 ^ 32 ->
  exists blob wd',
    save_bytes d = Some blob /\
    pl_dispatch_load (new_world (gpu d)) blob = Some wd' /\
    passes (dp wd') = [] /\
    cached_passes (dp wd') = map cached_of_entry (saved_entries d) /\
    save_bytes (dp wd') = Some blob.
Proof.
  intros Hprog Hne Hnd Hsz Hcount.
  set (es := saved_entries d) in *.
  assert (Hn : Z.of_nat (length (passes d)) + Z.of_nat (length (cached_passes d))
               = Z.of_nat (length es)).
  { unfold es, saved_entries.
    rewrite (filter_all _ Hprog), length_app, !length_map. lia. }
  assert (Hes : Forall (fun e => snd e <> []
                                 /\ Z.of_nat (length (snd e)) < 2 ^ 64) es).
  { apply Forall_forall. intros e He. split.
    - unfold es, saved_entries in He. apply in_app_or in He.
      destruct He as [He|He]; apply in_map_iff in He;
        destruct He as (x & <- & Hx).
      + apply has_program_nonempty.
        apply filter_In in Hx. apply Hx.
      + rewrite Forall_forall in Hne. apply Hne, Hx.
    - rewrite Forall_forall in Hsz. apply Hsz, He. }
  exists (cache_header (Z.of_nat (length es)) ++ flat_map encode_entry es).
  destruct (@load_entries_fresh es (dp (new_world (gpu d)))
              (cache_header (Z.of_nat (length es))) [] Hes Hnd)
    as [evs Hl]; [constructor|constructor|].
  rewrite app_nil_r in Hl.
  eexists. split; [rewrite save_bytes_spec by exact Hne; now rewrite Hn|].
  assert (Hload :
    pl_dispatch_load (new_world (gpu d))
      (cache_header (Z.of_nat (length es)) ++ flat_map encode_entry es)
    = Some (emit (set_dp (new_world (gpu d))
                    (set_cached_passes (dp (new_world (gpu d)))
                       (map cached_of_entry es))) evs)).
  { unfold pl_dispatch_load, cache_header.
    rewrite <- !app_assoc.
    rewrite LOAD_head by reflexivity.
    cbn [bind fst snd].
    replace (bytes_eqb cache_magic cache_magic) with true by reflexivity.
    cbn [negb].
    change 4%nat with (length cache_magic) at 1.
    rewrite (@LOAD_app 4 cache_magic (le_split 4 (uint32 cache_version)))
      by apply length_le_split.
    cbn [bind fst snd].
    rewrite le_combine_uint32.
    replace (uint32 cache_version =? cache_version) with true by reflexivity.
    cbn [negb].
    replace (length cache_magic + 4)%nat
      with (length (cache_magic ++ le_split 4 (uint32 cache_version)))
      by reflexivity.
    replace (cache_magic ++ le_split 4 (uint32 cache_version)
             ++ le_split 4 (uint32 (Z.of_nat (length es)))
             ++ flat_map encode_entry es)
      with ((cache_magic ++ le_split 4 (uint32 cache_version))
            ++ le_split 4 (uint32 (Z.of_nat (length es)))
            ++ flat_map encode_entry es)
      by now rewrite <- app_assoc.
    rewrite LOAD_app by apply length_le_split.
    cbn [bind fst snd].
    rewrite le_combine_uint32.
    replace (Z.to_nat (uint32 (Z.of_nat (length es)))) with (length es)
      by (unfold uint32; rewrite Z.mod_small by lia; now rewrite Nat2Z.id).
    unfold cache_header in Hl. rewrite <- !app_assoc in Hl.
    replace (length (cache_magic ++ le_split 4 (uint32 cache_version)) + 4)%nat
      with (length (cache_magic ++ le_split 4 (uint32 cache_version)
                    ++ le_split 4 (uint32 (Z.of_nat (length es)))))
      by (rewrite !length_app, !length_le_split; reflexivity).
    rewrite <- !app_assoc.
    rewrite Hl. reflexivity. }
  split; [exact Hload|]. simpl.
  split; [reflexivity|]. split; [reflexivity|].
  rewrite save_bytes_spec.
  - simpl. unfold saved_entries. simpl.
    rewrite encode_reloaded, length_map. reflexivity.
  - simpl. apply Forall_forall. intros c Hc.
    apply in_map_iff in Hc. destruct Hc as (e & <- & He).
    rewrite Forall_forall in Hes. apply (Hes e He).
Qed.

Lemma save_load_save_witness :
  exists blob wd',
    save_bytes (dp one_live_world) = Some blob /\
    pl_dispatch_load (new_world (gpu (dp one_live_world))) blob = Some wd' /\
    passes (dp wd') = [] /\
    cached_passes (dp wd')
      = map cached_of_entry (saved_entries (dp one_live_world)) /\
    save_bytes (dp wd') = Some blob.
Proof.
  apply save_load_save.
  - vm_compute. repeat constructor.
  - vm_compute. constructor.
  - vm_compute. repeat constructor. intros [].
  - apply Forall_forall. intros e He. vm_compute in He.
    destruct He as [<-|[]]. vm_compute. reflexivity.
  - vm_compute. reflexivity.
Defined.

(** * Further properties of the dispatch code *)

(** ** The key of the pass collection *)

Lemma blend_mode_eqb_eq a b : blend_mode_eqb a b = true <-> a = b.
Proof. destruct a, b; simpl; split; congruence. Qed.

Lemma prim_type_eqb_eq a b : prim_type_eqb a b = true <-> a = b.
Proof. destruct a, b; simpl; split; congruence. Qed.

Lemma blend_equal_true a b : blend_equal a b = true -> a = b.
Proof.
  destruct a as [[a1 a2 a3 a4]|], b as [[b1 b2 b3 b4]|]; simpl;
    try congruence.
  rewrite !andb_true_iff, !blend_mode_eqb_eq.
  intros [[[-> ->] ->] ->]. reflexivity.
Qed.

(** A record that the scan stops at has the signature looked for. *)
Lemma scan_passes_hit sig compute target blend load vparams l : forall i0 i,
  scan_passes sig compute target blend load vparams l i0 = ScanHit i ->
  exists k p, i = (i0 + k)%nat /\ nth_error l k = Some p /\ signature p = sig.
Proof.
  induction l as [|p l IH]; intros i0 i H; simpl in H; [discriminate|].
  destruct (signature p =? sig) eqn:Es; simpl in H.
  - apply Z.eqb_eq in Es.
    assert (Hhere : exists k q, i0 = (i0 + k)%nat /\ nth_error (p :: l) k = Some q
                                /\ signature q = sig)
      by (exists 0%nat, p; repeat split; [lia|assumption]).
    destruct (pass_ p) as [q|]; [|injection H as <-; exact Hhere].
    destruct compute; [injection H as <-; exact Hhere|].
    destruct target as [t|]; [|discriminate].
    match type of H with
    | (if ?c then _ else _) = _ => destruct c
    end; [injection H as <-; exact Hhere|].
    apply IH in H. destruct H as (k & r & -> & Hn & Hr).
    exists (S k), r. repeat split; [lia|assumption|assumption].
  - apply IH in H. destruct H as (k & r & -> & Hn & Hr).
    exists (S k), r. repeat split; [lia|assumption|assumption].
Qed.


Lemma array_set_same {A} (l : list A) i x :
  nth_error l i = Some x -> array_set l i x = l.
Proof.
  revert i. induction l as [|y l IH]; intros [|i] H; simpl in *;
    try discriminate.
  - congruence.
  - f_equal. auto.
Qed.

(** ** What the construction of a pass touches *)

Definition is_log (e : event) : Prop :=
  match e with EvLog _ _ => True | _ => False end.

(** The events of the construction of the record [b] for the signature
    [sig]: logs, the creation of the uniform buffer, and the creation of the
    pass from the parameters of the record. *)
Definition build_event (sig : Z) (b : building) (e : event) : Prop :=
  match e with
  | EvLog _ _ | EvBufCreate _ _ => True
  | EvPassCreate s params q =>
      s = sig /\ params = b_params b /\ q = b_pass b
  | _ => False
  end.

Lemma is_log_build_event sig b evs :
  Forall is_log evs -> Forall (build_event sig b) evs.
Proof.
  apply Forall_impl. intros [] H; simpl in *; auto; contradiction.
Qed.

Section PlacerEvents.
Context {lib : shader_lib}.

Lemma add_pass_var_events g ubo_d params sv pv greedy ok ubo_d' params' pv' evs :
  add_pass_var g ubo_d params sv pv greedy = (ok, ubo_d', params', pv', evs) ->
  Forall is_log evs /\
  cached_program params' = cached_program params /\
  target_dummy params' = target_dummy params /\
  blend_params params' = blend_params params /\
  load_target params' = load_target params /\
  vertex_type params' = vertex_type params /\
  vertex_stride params' = vertex_stride params /\
  vertex_attribs params' = vertex_attribs params /\
  pass_type params' = pass_type params.
Proof.
  unfold add_pass_var. intros H.
  repeat (first [ discriminate H
                | progress (cbv beta iota zeta in H)
                | break_in H ]);
    inversion H; subst; clear H; simpl; repeat split;
    repeat constructor.
Qed.

Lemma place_vars_events g greedy svs :
  forall pvs ubo_d params ok ubo_d' params' pvs' evs,
  place_vars g greedy svs pvs ubo_d params = (ok, ubo_d', params', pvs', evs) ->
  Forall is_log evs /\
  cached_program params' = cached_program params /\
  target_dummy params' = target_dummy params /\
  blend_params params' = blend_params params /\
  load_target params' = load_target params /\
  vertex_type params' = vertex_type params /\
  vertex_stride params' = vertex_stride params /\
  vertex_attribs params' = vertex_attribs params /\
  pass_type params' = pass_type params.
Proof.
  induction svs as [|sv svs IH];
    intros pvs ubo_d params ok ubo_d' params' pvs' evs H.
  - simpl in H. injection H as <- <- <- <- <-. repeat split. constructor.
  - destruct pvs as [|pv pvs].
    + simpl in H. injection H as <- <- <- <- <-. repeat split. constructor.
    + simpl in H.
      destruct (add_pass_var g ubo_d params sv pv greedy)
        as [[[[ok1 u1] p1] pv1] e1] eqn:Ea.
      apply add_pass_var_events in Ea.
      destruct Ea as (A0 & A1 & A2 & A3 & A4 & A5 & A6 & A7 & A8).
      destruct ok1.
      * destruct (place_vars g greedy svs pvs u1 p1)
          as [[[[ok2 u2] p2] pvs2] e2] eqn:Ep.
        apply IH in Ep.
        destruct Ep as (B0 & B1 & B2 & B3 & B4 & B5 & B6 & B7 & B8).
        injection H as <- <- <- <- <-.
        split; [apply Forall_app; split; assumption|].
        repeat split; congruence.
      * injection H as <- <- <- <- <-.
        split; [assumption|]. repeat split; assumption.
Qed.
End PlacerEvents.

Section BuildFacts.
Context {fns : pl_gpu_fns} {lib : shader_lib} {libc : libc_qsort}.

(** The construction leaves the collection of records and the counters
    alone; what it adds to the trace are its own events; the program it
    hands to the backend is the one of the first loaded entry with the
    signature, which leaves the list of loaded entries. *)
Lemma build_pass_frame wd sh sig target vert_pos blend load vparams
      out_proj wd1 b :
  build_pass wd sh sig target vert_pos blend load vparams out_proj
    = Some (wd1, b) ->
  (passes (dp wd1) = passes (dp wd) /\
   current_index (dp wd1) = current_index (dp wd) /\
   current_ident (dp wd1) = current_ident (dp wd) /\
   max_passes (dp wd1) = max_passes (dp wd) /\
   gpu (dp wd1) = gpu (dp wd)) /\
  (exists evs, trace wd1 = trace wd ++ evs /\
               Forall (build_event sig b) evs /\
               forall q, b_pass b = Some q ->
                 In (EvPassCreate sig (b_params b) (Some q)) evs) /\
  match find_cached sig (cached_passes (dp wd)) 0 with
  | Some (i, c) =>
      cached_passes (dp wd1) = PL_ARRAY_REMOVE_AT (cached_passes (dp wd)) i /\
      cached_program (b_params b) = cached_program_ c
  | None =>
      cached_passes (dp wd1) = cached_passes (dp wd) /\
      cached_program (b_params b) = []
  end.
Proof.
  unfold build_pass, failed_build. intros H.
  destruct (find_cached sig (cached_passes (dp wd)) 0) as [[i c]|];
    solve_by_cases H; simpl.
  all: repeat match goal with
              | E : place_vars _ _ _ _ _ _ = _ |- _ =>
                  apply place_vars_events in E;
                  destruct E as (? & ? & _)
              end.
  all: simpl in *.
  all: split; [repeat split|].
  all: split; [|split; [reflexivity|congruence]].
  all: rewrite <- ?app_assoc.
  all: eexists; split; [reflexivity|].
  all: split;
    [ rewrite ?Forall_app; repeat split;
      auto using is_log_build_event; repeat constructor
    | intros q Hq; try discriminate Hq ].
  all: rewrite ?in_app_iff; simpl; rewrite Hq; auto 7.
Qed.
End BuildFacts.

(** ** The scan of the collection, record by record *)

Section ScanFacts.
Variables (sig : Z) (compute : bool) (target : option pl_tex)
          (blend : option pl_blend_params) (load : bool)
          (vparams : option pl_dispatch_vertex_params).

Let scan := scan_passes sig compute target blend load vparams.

(** One round of the loop: what the record alone decides. *)
Lemma scan_passes_cons p l i :
  scan (p :: l) i
  = match scan [p] i with
    | ScanMiss => scan l (S i)
    | r => r
    end.
Proof.
  unfold scan. cbn [scan_passes].
  destruct (negb (signature p =? sig)); [reflexivity|].
  destruct (pass_ p); [|reflexivity].
  destruct compute; [reflexivity|].
  destruct target; [|reflexivity].
  cbv zeta.
  match goal with |- (if ?c then _ else _) = _ => destruct c end; reflexivity.
Qed.

Lemma scan_passes_one_index p i j :
  scan [p] i = match scan [p] j with
               | ScanHit _ => ScanHit i
               | r => r
               end.
Proof.
  unfold scan. cbn [scan_passes].
  destruct (negb (signature p =? sig)); [reflexivity|].
  destruct (pass_ p); [|reflexivity].
  destruct compute; [reflexivity|].
  destruct target; [|reflexivity].
  cbv zeta.
  match goal with |- (if ?c then _ else _) = _ => destruct c end; reflexivity.
Qed.

Definition passed_over (p : pass) : Prop := scan [p] 0 = ScanMiss.

Lemma scan_passes_miss l : forall i,
  scan l i = ScanMiss <-> Forall passed_over l.
Proof.
  induction l as [|p l IH]; intros i.
  - split; [constructor|reflexivity].
  - rewrite (scan_passes_cons p l), Forall_cons_iff, <- (IH (S i)).
    unfold passed_over. rewrite (scan_passes_one_index p i 0).
    destruct (scan [p] 0); split; try discriminate; try tauto.
    all: intros [H _]; discriminate H.
Qed.

Lemma scan_passes_app l1 l2 : forall i,
  Forall passed_over l1 -> scan (l1 ++ l2) i = scan l2 (i + length l1).
Proof.
  induction l1 as [|p l1 IH]; intros i Hf; simpl.
  - now rewrite Nat.add_0_r.
  - apply Forall_cons_iff in Hf. destruct Hf as [Hp Hf].
    change (scan (p :: l1 ++ l2) i = scan l2 (i + S (length l1))).
    rewrite (scan_passes_cons p (l1 ++ l2)), (scan_passes_one_index p i 0).
    unfold passed_over in Hp. rewrite Hp, IH by assumption.
    f_equal. lia.
Qed.

(** The scan reads the signature and the pass of a record only. *)
Lemma scan_passes_ext l : forall l' i,
  Forall2 (fun p p' => signature p = signature p' /\ pass_ p = pass_ p') l l' ->
  scan l i = scan l' i.
Proof.
  induction l as [|p l IH]; intros l' i H; inversion H as [|? p' ? l0 [Hs Hp] Hl];
    subst; [reflexivity|].
  rewrite (scan_passes_cons p l), (scan_passes_cons p' l0), (IH l0 (S i) Hl).
  replace (scan [p] i) with (scan [p'] i); [reflexivity|].
  unfold scan. simpl. rewrite Hs, Hp. reflexivity.
Qed.

(** Where the scan stops: at a record with the signature that the ones
    before it do not have, or have with another raster state. *)
Lemma scan_passes_first l : forall i0 i,
  scan l i0 = ScanHit i ->
  exists k p, i = (i0 + k)%nat /\ nth_error l k = Some p /\
              scan [p] 0 = ScanHit 0 /\ Forall passed_over (firstn k l).
Proof.
  induction l as [|p l IH]; intros i0 i H; [discriminate|].
  rewrite (scan_passes_cons p l), (scan_passes_one_index p i0 0) in H.
  destruct (scan [p] 0) as [j| |] eqn:E; [| |discriminate].
  - injection H as <-. exists 0%nat, p.
    split; [lia|]. split; [reflexivity|]. split; [|constructor].
    rewrite (scan_passes_one_index p 0 0), E. reflexivity.
  - apply IH in H. destruct H as (k & q & -> & Hn & Hq & Hf).
    exists (S k), q. split; [lia|]. split; [assumption|].
    split; [assumption|]. simpl. constructor; assumption.
Qed.
End ScanFacts.

Lemma Forall2_array_set_same {A} (R : A -> A -> Prop) l i x y :
  (forall a, R a a) -> nth_error l i = Some x -> R x y ->
  Forall2 R l (array_set l i y).
Proof.
  intros Hr. revert i. induction l as [|a l IH]; intros [|i] Hn Hxy;
    simpl in *; try discriminate.
  - injection Hn as ->. constructor; [assumption|].
    clear IH. induction l; constructor; auto.
  - constructor; [apply Hr|]. eapply IH; eassumption.
Qed.

Lemma blend_equal_refl b : blend_equal b b = true.
Proof.
  destruct b as [[[] [] [] []]|]; reflexivity.
Qed.

Lemma prim_type_eqb_refl a : prim_type_eqb a a = true.
Proof. destruct a; reflexivity. Qed.

Lemma place_vertex_attribs_custom l : forall loc stride,
  snd (place_vertex_attribs true l loc stride) = stride.
Proof.
  induction l as [|sva l IH]; intros loc stride; simpl; [reflexivity|].
  specialize (IH (loc + (texel_size (va_fmt (attr sva)) + 16 - 1) / 16) stride).
  destruct (place_vertex_attribs true l _ stride). exact IH.
Qed.

Lemma gc_frame {libc : libc_qsort} wd :
  current_index (dp (garbage_collect_passes wd)) = current_index (dp wd) /\
  current_ident (dp (garbage_collect_passes wd)) = current_ident (dp wd) /\
  cached_passes (dp (garbage_collect_passes wd)) = cached_passes (dp wd).
Proof.
  unfold garbage_collect_passes.
  repeat match goal with |- context [if ?x then _ else _] => destruct x end;
    repeat split; reflexivity.
Qed.

Section KeyFacts.
Context {fns : pl_gpu_fns} {lib : shader_lib} {libc : libc_qsort}.

(** The pass that the construction creates carries the raster state it was
    asked for. *)
Lemma build_pass_key wd sh sig target vert_pos blend load vparams
      out_proj wd1 b q :
  build_pass wd sh sig target vert_pos blend load vparams out_proj
    = Some (wd1, b) ->
  b_pass b = Some q ->
  blend_params (pass_params q) = blend /\
  (pl_shader_is_compute sh = false ->
   target_dummy (pass_params q) = target /\ target <> None /\
   load_target (pass_params q) = load /\
   forall vp, vparams = Some vp ->
     vertex_type (pass_params q) = vp_vertex_type vp /\
     vertex_stride (pass_params q) = vp_vertex_stride vp).
Proof.
  unfold build_pass, failed_build. intros H Hq.
  destruct (find_cached sig (cached_passes (dp wd)) 0) as [[i c]|];
    solve_by_cases H; simpl in Hq; try discriminate Hq.
  all: repeat match goal with
              | E : place_vars _ _ _ _ _ _ = _ |- _ =>
                  apply place_vars_events in E;
                  destruct E as (_ & _ & ? & ? & ? & ? & ? & _)
              end.
  all: try match goal with
           | E : option_map _ ?c = Some _ |- _ =>
               destruct c; [|discriminate E]; simpl in E
           end.
  all: try discriminate.
  all: injection Hq as <-.
  all: try match goal with
           | E : Some _ = Some _ |- _ => injection E as <-
           end.
  all: simpl in *.
  all: split; [congruence|].
  all: intros Hc; try discriminate Hc.
  all: try match goal with
           | E : place_vertex_attribs true ?l ?a ?s = (_, ?z) |- _ =>
               let P := fresh "P" in
               pose proof (place_vertex_attribs_custom l a s) as P;
               rewrite E in P; simpl in P
           end.
  all: split; [congruence|]. all: split; [discriminate|].
  all: split; [congruence|].
  all: intros vp Hvp; try discriminate Hvp; injection Hvp as <-.
  all: split; congruence.
Qed.

(** A raster shader without a target has no construction. *)
Lemma build_pass_raster_target wd sh sig vert_pos blend load vparams out_proj :
  pl_shader_is_compute sh = false ->
  build_pass wd sh sig None vert_pos blend load vparams out_proj = None.
Proof.
  unfold build_pass. intros Hc.
  destruct (find_cached sig (cached_passes (dp wd)) 0) as [[i c]|];
    simpl; rewrite Hc; reflexivity.
Qed.
End KeyFacts.

(** X1. [blend_equal] decides equality of blend parameters: two NULL
    pointers are equal, NULL equals nothing else, and two parameter structs
    are equal exactly when their four factors are. *)
Theorem blend_equal_spec (a b : option pl_blend_params) :
  blend_equal a b = true <-> a = b.
Proof.
  split; [apply blend_equal_true|]. intros ->. apply blend_equal_refl.
Qed.

Section LookupFacts.
Context {fns : pl_gpu_fns} {lib : shader_lib} {libc : libc_qsort}.

(** The scan stops at a record made from what the construction returns. *)
Lemma build_pass_scans_own wd sh sig target vert_pos blend load vparams
      out_proj wd1 b p j :
  build_pass wd sh sig target vert_pos blend load vparams out_proj
    = Some (wd1, b) ->
  signature p = sig -> pass_ p = b_pass b ->
  scan_passes sig (pl_shader_is_compute sh) target blend load vparams [p] j
  = ScanHit j.
Proof.
  intros E Hs Hp. simpl. rewrite Hs, Z.eqb_refl, Hp. simpl.
  destruct (b_pass b) as [q|] eqn:Eq; [|reflexivity].
  destruct (pl_shader_is_compute sh) eqn:Ecmp; [reflexivity|].
  destruct (build_pass_key _ _ _ _ _ _ _ _ _ E Eq) as [Hb Hr].
  destruct (Hr Ecmp) as (Ht & Hne & Hl & Hv).
  destruct target as [t|]; [|contradiction].
  rewrite Ht, Hb, Hl. simpl.
  rewrite Z.eqb_refl, blend_equal_refl, Bool.eqb_reflx. simpl.
  destruct vparams as [vp|]; [|reflexivity].
  destruct (Hv vp eq_refl) as [-> ->].
  now rewrite prim_type_eqb_refl, Z.eqb_refl.
Qed.

(** X2. The record [find_pass] returns, found or newly built, has the
    signature of the shader and carries the current frame index; the
    counters of the dispatch object are as they were. *)
Theorem find_pass_returns_signature wd sh target vert_pos blend load vparams
        out_proj wd' sh' i :
  find_pass wd sh target vert_pos blend load vparams out_proj
    = Some (wd', sh', i) ->
  (exists p, nth_error (passes (dp wd')) i = Some p /\
             signature p = uint64 (pl_shader_signature sh) /\
             last_index p = current_index (dp wd)) /\
  current_index (dp wd') = current_index (dp wd) /\
  current_ident (dp wd') = current_ident (dp wd).
Proof.
  unfold find_pass. intros H.
  destruct (scan_passes _ _ _ _ _ _ _ _) as [k| |] eqn:Es; [| |discriminate].
  - destruct (nth_error (passes (dp wd)) k) as [p|] eqn:En; [|discriminate].
    injection H as <- <- <-. simpl. split; [|split; reflexivity].
    apply scan_passes_hit in Es. destruct Es as (k' & p' & Hk & Hn & Hp).
    simpl in Hk. subst k'. rewrite En in Hn. injection Hn as <-.
    exists (with_last_index p (current_index (dp wd))).
    split; [|split; [exact Hp|reflexivity]].
    apply nth_error_array_set. apply nth_error_Some. congruence.
  - destruct (build_pass _ _ _ _ _ _ _ _ _) as [[wd0 b]|] eqn:E;
      [|discriminate].
    injection H as <- <- <-. simpl.
    apply build_pass_frame in E. destruct E as ((_ & E1 & E2 & _) & _).
    destruct (gc_frame wd0) as (G1 & G2 & _).
    split; [|split; congruence].
    eexists. split; [unfold PL_ARRAY_APPEND; rewrite nth_error_app2 by lia;
                     rewrite Nat.sub_diag; reflexivity|].
    split; reflexivity.
Qed.

(** X3. Lookups are memoised. After [find_pass] has returned a record for a
    shader, a lookup for a shader with the same signature and kind, for the
    same target, blend mode, load flag and vertex parameters, returns the
    record at the same index and changes nothing: no record is built and
    the backend is not called. *)
Theorem find_pass_memoized wd sh target vert_pos blend load vparams out_proj
        wd' sh' i sh2 vert_pos2 out_proj2 :
  find_pass wd sh target vert_pos blend load vparams out_proj
    = Some (wd', sh', i) ->
  pl_shader_is_compute sh2 = pl_shader_is_compute sh ->
  uint64 (pl_shader_signature sh2) = uint64 (pl_shader_signature sh) ->
  find_pass wd' sh2 target vert_pos2 blend load vparams out_proj2
    = Some (wd', sh2, i).
Proof.
  unfold find_pass. intros H Hc Hs. rewrite Hc, Hs.
  set (sig := uint64 (pl_shader_signature sh)) in *.
  set (cmp := pl_shader_is_compute sh) in *.
  destruct (scan_passes sig cmp target blend load vparams (passes (dp wd)) 0)
    as [k| |] eqn:Es; [| |discriminate].
  - destruct (nth_error (passes (dp wd)) k) as [p|] eqn:En; [|discriminate].
    injection H as <- <- <-. simpl.
    assert (Hk : (k < length (passes (dp wd)))%nat)
      by (apply nth_error_Some; congruence).
    rewrite <- (@scan_passes_ext sig cmp target blend load vparams
                  (passes (dp wd))
                  (array_set (passes (dp wd)) k
                     (with_last_index p (current_index (dp wd)))) 0%nat).
    2:{ eapply Forall2_array_set_same; [|exact En|];
          simpl; intros; split; reflexivity. }
    rewrite Es, (nth_error_array_set _ _ Hk).
    change (with_last_index (with_last_index p (current_index (dp wd)))
                            (current_index (dp wd)))
      with (with_last_index p (current_index (dp wd))).
    rewrite (@array_set_same _
               (array_set (passes (dp wd)) k
                  (with_last_index p (current_index (dp wd))))
               k (with_last_index p (current_index (dp wd))));
      [reflexivity|].
    apply nth_error_array_set. exact Hk.
  - destruct (build_pass wd sh sig target vert_pos blend load vparams out_proj)
      as [[wd0 b]|] eqn:E; [|discriminate].
    injection H as <- <- <-. simpl.
    pose proof (build_pass_frame _ _ _ _ _ _ _ _ _ E) as ((Ep & Ei & _) & _).
    destruct (gc_frame wd0) as (G1 & _).
    apply scan_passes_miss in Es.
    destruct (@gc_Forall _ (passed_over sig cmp target blend load vparams) wd0)
      as [Hgc _]; [rewrite Ep; exact Es|].
    set (l := passes (dp (garbage_collect_passes wd0))) in *.
    unfold PL_ARRAY_APPEND.
    rewrite (@scan_passes_app sig cmp target blend load vparams l _ 0%nat Hgc).
    simpl Nat.add.
    subst cmp.
    erewrite build_pass_scans_own; [|exact E|reflexivity|reflexivity].
    rewrite nth_error_app2, Nat.sub_diag by lia. simpl.
    rewrite G1, Ei. rewrite array_set_last. reflexivity.
Qed.
End LookupFacts.

(** X4. A record with a compiled raster pass is only returned for the raster
    state it was compiled for: at the index where the scan for a fragment
    shader stops, the record has the signature asked for and, when it has a
    pass, the format of the pass's target, its blend parameters and its load
    flag are those asked for, and with custom vertices the primitive type
    and the vertex stride as well. *)
Theorem raster_hit_matches sig t blend load vparams l i :
  scan_passes sig false (Some t) blend load vparams l 0 = ScanHit i ->
  exists p,
    nth_error l i = Some p /\ signature p = sig /\
    forall q, pass_ p = Some q ->
      (exists td, target_dummy (pass_params q) = Some td /\
                  fmt_id (format (tex_params td))
                  = fmt_id (format (tex_params t))) /\
      blend_params (pass_params q) = blend /\
      load_target (pass_params q) = load /\
      forall vp, vparams = Some vp ->
        vertex_type (pass_params q) = vp_vertex_type vp /\
        vertex_stride (pass_params q) = vp_vertex_stride vp.
Proof.
  intros H. apply scan_passes_first in H.
  destruct H as (k & p & -> & Hn & Hp & _). simpl.
  exists p. split; [exact Hn|].
  simpl in Hp.
  destruct (signature p =? sig) eqn:Es; [|discriminate]. simpl in Hp.
  apply Z.eqb_eq in Es. split; [exact Es|].
  intros q Hq. rewrite Hq in Hp.
  destruct (target_dummy (pass_params q)) as [td|]; simpl in Hp.
  - destruct vparams as [vp|];
      match type of Hp with
      | (if ?c then _ else _) = _ => destruct c eqn:Ec; [|discriminate]
      end;
      rewrite !andb_true_iff in Ec.
    + destruct Ec as [[[[Ef Eb] El] Et] Ev].
      apply Z.eqb_eq in Ef, Ev. apply blend_equal_true in Eb.
      apply Bool.eqb_prop in El. apply prim_type_eqb_eq in Et.
      split; [exists td; split; [reflexivity|congruence]|].
      split; [assumption|]. split; [congruence|].
      intros vp' Hvp. injection Hvp as <-. split; assumption.
    + destruct Ec as [[Ef Eb] El].
      apply Z.eqb_eq in Ef. apply blend_equal_true in Eb.
      apply Bool.eqb_prop in El.
      split; [exists td; split; [reflexivity|congruence]|].
      split; [assumption|]. split; [congruence|].
      intros vp' Hvp. discriminate.
  - destruct vparams; simpl in Hp; discriminate.
Qed.

(** ** The eviction controller: order and growth *)

Lemma skip_young_all d rest : forall idx,
  Forall (fun p => pass_age d p < MIN_AGE) rest ->
  skip_young d rest idx = (idx + length rest)%nat.
Proof.
  induction rest as [|p rest IH]; intros idx H; simpl; [lia|].
  apply Forall_cons_iff in H. destruct H as [Hp H].
  apply Z.ltb_lt in Hp. rewrite Hp, IH by assumption. lia.
Qed.

Lemma Forall_skipn_of {A} (P : A -> Prop) n l :
  Forall P l -> Forall P (skipn n l).
Proof.
  intros H. revert n. induction H; intros [|n]; simpl; auto.
Qed.

Lemma StronglySorted_app_order {A} (R : A -> A -> Prop) l1 l2 :
  StronglySorted R (l1 ++ l2) ->
  forall a b, In a l1 -> In b l2 -> R a b.
Proof.
  induction l1 as [|x l1 IH]; intros Hs a b Ha Hb; [contradiction|].
  simpl in Hs. inversion Hs as [|? ? Hs' Hall]; subst.
  destruct Ha as [<-|Ha].
  - rewrite Forall_forall in Hall. apply Hall, in_or_app. now right.
  - eapply IH; eassumption.
Qed.

(** X5. When the collection is over its capacity and every record was used
    less than [MIN_AGE] frames ago, the controller destroys nothing: the
    records are only reordered, the capacity doubles and no backend call is
    made. *)
Theorem gc_doubles_when_young {libc : libc_qsort} (wd : world) :
  max_passes (dp wd) < Z.of_nat (length (passes (dp wd))) ->
  Forall (fun p => pass_age (dp wd) p < MIN_AGE) (passes (dp wd)) ->
  Permutation (passes (dp wd)) (passes (dp (garbage_collect_passes wd))) /\
  max_passes (dp (garbage_collect_passes wd)) = max_passes (dp wd) * 2 /\
  trace (garbage_collect_passes wd) = trace wd.
Proof.
  intros Hover Hy. unfold garbage_collect_passes.
  apply Z.leb_gt in Hover. rewrite Hover.
  set (l := passes (dp wd)) in *.
  set (elem := qsort cmp_pass_age l).
  assert (Hperm : Permutation l elem) by apply qsort_perm.
  assert (Hlen : length elem = length l)
    by (symmetry; apply Permutation_length, Hperm).
  assert (Hhalf : (Nat.div (length l) 2 <= length l)%nat)
    by (apply Nat.Div0.div_le_upper_bound; lia).
  assert (Hye : Forall (fun p => pass_age (dp wd) p < MIN_AGE) elem)
    by (eapply Permutation_Forall; eassumption).
  rewrite (skip_young_all (dp wd) (Nat.div (length l) 2)
             (Forall_skipn_of (Nat.div (length l) 2) Hye)).
  rewrite length_skipn, Hlen.
  replace (Nat.div (length l) 2 + (length l - Nat.div (length l) 2))%nat
    with (length l) by lia.
  rewrite Nat.sub_diag. simpl.
  rewrite <- Hlen, firstn_all, skipn_all. simpl.
  rewrite app_nil_r. repeat split. exact Hperm.
Qed.

(** X6. What a collection keeps was used at least as recently as what it
    evicts: the records are split into the kept and the evicted ones, the
    last frame index of an evicted record is at most that of any record
    kept, and what the collection adds to the trace is the destruction of
    the buffer and the pass of each evicted record, in the order of the
    evicted records, followed by one debug message when a record was
    evicted, and nothing else. The capacity is unchanged whenever a record
    is evicted. *)
Theorem gc_keeps_most_recent {libc : libc_qsort} (wd : world) :
  exists evicted,
    Permutation (passes (dp wd))
                (passes (dp (garbage_collect_passes wd)) ++ evicted) /\
    (forall k e, In k (passes (dp (garbage_collect_passes wd))) ->
                 In e evicted -> last_index e <= last_index k) /\
    trace (garbage_collect_passes wd)
      = trace wd ++ flat_map pass_destroy evicted
        ++ match evicted with
           | [] => []
           | _ :: _ => [PL_DEBUG "Evicted passes from dispatch cache"]
           end /\
    (evicted <> [] ->
     max_passes (dp (garbage_collect_passes wd)) = max_passes (dp wd)).
Proof.
  unfold garbage_collect_passes.
  destruct (Z.of_nat (length (passes (dp wd))) <=? max_passes (dp wd)).
  - exists []. rewrite !app_nil_r.
    repeat split; auto; try contradiction.
  - set (l := passes (dp wd)).
    set (elem := qsort cmp_pass_age l).
    set (half := Nat.div (length l) 2).
    set (idx := skip_young (dp wd) (skipn half elem) half).
    destruct (evicted_are_old (dp wd) l) as [Hidx _].
    fold elem half idx in Hidx.
    assert (Hlen : length elem = length l)
      by (symmetry; apply Permutation_length, qsort_perm).
    pose proof (qsort_sorted l cmp_pass_age_total cmp_pass_age_trans) as Hs.
    fold elem in Hs. rewrite <- (firstn_skipn idx elem) in Hs.
    pose proof (StronglySorted_app_order _ _ Hs) as Hord.
    assert (Hev : length (skipn idx elem) = (length l - idx)%nat)
      by (rewrite length_skipn, Hlen; reflexivity).
    exists (skipn idx elem).
    destruct (Nat.eqb (length l - idx) 0) eqn:En; simpl;
      (split; [rewrite firstn_skipn; apply qsort_perm|]);
      (split; [intros k e Hk He; specialize (Hord k e Hk He);
               unfold cmp_pass_age in Hord; lia|]).
    + apply Nat.eqb_eq in En. rewrite En in Hev.
      destruct (skipn idx elem); [|discriminate Hev].
      split; [reflexivity|]. intros Hne. exfalso. apply Hne. reflexivity.
    + apply Nat.eqb_neq in En.
      destruct (skipn idx elem) as [|e0 ev] eqn:Ee;
        [simpl in Hev; lia|].
      split; reflexivity.
Qed.

(** ** Where the variables are placed *)

Section Placement.
Context {lib : shader_lib}.

(** X7. A variable without a placement gets one the GPU supports. It
    becomes a push constant only with Vulkan GLSL and a push-constant budget
    that the std430 layout behind the constants placed so far fits in; a
    member of the uniform buffer only in the greedy round, with GLSL 440 or
    later and a uniform-buffer budget; a global uniform only in the greedy
    round on a GPU with input variables, behind the variables added so far.
    It stays without a placement in the first round, and in the greedy round
    only with the failure reported on a GPU without input variables. *)
Theorem add_pass_var_placement g ubo_d params sv pv greedy
        ok ubo_d' params' pv' evs :
  pv_type pv = PASS_VAR_NONE ->
  add_pass_var g ubo_d params sv pv greedy = (ok, ubo_d', params', pv', evs) ->
  match pv_type pv' with
  | PASS_VAR_PUSHC =>
      ok = true /\ vulkan (glsl g) = true /\
      max_pushc_size (limits g) <> 0 /\
      pv_layout pv' = pl_std430_layout (push_constants_size params) (var sv) /\
      push_constants_size params'
      = layout_offset (pv_layout pv') + layout_size (pv_layout pv') /\
      push_constants_size params' <= max_pushc_size (limits g) /\
      (greedy = false ->
       dim_m (var sv) = 1 /\ dim_a (var sv) = 1 \/ dynamic sv = true)
  | PASS_VAR_UBO =>
      ok = true /\ greedy = true /\ 440 <= version (glsl g) /\
      max_ubo_size (limits g) <> 0 /\
      (PL_GPU_CAP_INPUT_VARIABLES g = false \/ dynamic sv = false) /\
      sh_buf_desc_append g ubo_d (var sv) = Some (ubo_d', pv_layout pv')
  | PASS_VAR_GLOBAL =>
      ok = true /\ greedy = true /\ PL_GPU_CAP_INPUT_VARIABLES g = true /\
      pv_index pv' = Z.of_nat (length (variables params)) /\
      variables params' = variables params ++ [var sv] /\
      pv_layout pv' = pl_var_host_layout 0 (var sv)
  | PASS_VAR_NONE =>
      if greedy
      then ok = false /\ PL_GPU_CAP_INPUT_VARIABLES g = false /\
           evs = [PL_ERR "Unable to add input variable"]
      else ok = true /\ evs = []
  end.
Proof.
  unfold add_pass_var, pass_var_placed. intros Hn H. rewrite Hn in H.
  destruct greedy;
    repeat (first [ discriminate H
                  | progress (cbv beta iota zeta in H)
                  | break_in H ]);
    inversion H; subst; clear H; simpl; rewrite ?Hn;
    repeat match goal with
           | E : _ && _ = true |- _ => apply andb_true_iff in E; destruct E
           | E : _ || _ = true |- _ => apply orb_true_iff in E
           | E : negb _ = true |- _ => apply negb_true_iff in E
           | E : (_ =? _) = false |- _ => apply Z.eqb_neq in E
           | E : (_ =? _) = true |- _ => apply Z.eqb_eq in E
           | E : (_ <=? _) = true |- _ => apply Z.leb_le in E
           end;
    repeat split; auto; try discriminate; try congruence.
  all: try match goal with
            | H : negb _ = true \/ negb _ = true |- _ =>
                destruct H as [H|H]; apply negb_true_iff in H; auto
            end.
  all: intros _.
  all: match goal with
       | H : _ \/ dynamic _ = true |- _ =>
           destruct H as [H|H]; [left|right; exact H]
       end.
  all: simpl in *; apply andb_true_iff in H; destruct H as [Hm Ha].
  all: apply Z.eqb_eq in Hm, Ha; auto.
Qed.

(** The first round places push constants or nothing, and reports no
    failure; neither does the greedy round on a GPU with input variables. *)
Lemma add_pass_var_never_fails g ubo_d params sv pv greedy
      ok ubo_d' params' pv' evs :
  greedy = false \/ PL_GPU_CAP_INPUT_VARIABLES g = true ->
  add_pass_var g ubo_d params sv pv greedy = (ok, ubo_d', params', pv', evs) ->
  ok = true /\ evs = [].
Proof.
  unfold add_pass_var. intros Hg H.
  repeat (first [ discriminate H
                | progress (cbv beta iota zeta in H)
                | break_in H ]);
    inversion H; subst; clear H; simpl; auto.
  all: destruct Hg as [->|Hg]; [discriminate|congruence].
Qed.

(** X8. The placement loop fails only in the greedy round and only on a GPU
    without input variables: the first round, and every round on a GPU with
    input variables, returns true and logs nothing, and the table keeps its
    length. *)
Theorem place_vars_never_fails g greedy svs pvs ubo_d params
        ok ubo_d' params' pvs' evs :
  greedy = false \/ PL_GPU_CAP_INPUT_VARIABLES g = true ->
  place_vars g greedy svs pvs ubo_d params = (ok, ubo_d', params', pvs', evs) ->
  ok = true /\ evs = [] /\ length pvs' = length pvs.
Proof.
  intros Hg. revert pvs ubo_d params ok ubo_d' params' pvs' evs.
  induction svs as [|sv svs IH];
    intros pvs ubo_d params ok ubo_d' params' pvs' evs H.
  - simpl in H. injection H as <- <- <- <- <-. auto.
  - destruct pvs as [|pv pvs].
    + simpl in H. injection H as <- <- <- <- <-. auto.
    + simpl in H.
      destruct (add_pass_var g ubo_d params sv pv greedy)
        as [[[[ok1 u1] p1] pv1] e1] eqn:Ea.
      apply (add_pass_var_never_fails _ _ _ _ _ Hg) in Ea.
      destruct Ea as [-> ->].
      destruct (place_vars g greedy svs pvs u1 p1)
        as [[[[ok2 u2] p2] pvs2] e2] eqn:Ep.
      apply IH in Ep. destruct Ep as (-> & -> & Hl).
      injection H as <- <- <- <- <-. simpl. auto.
Qed.
End Placement.

(** ** Change suppression in the variable update *)

Lemma bytes_eqb_refl a : bytes_eqb a a = true.
Proof. now apply bytes_eqb_eq. Qed.

Section UpdateTwice.
Context {lib : shader_lib}.

Lemma update_pass_var_again u rp sv pv pv' rp' evs u2 rp2 :
  update_pass_var u rp sv pv = Some (pv', rp', evs) ->
  update_pass_var u2 rp2 sv pv' = Some (pv', rp2, []).
Proof.
  unfold update_pass_var. intros H.
  destruct (layout_size (pl_var_host_layout 0 (var sv)) =? 0);
    [discriminate|].
  match type of H with
  | (if ?c then _ else _) = _ => destruct c eqn:Esame
  end.
  - injection H as <- <- <-. rewrite Esame. reflexivity.
  - assert (Hc : cached_data pv'
                 = Some (firstn (Z.to_nat (layout_size
                                   (pl_var_host_layout 0 (var sv))))
                                (data sv)))
      by (solve_by_cases H; reflexivity).
    rewrite Hc, bytes_eqb_refl. reflexivity.
Qed.

Lemma update_pass_vars_again u svs : forall rp pvs pvs' rp' evs u2 rp2,
  update_pass_vars u rp svs pvs = Some (pvs', rp', evs) ->
  update_pass_vars u2 rp2 svs pvs' = Some (pvs', rp2, []).
Proof.
  induction svs as [|sv svs IH]; intros rp pvs pvs' rp' evs u2 rp2 H.
  - simpl in H. injection H as <- <- <-. reflexivity.
  - destruct pvs as [|pv pvs]; [discriminate|]. simpl in H.
    destruct (update_pass_var u rp sv pv) as [[[pv1 rp1] e1]|] eqn:E1;
      [|discriminate].
    destruct (update_pass_vars u rp1 svs pvs) as [[[pvs2 rp3] e2]|] eqn:E2;
      [|discriminate].
    injection H as <- <- <-. simpl.
    erewrite update_pass_var_again by exact E1.
    rewrite (IH _ _ _ _ _ u2 rp2 E2). reflexivity.
Qed.

Lemma update_pass_var_bindings u rp sv pv pv' rp' evs :
  update_pass_var u rp sv pv = Some (pv', rp', evs) ->
  desc_bindings rp' = desc_bindings rp.
Proof.
  unfold update_pass_var. intros H. solve_by_cases H; reflexivity.
Qed.

Lemma update_pass_vars_bindings u svs : forall rp pvs pvs' rp' evs,
  update_pass_vars u rp svs pvs = Some (pvs', rp', evs) ->
  desc_bindings rp' = desc_bindings rp.
Proof.
  induction svs as [|sv svs IH]; intros rp pvs pvs' rp' evs H.
  - simpl in H. injection H as <- <- <-. reflexivity.
  - destruct pvs as [|pv pvs]; [discriminate|]. simpl in H.
    destruct (update_pass_var u rp sv pv) as [[[pv1 rp1] e1]|] eqn:E1;
      [|discriminate].
    destruct (update_pass_vars u rp1 svs pvs) as [[[pvs2 rp3] e2]|] eqn:E2;
      [|discriminate].
    injection H as <- <- <-.
    apply update_pass_var_bindings in E1. apply IH in E2. congruence.
Qed.

(** X9. Unchanged variables are not uploaded again. After the bindings and
    variables of a record were updated from an accumulator, updating them
    from the same accumulator again succeeds with no buffer write and no
    variable update, and leaves the variable table, the push constants and
    the descriptor bindings of the record as they are. *)
Theorem update_bindings_and_vars_again p sh p' evs :
  update_bindings_and_vars p sh = Some (p', evs) ->
  exists p'',
    update_bindings_and_vars p' sh = Some (p'', []) /\
    pass_vars p'' = pass_vars p' /\
    var_updates (run_params p'') = [] /\
    push_constants (run_params p'') = push_constants (run_params p') /\
    desc_bindings (run_params p'') = desc_bindings (run_params p').
Proof.
  unfold update_bindings_and_vars. intros H.
  destruct (length (desc_bindings (run_params p)) <? length (descs sh))%nat
    eqn:El; [discriminate|].
  destruct (update_pass_vars _ _ _ _) as [[[pvs rp] e]|] eqn:E;
    [|discriminate].
  injection H as <- <-. simpl.
  apply update_pass_vars_bindings in E as Hb. simpl in Hb.
  eexists. rewrite Hb.
  assert (Hlen : (length (map sd_object (descs sh)
                          ++ skipn (length (descs sh))
                               (desc_bindings (run_params p)))
                  <? length (descs sh))%nat = false).
  { apply Nat.ltb_ge. rewrite length_app, length_map. lia. }
  rewrite Hlen.
  erewrite update_pass_vars_again by exact E.
  split; [reflexivity|]. simpl. repeat split.
  rewrite skipn_app, length_map, Nat.sub_diag.
  rewrite skipn_all2 by (rewrite length_map; lia).
  reflexivity.
Qed.
End UpdateTwice.

(** ** Descriptor bindings and vertex attributes *)

(** The descriptors of [l] that live in the namespace [ns]. *)
Definition count_namespace {fns : pl_gpu_fns} (g : pl_gpu) (ns : nat)
  (l : list pl_shader_desc) : nat :=
  length (filter (fun sd => Nat.eqb (desc_namespace g (desc_type (sd_desc sd))) ns)
                 l).

Lemma place_descriptors_nth {fns : pl_gpu_fns} g l : forall counters k sd,
  nth_error l k = Some sd ->
  nth_error (place_descriptors g l counters) k
  = Some {| desc_name := desc_name (sd_desc sd);
            desc_type := desc_type (sd_desc sd);
            binding :=
              counters (desc_namespace g (desc_type (sd_desc sd)))
              + Z.of_nat (count_namespace g
                            (desc_namespace g (desc_type (sd_desc sd)))
                            (firstn k l)) |}.
Proof.
  induction l as [|sd0 l IH]; intros counters k sd Hn;
    [destruct k; discriminate|].
  destruct k as [|k]; simpl in Hn.
  - injection Hn as ->. simpl. unfold count_namespace. simpl.
    now rewrite Z.add_0_r.
  - cbn [place_descriptors nth_error]. rewrite (IH _ k sd Hn).
    do 2 f_equal. unfold count_namespace. cbn [firstn filter].
    rewrite (Nat.eqb_sym (desc_namespace g (desc_type (sd_desc sd0)))).
    destruct (Nat.eqb _ _); cbn [length]; lia.
Qed.

Lemma place_descriptors_length {fns : pl_gpu_fns} g l : forall counters,
  length (place_descriptors g l counters) = length l.
Proof.
  induction l as [|sd l IH]; intros counters; simpl; [reflexivity|].
  now rewrite IH.
Qed.

Lemma count_namespace_firstn {fns : pl_gpu_fns} g ns l : forall j k sd,
  (j < k)%nat -> nth_error l j = Some sd ->
  desc_namespace g (desc_type (sd_desc sd)) = ns ->
  (count_namespace g ns (firstn j l) < count_namespace g ns (firstn k l))%nat.
Proof.
  unfold count_namespace.
  induction l as [|sd0 l IH]; intros j k sd Hjk Hn Hns;
    [destruct j; discriminate|].
  destruct k as [|k]; [lia|].
  destruct j as [|j]; simpl in Hn.
  - injection Hn as ->. cbn [firstn filter]. rewrite Hns, Nat.eqb_refl.
    simpl. lia.
  - cbn [firstn filter].
    assert (Hlt := IH j k sd ltac:(lia) Hn Hns).
    destruct (Nat.eqb _ ns); cbn [length]; lia.
Qed.

(** X10. Every descriptor of the shader gets an entry with its name and
    type, bound to the number of descriptors of the same namespace that come
    before it. So the bindings of a namespace count up from zero in the
    order of the shader, and no two descriptors of one namespace share a
    binding. *)
Theorem place_descriptors_bindings {fns : pl_gpu_fns} g l :
  length (place_descriptors g l (fun _ => 0)) = length l /\
  (forall k sd, nth_error l k = Some sd ->
     nth_error (place_descriptors g l (fun _ => 0)) k
     = Some {| desc_name := desc_name (sd_desc sd);
               desc_type := desc_type (sd_desc sd);
               binding :=
                 Z.of_nat (count_namespace g
                             (desc_namespace g (desc_type (sd_desc sd)))
                             (firstn k l)) |}) /\
  (forall j k dj dk, (j < k)%nat ->
     nth_error (place_descriptors g l (fun _ => 0)) j = Some dj ->
     nth_error (place_descriptors g l (fun _ => 0)) k = Some dk ->
     desc_namespace g (desc_type dj) = desc_namespace g (desc_type dk) ->
     binding dj < binding dk).
Proof.
  split; [apply place_descriptors_length|].
  split; [intros k sd Hn; now rewrite (place_descriptors_nth g l _ k Hn)|].
  intros j k dj dk Hjk Hj Hk Hns.
  assert (Hlj : (j < length l)%nat).
  { rewrite <- (place_descriptors_length g l (fun _ => 0)).
    apply nth_error_Some. congruence. }
  assert (Hlk : (k < length l)%nat).
  { rewrite <- (place_descriptors_length g l (fun _ => 0)).
    apply nth_error_Some. congruence. }
  destruct (nth_error l j) as [sj|] eqn:Ej;
    [|apply nth_error_None in Ej; lia].
  destruct (nth_error l k) as [sk|] eqn:Ek;
    [|apply nth_error_None in Ek; lia].
  rewrite (place_descriptors_nth g l _ j Ej) in Hj.
  rewrite (place_descriptors_nth g l _ k Ek) in Hk.
  injection Hj as <-. injection Hk as <-. simpl in *.
  rewrite <- Hns.
  pose proof (@count_namespace_firstn _ g _ l j k sj Hjk Ej eq_refl). lia.
Qed.

(** The sizes and the locations that the attributes before an index take. *)
Definition attribs_size (l : list pl_shader_va) : Z :=
  fold_right (fun sva acc => texel_size (va_fmt (attr sva)) + acc) 0 l.

Definition attribs_locations (l : list pl_shader_va) : Z :=
  fold_right (fun sva acc => (texel_size (va_fmt (attr sva)) + 16 - 1) / 16 + acc)
             0 l.

Lemma place_vertex_attribs_nth custom l : forall loc stride k sva,
  nth_error l k = Some sva ->
  nth_error (fst (place_vertex_attribs custom l loc stride)) k
  = Some {| va_name := String.append (va_name (attr sva)) "_v";
            va_fmt := va_fmt (attr sva);
            va_offset := if custom then va_offset (attr sva)
                         else stride + attribs_size (firstn k l);
            va_location := loc + attribs_locations (firstn k l) |}.
Proof.
  induction l as [|s0 l IH]; intros loc stride k sva Hn;
    [destruct k; discriminate|].
  cbn [place_vertex_attribs].
  destruct (place_vertex_attribs custom l
              (loc + (texel_size (va_fmt (attr s0)) + 16 - 1) / 16)
              (if custom then stride
               else stride + texel_size (va_fmt (attr s0))))
    as [rest stride''] eqn:E.
  destruct k as [|k]; simpl in Hn.
  - injection Hn as ->. simpl. rewrite !Z.add_0_r. reflexivity.
  - cbn [fst nth_error].
    specialize (IH (loc + (texel_size (va_fmt (attr s0)) + 16 - 1) / 16)
                   (if custom then stride
                    else stride + texel_size (va_fmt (attr s0))) k sva Hn).
    rewrite E in IH. cbn [fst] in IH. rewrite IH.
    cbn [firstn attribs_size attribs_locations fold_right].
    fold (attribs_size (firstn k l)). fold (attribs_locations (firstn k l)).
    destruct custom; do 2 f_equal; lia.
Qed.

Lemma place_vertex_attribs_stride custom l : forall loc stride,
  length (fst (place_vertex_attribs custom l loc stride)) = length l /\
  snd (place_vertex_attribs custom l loc stride)
  = if custom then stride else stride + attribs_size l.
Proof.
  induction l as [|s0 l IH]; intros loc stride.
  - simpl. destruct custom; split; auto; lia.
  - cbn [place_vertex_attribs].
    specialize (IH (loc + (texel_size (va_fmt (attr s0)) + 16 - 1) / 16)
                   (if custom then stride
                    else stride + texel_size (va_fmt (attr s0)))).
    destruct (place_vertex_attribs custom l _ _) as [rest stride''].
    cbn [fst snd length] in *. destruct IH as [IH1 IH2].
    split; [now rewrite IH1|].
    cbn [attribs_size fold_right]. fold (attribs_size l).
    destruct custom; lia.
Qed.

(** X11. The vertex attributes of an implicit quad are packed without gaps:
    each attribute keeps its format, gets the suffix [_v], starts where the
    one before it ends, and the stride is the sum of the texel sizes; the
    location of an attribute is the number of [vec4] slots, rounded up,
    that the attributes before it take. With custom vertices the offsets
    and the stride are the caller's. *)
Theorem place_vertex_attribs_packed custom l stride :
  length (fst (place_vertex_attribs custom l 0 stride)) = length l /\
  snd (place_vertex_attribs custom l 0 stride)
  = (if custom then stride else stride + attribs_size l) /\
  forall k sva, nth_error l k = Some sva ->
    nth_error (fst (place_vertex_attribs custom l 0 stride)) k
    = Some {| va_name := String.append (va_name (attr sva)) "_v";
              va_fmt := va_fmt (attr sva);
              va_offset := if custom then va_offset (attr sva)
                           else stride + attribs_size (firstn k l);
              va_location := attribs_locations (firstn k l) |}.
Proof.
  destruct (place_vertex_attribs_stride custom l 0 stride) as [H1 H2].
  split; [exact H1|]. split; [exact H2|].
  intros k sva Hn. now rewrite (place_vertex_attribs_nth custom l 0 stride k Hn).
Qed.

(** ** The pool is a stack, and the frame counter wraps *)

Lemma PL_ARRAY_POP_app {A} (l : list A) x :
  PL_ARRAY_POP (l ++ [x]) = Some (l, x).
Proof.
  unfold PL_ARRAY_POP. rewrite rev_app_distr. simpl.
  now rewrite rev_involutive.
Qed.

(** X12. The accumulator given back last is handed out first. After
    [pl_dispatch_abort] on a handle, the next [pl_dispatch_begin_ex] returns
    the same accumulator, cleared and tagged with the current identity and
    frame index; the pool is as it was before the abort and no accumulator
    is allocated. *)
Theorem begin_after_abort (wd : world) (a : sh_ptr) (s : pl_shader)
        (unique : bool) :
  nth_error (heap wd) a = Some s ->
  exists wd',
    pl_dispatch_begin_ex (fst (pl_dispatch_abort wd (Some a))) unique
      = Some (wd', a) /\
    shaders (dp wd') = shaders (dp wd) /\
    length (heap wd') = length (heap wd) /\
    nth_error (heap wd') a
      = Some (pl_shader_alloc
                {| sh_id := if unique then current_ident (dp wd) else 0;
                   sh_index := current_index (dp wd) |}) /\
    trace wd' = trace wd.
Proof.
  intros Hs. unfold pl_dispatch_begin_ex, pl_dispatch_abort. simpl.
  assert (Hpop : PL_ARRAY_POP
                   (shaders (if unique
                             then set_current_ident
                                    (set_shaders (dp wd)
                                       (PL_ARRAY_APPEND (shaders (dp wd)) a))
                                    (uint8 (current_ident (dp wd) + 1))
                             else set_shaders (dp wd)
                                    (PL_ARRAY_APPEND (shaders (dp wd)) a)))
                 = Some (shaders (dp wd), a))
    by (destruct unique; apply PL_ARRAY_POP_app).
  rewrite Hpop, Hs. eexists. split; [reflexivity|]. simpl.
  split; [destruct unique; reflexivity|].
  split; [apply length_array_set|].
  split; [|reflexivity].
  apply nth_error_array_set. apply nth_error_Some. congruence.
Qed.

Lemma uint8_succ c : uint8 (uint8 c + 1) = uint8 (c + 1).
Proof. unfold uint8. now rewrite Zplus_mod_idemp_l. Qed.

(** X13. The frame index is the number of resets modulo 256, and a reset
    touches only the two counters: after [n + 1] calls of
    [pl_dispatch_reset_frame] the index is the old one plus [n + 1], reduced
    modulo 256, the identity counter is zero, and the records, the loaded
    programs, the pool and the capacity are unchanged. *)
Theorem reset_frames_index (n : nat) (wd : world) :
  let wd' := reset_frames (S n) wd in
  current_index (dp wd') = uint8 (current_index (dp wd) + Z.of_nat (S n)) /\
  current_ident (dp wd') = 0 /\
  passes (dp wd') = passes (dp wd) /\
  cached_passes (dp wd') = cached_passes (dp wd) /\
  shaders (dp wd') = shaders (dp wd) /\
  max_passes (dp wd') = max_passes (dp wd) /\
  heap wd' = heap wd /\ trace wd' = trace wd.
Proof.
  revert wd. induction n as [|n IH]; intros wd.
  - simpl. repeat split.
  - specialize (IH (pl_dispatch_reset_frame wd)).
    change (reset_frames (S (S n)) wd)
      with (reset_frames (S n) (pl_dispatch_reset_frame wd)).
    cbv zeta in *. destruct IH as (I1 & I2 & I3 & I4 & I5 & I6 & I7 & I8).
    rewrite I1, I2, I3, I4, I5, I6, I7, I8. simpl.
    repeat split.
    unfold uint8. rewrite Zplus_mod_idemp_l. f_equal. lia.
Qed.

(** ** What a dispatch adds to the trace *)

Definition is_run (e : event) : bool :=
  match e with EvPassRun _ => true | _ => false end.

(** The number of [pl_pass_run] calls among the events. *)
Definition count_runs (evs : list event) : nat := length (filter is_run evs).

Lemma count_runs_app a b : count_runs (a ++ b) = (count_runs a + count_runs b)%nat.
Proof. unfold count_runs. now rewrite filter_app, length_app. Qed.

Lemma count_runs_none (P : event -> Prop) evs :
  (forall e, P e -> is_run e = false) -> Forall P evs -> count_runs evs = 0%nat.
Proof.
  intros HP H. unfold count_runs. induction H as [|e l He Hl IH];
    [reflexivity|].
  simpl. rewrite (HP e He). exact IH.
Qed.

Lemma build_event_no_run sig b e : build_event sig b e -> is_run e = false.
Proof. destruct e; simpl; intros H; auto; contradiction. Qed.

(** The events of a collection: the destruction of passes and buffers,
    and a log. *)
Definition gc_event (e : event) : Prop :=
  match e with
  | EvLog _ _ | EvBufDestroy _ | EvPassDestroy _ => True
  | _ => False
  end.

Lemma gc_event_no_run e : gc_event e -> is_run e = false.
Proof. destruct e; simpl; intros H; auto; contradiction. Qed.

Lemma pass_destroy_events l : Forall gc_event (flat_map pass_destroy l).
Proof.
  induction l as [|p l IH]; [constructor|].
  cbn [flat_map]. apply Forall_app. split; [|exact IH].
  unfold pass_destroy. destruct (ubo p), (pass_ p); repeat constructor.
Qed.

Lemma gc_trace {libc : libc_qsort} wd :
  exists evs, trace (garbage_collect_passes wd) = trace wd ++ evs /\
              Forall gc_event evs.
Proof.
  unfold garbage_collect_passes.
  repeat match goal with |- context [if ?x then _ else _] => destruct x end;
    simpl.
  - exists []. rewrite app_nil_r. split; [reflexivity|constructor].
  - eexists. split; [reflexivity|].
    apply Forall_app. split; [apply pass_destroy_events|repeat constructor].
  - eexists. split; [reflexivity|]. apply pass_destroy_events.
Qed.

Section RunFacts.
Context {fns : pl_gpu_fns} {lib : shader_lib} {libc : libc_qsort}.

Lemma find_pass_trace wd sh target vert_pos blend load vparams out_proj
      wd' sh' i :
  find_pass wd sh target vert_pos blend load vparams out_proj
    = Some (wd', sh', i) ->
  exists evs, trace wd' = trace wd ++ evs /\ count_runs evs = 0%nat.
Proof.
  unfold find_pass. intros H.
  destruct (scan_passes _ _ _ _ _ _ _ _); [| |discriminate].
  - destruct (nth_error _ _); [|discriminate].
    injection H as <- <- <-. exists []. simpl. now rewrite app_nil_r.
  - destruct (build_pass _ _ _ _ _ _ _ _ _) as [[wd0 b]|] eqn:E;
      [|discriminate].
    injection H as <- <- <-. simpl.
    apply build_pass_frame in E. destruct E as (_ & (e1 & E1 & F1 & _) & _).
    destruct (gc_trace wd0) as (e2 & E2 & F2).
    exists (e1 ++ e2). rewrite E2, E1, app_assoc. split; [reflexivity|].
    rewrite count_runs_app.
    rewrite (count_runs_none (@build_event_no_run _ b) F1).
    rewrite (count_runs_none gc_event_no_run F2). reflexivity.
Qed.

Lemma update_pass_var_no_run u rp sv pv pv' rp' evs :
  update_pass_var u rp sv pv = Some (pv', rp', evs) -> count_runs evs = 0%nat.
Proof.
  unfold update_pass_var. intros H. solve_by_cases H; reflexivity.
Qed.

Lemma update_pass_vars_no_run u svs : forall rp pvs pvs' rp' evs,
  update_pass_vars u rp svs pvs = Some (pvs', rp', evs) ->
  count_runs evs = 0%nat.
Proof.
  induction svs as [|sv svs IH]; intros rp pvs pvs' rp' evs H.
  - simpl in H. injection H as <- <- <-. reflexivity.
  - destruct pvs as [|pv pvs]; [discriminate|]. simpl in H.
    destruct (update_pass_var u rp sv pv) as [[[pv1 rp1] e1]|] eqn:E1;
      [|discriminate].
    destruct (update_pass_vars u rp1 svs pvs) as [[[pvs2 rp3] e2]|] eqn:E2;
      [|discriminate].
    injection H as <- <- <-.
    apply update_pass_var_no_run in E1. apply IH in E2.
    now rewrite count_runs_app, E1, E2.
Qed.

Lemma update_bindings_and_vars_no_run p sh p' evs :
  update_bindings_and_vars p sh = Some (p', evs) -> count_runs evs = 0%nat.
Proof.
  unfold update_bindings_and_vars. intros H.
  destruct (_ <? _)%nat; [discriminate|].
  destruct (update_pass_vars _ _ _ _) as [[[pvs rp] e]|] eqn:E;
    [|discriminate].
  injection H as <- <-. eapply update_pass_vars_no_run; eassumption.
Qed.

Ltac run_cases H :=
  body_cases H;
  repeat match goal with
         | E : find_pass _ _ _ _ _ _ _ _ = Some _ |- _ =>
             apply find_pass_trace in E;
             let e := fresh "e" in let E1 := fresh "E" in
             let E2 := fresh "E" in
             destruct E as (e & E1 & E2)
         | E : update_bindings_and_vars _ _ = Some _ |- _ =>
             apply update_bindings_and_vars_no_run in E
         end;
  simpl in *;
  repeat match goal with
         | E : trace _ = _ |- _ => rewrite E; clear E
         end;
  rewrite <- ?app_assoc;
  (eexists; split; [reflexivity|]);
  rewrite ?count_runs_app;
  repeat match goal with
         | E : count_runs _ = _ |- _ => rewrite E; clear E
         end;
  reflexivity.

Lemma dispatch_finish_body_runs wd sh params wd1 sh1 ret :
  dispatch_finish_body wd sh params = Some (wd1, sh1, ret) ->
  exists evs, trace wd1 = trace wd ++ evs /\
              count_runs evs = (if ret then 1 else 0)%nat.
Proof. unfold dispatch_finish_body, dispatch_error. intros H. run_cases H. Qed.

Lemma dispatch_compute_body_runs wd sh params wd1 sh1 ret :
  dispatch_compute_body wd sh params = Some (wd1, sh1, ret) ->
  exists evs, trace wd1 = trace wd ++ evs /\
              count_runs evs = (if ret then 1 else 0)%nat.
Proof. unfold dispatch_compute_body, dispatch_error. intros H. run_cases H. Qed.

Lemma dispatch_vertex_body_runs wd sh params wd1 sh1 ret :
  dispatch_vertex_body wd sh params = Some (wd1, sh1, ret) ->
  exists evs, trace wd1 = trace wd ++ evs /\
              count_runs evs = (if ret then 1 else 0)%nat.
Proof. unfold dispatch_vertex_body, dispatch_error. intros H. run_cases H. Qed.

Lemma dispatch_return_trace a wd1 sh1 ret wd' psh ret' :
  dispatch_return a (wd1, sh1, ret) = (wd', psh, ret') ->
  trace wd' = trace wd1 /\ ret' = ret.
Proof.
  unfold dispatch_return, pl_dispatch_abort. simpl.
  intros H. injection H as <- <- <-. split; reflexivity.
Qed.

(** X14. The result of a dispatch says whether the pass ran: each of the
    three entry points asks the backend to run a pass exactly once when it
    returns true and not at all when it returns false. *)
Theorem dispatch_runs_once :
  (forall wd params wd' psh ret,
      pl_dispatch_finish wd params = Some (wd', psh, ret) ->
      exists evs, trace wd' = trace wd ++ evs /\
                  count_runs evs = (if ret then 1 else 0)%nat) /\
  (forall wd params wd' psh ret,
      pl_dispatch_compute wd params = Some (wd', psh, ret) ->
      exists evs, trace wd' = trace wd ++ evs /\
                  count_runs evs = (if ret then 1 else 0)%nat) /\
  (forall wd params wd' psh ret,
      pl_dispatch_vertex wd params = Some (wd', psh, ret) ->
      exists evs, trace wd' = trace wd ++ evs /\
                  count_runs evs = (if ret then 1 else 0)%nat).
Proof.
  split; [|split].
  - intros wd params wd' psh ret H. unfold pl_dispatch_finish in H.
    destruct (p_shader params) as [a|]; [|discriminate].
    destruct (nth_error (heap wd) a) as [sh|]; [|discriminate].
    destruct (dispatch_finish_body wd sh params) as [[[wd1 sh1] r]|] eqn:E;
      [|discriminate].
    assert (H' : dispatch_return a (wd1, sh1, r) = (wd', psh, ret))
      by (cbn [option_map] in H; congruence).
    apply dispatch_return_trace in H'. destruct H' as [-> ->].
    eapply dispatch_finish_body_runs; eassumption.
  - intros wd params wd' psh ret H. unfold pl_dispatch_compute in H.
    destruct (cp_shader params) as [a|]; [|discriminate].
    destruct (nth_error (heap wd) a) as [sh|]; [|discriminate].
    destruct (dispatch_compute_body wd sh params) as [[[wd1 sh1] r]|] eqn:E;
      [|discriminate].
    assert (H' : dispatch_return a (wd1, sh1, r) = (wd', psh, ret))
      by (cbn [option_map] in H; congruence).
    apply dispatch_return_trace in H'. destruct H' as [-> ->].
    eapply dispatch_compute_body_runs; eassumption.
  - intros wd params wd' psh ret H. unfold pl_dispatch_vertex in H.
    destruct (vp_shader params) as [a|]; [|discriminate].
    destruct (nth_error (heap wd) a) as [sh|]; [|discriminate].
    destruct (dispatch_vertex_body wd sh params) as [[[wd1 sh1] r]|] eqn:E;
      [|discriminate].
    assert (H' : dispatch_return a (wd1, sh1, r) = (wd', psh, ret))
      by (cbn [option_map] in H; congruence).
    apply dispatch_return_trace in H'. destruct H' as [-> ->].
    eapply dispatch_vertex_body_runs; eassumption.
Qed.
End RunFacts.

(** ** The loaded programs: from the cache to the backend *)

Section CacheUse.
Context {fns : pl_gpu_fns} {lib : shader_lib} {libc : libc_qsort}.

(** X15. A loaded program is used once. When [find_pass] builds a new
    record and a loaded entry has the signature of the shader, the first
    such entry leaves the list of loaded programs and every pass creation of
    the call hands its program to the backend; without such an entry the
    list is unchanged and the backend gets no program. When [find_pass]
    finds a record, it changes neither the list nor the trace. *)
Theorem find_pass_consumes_cached wd sh target vert_pos blend load vparams
        out_proj wd' sh' k :
  find_pass wd sh target vert_pos blend load vparams out_proj
    = Some (wd', sh', k) ->
  exists evs,
    trace wd' = trace wd ++ evs /\
    match scan_passes (uint64 (pl_shader_signature sh))
                      (pl_shader_is_compute sh) target blend load vparams
                      (passes (dp wd)) 0 with
    | ScanMiss =>
        match find_cached (uint64 (pl_shader_signature sh))
                          (cached_passes (dp wd)) 0 with
        | Some (i, c) =>
            cached_passes (dp wd')
            = PL_ARRAY_REMOVE_AT (cached_passes (dp wd)) i /\
            forall s params q, In (EvPassCreate s params q) evs ->
              s = uint64 (pl_shader_signature sh) /\
              cached_program params = cached_program_ c
        | None =>
            cached_passes (dp wd') = cached_passes (dp wd) /\
            forall s params q, In (EvPassCreate s params q) evs ->
              s = uint64 (pl_shader_signature sh) /\
              cached_program params = []
        end
    | _ => cached_passes (dp wd') = cached_passes (dp wd) /\ evs = []
    end.
Proof.
  unfold find_pass. intros H.
  destruct (scan_passes _ _ _ _ _ _ _ _); [| |discriminate].
  - destruct (nth_error _ _); [|discriminate].
    injection H as <- <- <-. exists []. simpl. now rewrite app_nil_r.
  - destruct (build_pass _ _ _ _ _ _ _ _ _) as [[wd0 b]|] eqn:E;
      [|discriminate].
    injection H as <- <- <-. simpl.
    apply build_pass_frame in E. destruct E as (_ & (e1 & E1 & F1 & _) & Hc).
    destruct (gc_trace wd0) as (e2 & E2 & F2).
    destruct (gc_frame wd0) as (_ & _ & G).
    exists (e1 ++ e2). rewrite E2, E1, app_assoc. split; [reflexivity|].
    rewrite G.
    assert (Hev : forall s params q, In (EvPassCreate s params q) (e1 ++ e2) ->
                    s = uint64 (pl_shader_signature sh) /\
                    cached_program params = cached_program (b_params b)).
    { intros s params q Hin. apply in_app_or in Hin. destruct Hin as [Hin|Hin].
      - rewrite Forall_forall in F1. apply F1 in Hin. simpl in Hin.
        destruct Hin as (-> & -> & _). split; reflexivity.
      - rewrite Forall_forall in F2. apply F2 in Hin. contradiction. }
    destruct (find_cached _ _ 0) as [[i c]|]; destruct Hc as [Hc1 Hc2];
      (split; [exact Hc1|]); intros s params q Hin;
      destruct (Hev s params q Hin) as [-> ->]; split; auto.
Qed.
End CacheUse.

(** ** Saving and loading: sizes and what is left alone *)

Definition entries_size (es : list (Z * list byte)) : Z :=
  fold_right (fun e acc => 16 + Z.of_nat (length (snd e)) + acc) 0 es.

Lemma length_encode_entries es :
  Z.of_nat (length (flat_map encode_entry es)) = entries_size es.
Proof.
  induction es as [|e es IH]; [reflexivity|].
  cbn [flat_map entries_size fold_right]. fold (entries_size es).
  rewrite length_app, Nat2Z.inj_add, IH. unfold encode_entry.
  rewrite !length_app, !length_le_split. lia.
Qed.

Lemma save_cached_passes_some l : forall out out',
  save_cached_passes out l = Some out' ->
  Forall (fun c => cached_program_ c <> []) l.
Proof.
  induction l as [|c l IH]; intros out out' H; [constructor|].
  cbn [save_cached_passes] in H.
  rewrite WRITE64_spec in H. cbn [bind] in H.
  rewrite WRITE64_spec in H. cbn [bind] in H.
  destruct (cached_program_ c) as [|x prog] eqn:Ec; [discriminate H|].
  cbn [write_buf bind] in H. apply IH in H.
  constructor; [rewrite Ec; discriminate|exact H].
Qed.

(** X16. [pl_dispatch_save] writes the 12 bytes of the header and, for
    every entry, 16 bytes and the program: that is the size it returns. It
    runs into the assertion of [write_buf] exactly when a loaded entry has
    an empty program. *)
Theorem save_bytes_size (d : pl_dispatch) :
  (Forall (fun c => cached_program_ c <> []) (cached_passes d) ->
   exists out, save_bytes d = Some out /\
               Z.of_nat (length out) = 12 + entries_size (saved_entries d)) /\
  (forall out, save_bytes d = Some out ->
               Forall (fun c => cached_program_ c <> []) (cached_passes d)).
Proof.
  split.
  - intros Hne. rewrite (save_bytes_spec d Hne). eexists. split; [reflexivity|].
    rewrite length_app, Nat2Z.inj_add, length_encode_entries.
    unfold cache_header. rewrite !length_app, !length_le_split.
    reflexivity.
  - intros out H. unfold save_bytes in H.
    rewrite write_buf_nonempty in H by discriminate. cbn [bind] in H.
    rewrite WRITE32_spec in H. cbn [bind] in H.
    rewrite WRITE32_spec in H. cbn [bind] in H.
    rewrite save_passes_spec in H. cbn [bind] in H.
    eapply save_cached_passes_some; eassumption.
Qed.

Lemma LOAD_length n cache pos r :
  LOAD n cache pos = Some r -> length (fst r) = n /\ snd r = (pos + n)%nat.
Proof.
  unfold LOAD. destruct (pos + n <=? length cache)%nat eqn:E; [|discriminate].
  intros H. injection H as <-. simpl. apply Nat.leb_le in E.
  split; [|reflexivity]. rewrite length_firstn, length_skipn. lia.
Qed.

Lemma skip_compiled_logs sig sz l : forall pos,
  Forall is_log (snd (skip_compiled sig sz l pos)).
Proof.
  induction l as [|p l IH]; intros pos; simpl; [constructor|].
  destruct (signature p =? sig); [|apply IH].
  specialize (IH (pos + sz)%nat).
  destruct (skip_compiled sig sz l (pos + sz)). simpl in *.
  constructor; [exact I|exact IH].
Qed.

(** What [pl_dispatch_load] leaves alone. *)
Definition same_but_cached (d d' : pl_dispatch) : Prop :=
  gpu d' = gpu d /\ current_ident d' = current_ident d /\
  current_index d' = current_index d /\ max_passes d' = max_passes d /\
  shaders d' = shaders d /\ passes d' = passes d.

Lemma load_entry_frame d cache pos d' pos' evs :
  load_entry d cache pos = Some (d', pos', evs) ->
  same_but_cached d d' /\ Forall is_log evs /\
  (length (cached_passes d) <= length (cached_passes d'))%nat /\
  (Forall (fun c => cached_program_ c <> []) (cached_passes d) ->
   Forall (fun c => cached_program_ c <> []) (cached_passes d')).
Proof.
  unfold load_entry, same_but_cached. intros H.
  destruct (LOAD 8 cache pos) as [r1|]; [|discriminate]. cbn [bind] in H.
  destruct (LOAD 8 cache (snd r1)) as [r2|]; [|discriminate]. cbn [bind] in H.
  destruct (le_combine (fst r2) =? 0) eqn:Ez.
  { injection H as <- <- <-. repeat split; auto. }
  pose proof (skip_compiled_logs (le_combine (fst r1))
                (Z.to_nat (le_combine (fst r2))) (passes d) (snd r2)) as Hl.
  destruct (skip_compiled _ _ _ _) as [pos2 evs2]. simpl in Hl.
  apply Z.eqb_neq in Ez.
  pose proof (le_combine_bound (fst r2)) as Hb.
  destruct (find_cached (le_combine (fst r1)) (cached_passes d) 0)
    as [[i c]|] eqn:Ef;
    (destruct (LOAD (Z.to_nat (le_combine (fst r2))) cache pos2) as [r3|] eqn:L3;
     [|discriminate]); cbn [bind] in H; injection H as <- <- <-;
    apply LOAD_length in L3; destruct L3 as [L3 _];
    assert (Hne : fst r3 <> [])
      by (intros E0; rewrite E0 in L3; simpl in L3; lia);
    simpl.
  - split; [repeat split|].
    split; [apply Forall_app; split; [exact Hl|repeat constructor]|].
    split; [rewrite length_array_set; lia|].
    intros Hall. apply Forall_array_set; assumption.
  - split; [repeat split|].
    split; [apply Forall_app; split; [exact Hl|repeat constructor]|].
    rewrite array_set_last.
    split; [rewrite length_app; simpl; lia|].
    intros Hall. apply Forall_app. split; [exact Hall|].
    constructor; [exact Hne|constructor].
Qed.

Lemma load_entries_frame n : forall d cache pos d' pos' evs,
  load_entries n d cache pos = Some (d', pos', evs) ->
  same_but_cached d d' /\ Forall is_log evs /\
  (length (cached_passes d) <= length (cached_passes d'))%nat /\
  (Forall (fun c => cached_program_ c <> []) (cached_passes d) ->
   Forall (fun c => cached_program_ c <> []) (cached_passes d')).
Proof.
  induction n as [|n IH]; intros d cache pos d' pos' evs H.
  - simpl in H. injection H as <- <- <-. unfold same_but_cached.
    repeat split; auto.
  - simpl in H.
    destruct (load_entry d cache pos) as [[[d1 pos1] e1]|] eqn:E1;
      [|discriminate].
    cbn [bind] in H.
    destruct (load_entries n d1 cache pos1) as [[[d2 pos2] e2]|] eqn:E2;
      [|discriminate].
    cbn [bind] in H. injection H as <- <- <-.
    apply load_entry_frame in E1. apply IH in E2.
    destruct E1 as (A1 & A2 & A3 & A4). destruct E2 as (B1 & B2 & B3 & B4).
    unfold same_but_cached in *.
    destruct A1 as (? & ? & ? & ? & ? & ?).
    destruct B1 as (? & ? & ? & ? & ? & ?).
    split; [repeat split; congruence|].
    split; [apply Forall_app; split; assumption|].
    split; [lia|auto].
Qed.


(** ** The passes and buffers of the backend: created, live, destroyed *)

Definition pass_of (p : pass) : list pl_pass :=
  match pass_ p with Some q => [q] | None => [] end.

Definition buf_of (p : pass) : list pl_buf :=
  match ubo p with Some b => [b] | None => [] end.

(** The passes and uniform buffers that the records hold. *)
Definition live_passes (l : list pass) : list pl_pass := flat_map pass_of l.
Definition live_bufs (l : list pass) : list pl_buf := flat_map buf_of l.

(** The passes and buffers that the backend handed out, and those it was
    asked to destroy, in the order of the trace. *)
Definition created_passes (tr : list event) : list pl_pass :=
  flat_map (fun e => match e with
                     | EvPassCreate _ _ (Some q) => [q]
                     | _ => []
                     end) tr.

Definition destroyed_passes (tr : list event) : list pl_pass :=
  flat_map (fun e => match e with EvPassDestroy q => [q] | _ => [] end) tr.

Definition created_bufs (tr : list event) : list pl_buf :=
  flat_map (fun e => match e with
                     | EvBufCreate _ (Some b) => [b]
                     | _ => []
                     end) tr.

Definition destroyed_bufs (tr : list event) : list pl_buf :=
  flat_map (fun e => match e with EvBufDestroy b => [b] | _ => [] end) tr.

(** Every pass and buffer that was created and not destroyed is held by
    exactly one record, and nothing was destroyed twice. *)
Definition balanced (wd : world) : Prop :=
  Permutation (created_passes (trace wd))
              (destroyed_passes (trace wd) ++ live_passes (passes (dp wd))) /\
  Permutation (created_bufs (trace wd))
              (destroyed_bufs (trace wd) ++ live_bufs (passes (dp wd))).

(** Events that neither create nor destroy. *)
Definition is_resource (e : event) : bool :=
  match e with
  | EvBufCreate _ (Some _) | EvBufDestroy _
  | EvPassCreate _ _ (Some _) | EvPassDestroy _ => true
  | _ => false
  end.

Definition quiet (evs : list event) : Prop :=
  Forall (fun e => is_resource e = false) evs.

Lemma quiet_spec evs :
  quiet evs ->
  created_passes evs = [] /\ destroyed_passes evs = [] /\
  created_bufs evs = [] /\ destroyed_bufs evs = [].
Proof.
  unfold created_passes, destroyed_passes, created_bufs, destroyed_bufs.
  induction 1 as [|e l He Hl IH]; [repeat split|].
  destruct IH as (I1 & I2 & I3 & I4). cbn [flat_map].
  rewrite I1, I2, I3, I4.
  destruct e as [? ?|? []|?|? ? ?|? ? []|?|?]; simpl in He; try discriminate He;
    repeat split.
Qed.

Lemma quiet_logs evs : Forall is_log evs -> quiet evs.
Proof.
  apply Forall_impl. intros [] H; simpl in *; auto; contradiction.
Qed.

Lemma quiet_app a b : quiet a -> quiet b -> quiet (a ++ b).
Proof. intros Ha Hb. apply Forall_app. split; assumption. Qed.

Lemma balanced_emit wd evs : balanced wd -> quiet evs -> balanced (emit wd evs).
Proof.
  intros [Hp Hb] Hq. apply quiet_spec in Hq. destruct Hq as (Q1 & Q2 & Q3 & Q4).
  unfold balanced, created_passes, destroyed_passes, created_bufs,
    destroyed_bufs in *. simpl.
  rewrite !flat_map_app.
  unfold created_passes, destroyed_passes, created_bufs, destroyed_bufs in *.
  rewrite Q1, Q2, Q3, Q4, !app_nil_r. split; assumption.
Qed.

Lemma live_array_set l : forall i p p',
  nth_error l i = Some p -> pass_ p' = pass_ p -> ubo p' = ubo p ->
  live_passes (array_set l i p') = live_passes l /\
  live_bufs (array_set l i p') = live_bufs l.
Proof.
  unfold live_passes, live_bufs.
  induction l as [|a l IH]; intros [|i] p p' Hn Hp Hu; simpl in *;
    try discriminate.
  - injection Hn as ->. unfold pass_of, buf_of. rewrite Hp, Hu. auto.
  - destruct (IH i p p' Hn Hp Hu) as [-> ->]. auto.
Qed.

Lemma balanced_store wd i p p' :
  balanced wd -> nth_error (passes (dp wd)) i = Some p ->
  pass_ p' = pass_ p -> ubo p' = ubo p ->
  balanced (store_pass wd i p').
Proof.
  intros [Hp Hb] Hn E1 E2. unfold balanced, store_pass. simpl.
  destruct (@live_array_set _ _ _ _ Hn E1 E2) as [-> ->]. split; assumption.
Qed.

Lemma pass_destroy_resources l :
  created_passes (flat_map pass_destroy l) = [] /\
  created_bufs (flat_map pass_destroy l) = [] /\
  destroyed_passes (flat_map pass_destroy l) = live_passes l /\
  destroyed_bufs (flat_map pass_destroy l) = live_bufs l.
Proof.
  unfold created_passes, created_bufs, destroyed_passes, destroyed_bufs,
    live_passes, live_bufs.
  induction l as [|p l (I1 & I2 & I3 & I4)]; [repeat split|].
  cbn [flat_map]. rewrite !flat_map_app, I1, I2, I3, I4.
  unfold pass_destroy, pass_of, buf_of.
  destruct (ubo p), (pass_ p); repeat split.
Qed.

(** A collection moves what the evicted records hold from the live to the
    destroyed. *)
Lemma gc_resources {libc : libc_qsort} wd :
  exists evicted,
    Permutation (passes (dp wd))
                (passes (dp (garbage_collect_passes wd)) ++ evicted) /\
    created_passes (trace (garbage_collect_passes wd))
      = created_passes (trace wd) /\
    created_bufs (trace (garbage_collect_passes wd))
      = created_bufs (trace wd) /\
    destroyed_passes (trace (garbage_collect_passes wd))
      = destroyed_passes (trace wd) ++ live_passes evicted /\
    destroyed_bufs (trace (garbage_collect_passes wd))
      = destroyed_bufs (trace wd) ++ live_bufs evicted.
Proof.
  unfold garbage_collect_passes.
  destruct (Z.of_nat (length (passes (dp wd))) <=? max_passes (dp wd)).
  - exists []. rewrite !app_nil_r. repeat split; auto.
  - set (elem := qsort cmp_pass_age (passes (dp wd))).
    set (idx := skip_young _ _ _).
    exists (skipn idx elem).
    destruct (pass_destroy_resources (skipn idx elem)) as (D1 & D2 & D3 & D4).
    unfold created_passes, created_bufs, destroyed_passes, destroyed_bufs in *.
    destruct (negb _); simpl;
      (split; [rewrite firstn_skipn; apply qsort_perm|]);
      rewrite !flat_map_app, ?D1, ?D2, ?D3, ?D4;
      simpl; rewrite ?app_nil_r; repeat split; reflexivity.
Qed.

Lemma balance_step {A} (c d l k e pb : list A) :
  Permutation c (d ++ l) -> Permutation l (k ++ e) ->
  Permutation (c ++ pb) ((d ++ e) ++ (k ++ pb)).
Proof.
  intros H1 H2.
  apply Permutation_trans with ((d ++ l) ++ pb);
    [apply Permutation_app_tail, H1|].
  apply Permutation_trans with ((d ++ (k ++ e)) ++ pb);
    [apply Permutation_app_tail, Permutation_app_head, H2|].
  rewrite <- !app_assoc. apply Permutation_app_head.
  rewrite !app_assoc. apply Permutation_app_tail. apply Permutation_app_comm.
Qed.

Lemma flat_map_perm_app {A B} (f : A -> list B) l k e :
  Permutation l (k ++ e) ->
  Permutation (flat_map f l) (flat_map f k ++ flat_map f e).
Proof.
  intros H. rewrite <- flat_map_app. exact (Permutation_flat_map f H).
Qed.

(** The loaded programs are in order: none is empty and no signature
    occurs twice. *)
Definition cached_ok (d : pl_dispatch) : Prop :=
  Forall (fun c => cached_program_ c <> []) (cached_passes d) /\
  NoDup (map cp_signature (cached_passes d)).

Lemma In_remove_at {A} (l : list A) i x :
  In x (PL_ARRAY_REMOVE_AT l i) -> In x l.
Proof.
  unfold PL_ARRAY_REMOVE_AT. intros H.
  rewrite <- (firstn_skipn i l). apply in_app_or in H. apply in_or_app.
  destruct H as [H|H]; [left; exact H|right].
  clear -H. revert l H. induction i as [|i IH]; intros [|a l] H; simpl in *;
    auto.
Qed.

Lemma remove_at_cons {A} (a : A) l i :
  PL_ARRAY_REMOVE_AT (a :: l) (S i) = a :: PL_ARRAY_REMOVE_AT l i.
Proof. reflexivity. Qed.

Lemma NoDup_remove_at {A B} (f : A -> B) l : forall i,
  NoDup (map f l) -> NoDup (map f (PL_ARRAY_REMOVE_AT l i)).
Proof.
  induction l as [|a l IH]; intros i H.
  - unfold PL_ARRAY_REMOVE_AT. rewrite firstn_nil, skipn_nil. constructor.
  - inversion H as [|? ? Hn Hd]; subst. destruct i as [|i].
    + exact Hd.
    + rewrite remove_at_cons. simpl. constructor; [|apply IH, Hd].
      intros Hin. apply Hn. apply in_map_iff in Hin.
      destruct Hin as (x & Hx & Hin). apply In_remove_at in Hin.
      apply in_map_iff. eauto.
Qed.

Lemma cached_ok_remove_at d i :
  cached_ok d ->
  cached_ok (set_cached_passes d (PL_ARRAY_REMOVE_AT (cached_passes d) i)).
Proof.
  intros [Hne Hnd]. split; simpl.
  - unfold PL_ARRAY_REMOVE_AT. apply Forall_app.
    split; [apply Forall_firstn|apply Forall_skipn_of]; exact Hne.
  - apply NoDup_remove_at, Hnd.
Qed.

Lemma find_cached_found sig l : forall i0 i c,
  find_cached sig l i0 = Some (i, c) ->
  exists k, i = (i0 + k)%nat /\ nth_error l k = Some c /\ cp_signature c = sig.
Proof.
  induction l as [|c0 l IH]; intros i0 i c H; simpl in H; [discriminate|].
  destruct (cp_signature c0 =? sig) eqn:E.
  - injection H as <- <-. apply Z.eqb_eq in E. exists 0%nat.
    split; [lia|]. split; [reflexivity|exact E].
  - apply IH in H. destruct H as (k & -> & Hn & Hc).
    exists (S k). split; [lia|]. split; assumption.
Qed.

Lemma find_cached_absent sig l : forall i0,
  find_cached sig l i0 = None -> ~ In sig (map cp_signature l).
Proof.
  induction l as [|c0 l IH]; intros i0 H; simpl in *; [tauto|].
  destruct (cp_signature c0 =? sig) eqn:E; [discriminate|].
  apply Z.eqb_neq in E. intros [Hin|Hin]; [contradiction|].
  exact (IH _ H Hin).
Qed.

Lemma map_array_set_same {A B} (f : A -> B) l : forall i x y,
  nth_error l i = Some x -> f y = f x ->
  map f (array_set l i y) = map f l.
Proof.
  induction l as [|a l IH]; intros [|i] x y Hn Hf; simpl in *;
    try discriminate.
  - injection Hn as ->. now rewrite Hf.
  - f_equal. eapply IH; eassumption.
Qed.

Lemma NoDup_snoc {A} (l : list A) x : NoDup l -> ~ In x l -> NoDup (l ++ [x]).
Proof.
  induction 1 as [|a l Ha Hl IH]; intros Hx; simpl.
  - constructor; [tauto|constructor].
  - constructor.
    + rewrite in_app_iff. simpl in *. intros [H|[H|[]]]; [tauto|].
      apply Hx. now left.
    + apply IH. simpl in Hx. tauto.
Qed.

Lemma load_entry_nodup d cache pos d' pos' evs :
  load_entry d cache pos = Some (d', pos', evs) ->
  NoDup (map cp_signature (cached_passes d)) ->
  NoDup (map cp_signature (cached_passes d')).
Proof.
  unfold load_entry. intros H Hnd.
  destruct (LOAD 8 cache pos) as [r1|]; [|discriminate]. cbn [bind] in H.
  destruct (LOAD 8 cache (snd r1)) as [r2|]; [|discriminate]. cbn [bind] in H.
  destruct (le_combine (fst r2) =? 0).
  { injection H as <- <- <-. exact Hnd. }
  destruct (skip_compiled _ _ _ _) as [pos2 evs2].
  destruct (find_cached (le_combine (fst r1)) (cached_passes d) 0)
    as [[i c]|] eqn:Ef;
    (destruct (LOAD (Z.to_nat (le_combine (fst r2))) cache pos2) as [r3|];
     [|discriminate]); cbn [bind] in H; injection H as <- <- <-; simpl.
  - apply find_cached_found in Ef. destruct Ef as (k & -> & Hn & Hc).
    simpl. erewrite map_array_set_same; [exact Hnd|exact Hn|].
    simpl. now rewrite Hc.
  - apply find_cached_absent in Ef. rewrite array_set_last, map_app. simpl.
    apply NoDup_snoc; assumption.
Qed.

(** The run parameters of a record name the pass of the record. *)
Definition runs_own_pass (p : pass) : Prop := rp_pass (run_params p) = pass_ p.

(** The collection holds at most one record more than its capacity, which
    never falls below [MAX_PASSES]. *)
Definition bounded (d : pl_dispatch) : Prop :=
  MAX_PASSES <= max_passes d /\
  Z.of_nat (length (passes d)) <= max_passes d + 1.

(** The two counters are bytes. *)
Definition counters_ok (d : pl_dispatch) : Prop :=
  0 <= current_index d < 256 /\ 0 <= current_ident d < 256.

Definition inv (wd : world) : Prop :=
  balanced wd /\ cached_ok (dp wd) /\
  Forall runs_own_pass (passes (dp wd)) /\
  bounded (dp wd) /\ counters_ok (dp wd).

Lemma inv_emit wd evs : inv wd -> quiet evs -> inv (emit wd evs).
Proof.
  intros (Hb & Hc & Hr & Hn & Hk) Hq.
  split; [apply balanced_emit; assumption|].
  split; [exact Hc|split; [exact Hr|split; [exact Hn|exact Hk]]].
Qed.

Lemma inv_store wd i p p' :
  inv wd -> nth_error (passes (dp wd)) i = Some p ->
  pass_ p' = pass_ p -> ubo p' = ubo p ->
  rp_pass (run_params p') = rp_pass (run_params p) ->
  inv (store_pass wd i p').
Proof.
  intros (Hb & Hc & Hr & Hn & Hk) En E1 E2 E3.
  split; [eapply balanced_store; eassumption|]. split; [exact Hc|].
  split; [|split; [|exact Hk]].
  - simpl. apply Forall_array_set; [exact Hr|].
    rewrite Forall_forall in Hr. apply nth_error_In in En.
    specialize (Hr p En). unfold runs_own_pass in *. congruence.
  - unfold bounded in *. simpl. rewrite length_array_set. exact Hn.
Qed.

(** A collection followed by the append of one record stays within one
    record of the capacity. *)
Lemma gc_bounded {libc : libc_qsort} wd :
  bounded (dp wd) ->
  MAX_PASSES <= max_passes (dp (garbage_collect_passes wd)) /\
  Z.of_nat (length (passes (dp (garbage_collect_passes wd)))) + 1
  <= max_passes (dp (garbage_collect_passes wd)) + 1.
Proof.
  intros [Hm Hl]. unfold garbage_collect_passes.
  destruct (Z.of_nat (length (passes (dp wd))) <=? max_passes (dp wd)) eqn:E.
  - apply Z.leb_le in E. split; [exact Hm|lia].
  - apply Z.leb_gt in E.
    destruct (evicted_are_old (dp wd) (passes (dp wd))) as [Hidx _].
    set (elem := qsort cmp_pass_age (passes (dp wd))) in *.
    set (idx := skip_young (dp wd) _ _) in *.
    assert (Hlen : length elem = length (passes (dp wd)))
      by (symmetry; apply Permutation_length, qsort_perm).
    unfold MAX_PASSES in *.
    destruct (Nat.eqb (length (passes (dp wd)) - idx) 0) eqn:En; simpl;
      rewrite length_firstn, Hlen.
    + apply Nat.eqb_eq in En. split; lia.
    + apply Nat.eqb_neq in En. split; lia.
Qed.

Lemma load_entries_nodup n : forall d cache pos d' pos' evs,
  load_entries n d cache pos = Some (d', pos', evs) ->
  NoDup (map cp_signature (cached_passes d)) ->
  NoDup (map cp_signature (cached_passes d')).
Proof.
  induction n as [|n IH]; intros d cache pos d' pos' evs H Hnd.
  - simpl in H. injection H as <- <- <-. exact Hnd.
  - simpl in H.
    destruct (load_entry d cache pos) as [[[d1 pos1] e1]|] eqn:E1;
      [|discriminate].
    cbn [bind] in H.
    destruct (load_entries n d1 cache pos1) as [[[d2 pos2] e2]|] eqn:E2;
      [|discriminate].
    cbn [bind] in H. injection H as <- <- <-.
    eapply IH; [exact E2|]. eapply load_entry_nodup; eassumption.
Qed.

Lemma load_inv wd cache wd' :
  pl_dispatch_load wd cache = Some wd' -> inv wd -> inv wd'.
Proof.
  unfold pl_dispatch_load. intros H Hinv.
  destruct (LOAD 4 cache 0) as [r0|]; [|discriminate]. cbn [bind] in H.
  destruct (negb _).
  { injection H as <-. apply inv_emit; [exact Hinv|repeat constructor]. }
  destruct (LOAD 4 cache (snd r0)) as [r1|]; [|discriminate]. cbn [bind] in H.
  destruct (negb _).
  { injection H as <-. apply inv_emit; [exact Hinv|repeat constructor]. }
  destruct (LOAD 4 cache (snd r1)) as [r2|]; [|discriminate]. cbn [bind] in H.
  destruct (load_entries _ _ _ _) as [[[d p] e]|] eqn:E; [|discriminate].
  cbn [bind] in H. injection H as <-.
  pose proof (load_entries_nodup _ _ _ _ E) as Hnd.
  apply load_entries_frame in E.
  destruct E as ((_ & Ei & Ex & Em & _ & Ep) & El & _ & Hne).
  destruct Hinv as ([Hb1 Hb2] & [Hc1 Hc2] & Hr & Hn & Hk).
  apply quiet_logs, quiet_spec in El. destruct El as (Q1 & Q2 & Q3 & Q4).
  split; [|split; [split; simpl; auto|]].
  2:{ unfold bounded, counters_ok in *. simpl. rewrite Ep, Em, Ei, Ex.
      repeat split; try tauto. }
  unfold balanced, created_passes, destroyed_passes, created_bufs,
    destroyed_bufs in *. simpl.
  rewrite !flat_map_app, Q1, Q2, Q3, Q4, !app_nil_r, Ep. split; assumption.
Qed.

Section ResourceFacts.
Context {fns : pl_gpu_fns} {lib : shader_lib} {libc : libc_qsort}.

(** The construction creates what the record under construction holds. *)
Lemma build_pass_resources wd sh sig target vert_pos blend load vparams
      out_proj wd1 b :
  build_pass wd sh sig target vert_pos blend load vparams out_proj
    = Some (wd1, b) ->
  exists evs,
    trace wd1 = trace wd ++ evs /\
    created_passes evs = match b_pass b with Some q => [q] | None => [] end /\
    created_bufs evs = match b_ubo b with Some u => [u] | None => [] end /\
    destroyed_passes evs = [] /\ destroyed_bufs evs = [] /\
    rp_pass (b_rparams b) = b_pass b.
Proof.
  unfold build_pass, failed_build. intros H.
  destruct (find_cached sig (cached_passes (dp wd)) 0) as [[i c]|];
    solve_by_cases H; simpl.
  all: repeat match goal with
              | E : place_vars _ _ _ _ _ _ = _ |- _ =>
                  apply place_vars_events in E;
                  destruct E as (E & _);
                  apply quiet_logs, quiet_spec in E;
                  destruct E as (? & ? & ? & ?)
              end.
  all: rewrite <- ?app_assoc.
  all: eexists; split; [reflexivity|].
  all: unfold created_passes, destroyed_passes, created_bufs,
         destroyed_bufs in *.
  all: rewrite ?flat_map_app.
  all: repeat match goal with
              | E : flat_map _ ?l = [] |- _ => rewrite E; clear E
              end.
  all: simpl.
  all: try match goal with
           | E : option_map _ ?c = _ |- _ => destruct c; simpl in E
           end.
  all: try discriminate.
  all: repeat match goal with
              | E : Some _ = Some _ |- _ => injection E as <-
              | E : None = Some _ |- _ => discriminate E
              | E : Some _ = None |- _ => discriminate E
              end.
  all: simpl; repeat split; reflexivity.
Qed.

Lemma find_pass_inv wd sh target vert_pos blend load vparams out_proj
      wd' sh' i :
  find_pass wd sh target vert_pos blend load vparams out_proj
    = Some (wd', sh', i) ->
  inv wd -> inv wd'.
Proof.
  unfold find_pass. intros H Hinv.
  destruct (scan_passes _ _ _ _ _ _ _ _) as [k| |]; [| |discriminate].
  - destruct (nth_error (passes (dp wd)) k) as [p|] eqn:En; [|discriminate].
    injection H as <- <- <-.
    apply (@inv_store wd k p); auto.
  - destruct (build_pass _ _ _ _ _ _ _ _ _) as [[wd0 b]|] eqn:E;
      [|discriminate].
    injection H as <- <- <-.
    pose proof (build_pass_resources _ _ _ _ _ _ _ _ _ E)
      as (evs & Et & C1 & C2 & D1 & D2 & Rb).
    apply build_pass_frame in E.
    destruct E as ((Ep & Ei & Ex & Em & _) & _ & Ec).
    destruct (gc_resources wd0) as (ev & Gp & G1 & G2 & G3 & G4).
    destruct (gc_frame wd0) as (Gi & Gx & Gc).
    destruct Hinv as ([Hb1 Hb2] & Hc & Hr & Hn & Hk).
    assert (Hn0 : bounded (dp wd0))
      by (unfold bounded in *; rewrite Ep, Em; exact Hn).
    apply gc_bounded in Hn0.
    split; [|split; [|split; [|split]]].
    + unfold balanced. simpl. unfold PL_ARRAY_APPEND.
      unfold live_passes, live_bufs in *. rewrite !flat_map_app. simpl.
      rewrite !app_nil_r. rewrite G1, G2, G3, G4, Et.
      unfold created_passes, created_bufs, destroyed_passes,
        destroyed_bufs in *.
      rewrite !flat_map_app, C1, C2, D1, D2, !app_nil_r.
      rewrite Ep in Gp.
      split; (eapply balance_step;
              [eassumption|apply flat_map_perm_app, Gp]).
    + simpl.
      assert (Hc0 : cached_ok (dp wd0)).
      { destruct (find_cached _ _ 0) as [[j c]|]; destruct Ec as [Ec _].
        - pose proof (cached_ok_remove_at j Hc) as Hr0.
          unfold cached_ok in *. simpl in Hr0. rewrite Ec. exact Hr0.
        - unfold cached_ok in *. rewrite Ec. exact Hc. }
      unfold cached_ok in *. simpl. rewrite Gc. exact Hc0.
    + simpl. unfold PL_ARRAY_APPEND. apply Forall_app. split.
      * apply gc_Forall. rewrite Ep. exact Hr.
      * constructor; [exact Rb|constructor].
    + unfold bounded. simpl. unfold PL_ARRAY_APPEND.
      rewrite length_app, Nat2Z.inj_add. simpl. exact Hn0.
    + unfold counters_ok in *. simpl. rewrite Gi, Gx, Ei, Ex. exact Hk.
Qed.

Lemma update_pass_var_rp_pass u rp sv pv pv' rp' evs :
  update_pass_var u rp sv pv = Some (pv', rp', evs) ->
  rp_pass rp' = rp_pass rp.
Proof.
  unfold update_pass_var. intros H. solve_by_cases H; reflexivity.
Qed.

Lemma update_pass_vars_rp_pass u svs : forall rp pvs pvs' rp' evs,
  update_pass_vars u rp svs pvs = Some (pvs', rp', evs) ->
  rp_pass rp' = rp_pass rp.
Proof.
  induction svs as [|sv svs IH]; intros rp pvs pvs' rp' evs H.
  - simpl in H. injection H as <- <- <-. reflexivity.
  - destruct pvs as [|pv pvs]; [discriminate|]. simpl in H.
    destruct (update_pass_var u rp sv pv) as [[[pv1 rp1] e1]|] eqn:E1;
      [|discriminate].
    destruct (update_pass_vars u rp1 svs pvs) as [[[pvs2 rp3] e2]|] eqn:E2;
      [|discriminate].
    injection H as <- <- <-.
    apply update_pass_var_rp_pass in E1. apply IH in E2. congruence.
Qed.

Lemma update_pass_var_quiet u rp sv pv pv' rp' evs :
  update_pass_var u rp sv pv = Some (pv', rp', evs) -> quiet evs.
Proof.
  unfold update_pass_var. intros H. solve_by_cases H; repeat constructor.
Qed.

Lemma update_pass_vars_quiet u svs : forall rp pvs pvs' rp' evs,
  update_pass_vars u rp svs pvs = Some (pvs', rp', evs) -> quiet evs.
Proof.
  induction svs as [|sv svs IH]; intros rp pvs pvs' rp' evs H.
  - simpl in H. injection H as <- <- <-. constructor.
  - destruct pvs as [|pv pvs]; [discriminate|]. simpl in H.
    destruct (update_pass_var u rp sv pv) as [[[pv1 rp1] e1]|] eqn:E1;
      [|discriminate].
    destruct (update_pass_vars u rp1 svs pvs) as [[[pvs2 rp3] e2]|] eqn:E2;
      [|discriminate].
    injection H as <- <- <-.
    apply quiet_app; [eapply update_pass_var_quiet|eapply IH]; eassumption.
Qed.

Lemma update_bindings_and_vars_resources p sh p' evs :
  update_bindings_and_vars p sh = Some (p', evs) ->
  pass_ p' = pass_ p /\ ubo p' = ubo p /\ quiet evs /\
  rp_pass (run_params p') = rp_pass (run_params p).
Proof.
  unfold update_bindings_and_vars. intros H.
  destruct (_ <? _)%nat; [discriminate|].
  destruct (update_pass_vars _ _ _ _) as [[[pvs rp] e]|] eqn:E;
    [|discriminate].
  injection H as <- <-. simpl. repeat split.
  - eapply update_pass_vars_quiet; eassumption.
  - apply update_pass_vars_rp_pass in E. exact E.
Qed.

Ltac inv_cases H Hinv :=
  body_cases H;
  repeat match goal with
         | E : find_pass _ _ _ _ _ _ _ _ = Some _ |- _ =>
             apply find_pass_inv in E;
             [|solve [repeat (apply inv_emit; [|repeat constructor]);
                      exact Hinv]]
         | E : update_bindings_and_vars _ _ = Some _ |- _ =>
             apply update_bindings_and_vars_resources in E;
             destruct E as (? & ? & ? & ?)
         end;
  first
    [ assumption
    | solve [repeat (apply inv_emit; [|repeat constructor]); exact Hinv]
    | apply inv_emit;
      [ eapply inv_store; [eassumption|eassumption|simpl; congruence..]
      | apply quiet_app; [assumption|repeat constructor] ] ].

Lemma dispatch_finish_body_inv wd sh params wd1 sh1 ret :
  dispatch_finish_body wd sh params = Some (wd1, sh1, ret) ->
  inv wd -> inv wd1.
Proof.
  unfold dispatch_finish_body, dispatch_error. intros H Hinv.
  inv_cases H Hinv.
Qed.

Lemma dispatch_compute_body_inv wd sh params wd1 sh1 ret :
  dispatch_compute_body wd sh params = Some (wd1, sh1, ret) ->
  inv wd -> inv wd1.
Proof.
  unfold dispatch_compute_body, dispatch_error. intros H Hinv.
  inv_cases H Hinv.
Qed.

Lemma dispatch_vertex_body_inv wd sh params wd1 sh1 ret :
  dispatch_vertex_body wd sh params = Some (wd1, sh1, ret) ->
  inv wd -> inv wd1.
Proof.
  unfold dispatch_vertex_body, dispatch_error. intros H Hinv.
  inv_cases H Hinv.
Qed.

Lemma dispatch_return_inv a wd1 sh1 ret wd' psh ret' :
  dispatch_return a (wd1, sh1, ret) = (wd', psh, ret') ->
  inv wd1 -> inv wd'.
Proof.
  unfold dispatch_return, pl_dispatch_abort. simpl.
  intros H Hinv. injection H as <- <- <-. exact Hinv.
Qed.

Variable g : pl_gpu.

(** Every reachable world keeps the books. *)
Lemma reachable_inv wd : reachable g wd -> inv wd.
Proof.
  induction 1 as [|wd u wd' a _ IH H|wd _ IH|wd psh _ IH|wd a sh _ IH
                  |wd params wd' psh ret _ IH H
                  |wd params wd' psh ret _ IH H
                  |wd params wd' psh ret _ IH H
                  |wd cache wd' _ IH H|wd wd' out _ IH H].
  - split; [split; constructor|]. split; [split; constructor|].
    split; [constructor|]. unfold bounded, counters_ok.
    repeat split; vm_compute; first [reflexivity|discriminate].
  - unfold pl_dispatch_begin_ex in H.
    destruct IH as (Hb & Hc & Hr & Hn & Hk).
    assert (Hk' : counters_ok
                    (if u then set_current_ident (dp wd)
                                 (uint8 (current_ident (dp wd) + 1))
                     else dp wd)).
    { destruct u; [|exact Hk]. unfold counters_ok in *. simpl.
      split; [tauto|]. unfold uint8.
      apply Z.mod_pos_bound. reflexivity. }
    destruct u; solve_by_cases H;
      (split; [exact Hb|split; [exact Hc|split; [exact Hr|]]]);
      (split; [exact Hn|exact Hk']).
  - destruct IH as (Hb & Hc & Hr & Hn & Hk).
    split; [exact Hb|split; [exact Hc|split; [exact Hr|]]].
    split; [exact Hn|]. unfold counters_ok. simpl. split; [|lia].
    unfold uint8. apply Z.mod_pos_bound. reflexivity.
  - destruct psh; exact IH.
  - exact IH.
  - unfold pl_dispatch_finish in H.
    destruct (p_shader params) as [a|]; [|discriminate].
    destruct (nth_error (heap wd) a) as [sh|]; [|discriminate].
    destruct (dispatch_finish_body wd sh params) as [[[wd1 sh1] r]|] eqn:E;
      [|discriminate].
    assert (H' : dispatch_return a (wd1, sh1, r) = (wd', psh, ret))
      by (cbn [option_map] in H; congruence).
    eapply dispatch_return_inv; [exact H'|].
    eapply dispatch_finish_body_inv; eassumption.
  - unfold pl_dispatch_compute in H.
    destruct (cp_shader params) as [a|]; [|discriminate].
    destruct (nth_error (heap wd) a) as [sh|]; [|discriminate].
    destruct (dispatch_compute_body wd sh params) as [[[wd1 sh1] r]|] eqn:E;
      [|discriminate].
    assert (H' : dispatch_return a (wd1, sh1, r) = (wd', psh, ret))
      by (cbn [option_map] in H; congruence).
    eapply dispatch_return_inv; [exact H'|].
    eapply dispatch_compute_body_inv; eassumption.
  - unfold pl_dispatch_vertex in H.
    destruct (vp_shader params) as [a|]; [|discriminate].
    destruct (nth_error (heap wd) a) as [sh|]; [|discriminate].
    destruct (dispatch_vertex_body wd sh params) as [[[wd1 sh1] r]|] eqn:E;
      [|discriminate].
    assert (H' : dispatch_return a (wd1, sh1, r) = (wd', psh, ret))
      by (cbn [option_map] in H; congruence).
    eapply dispatch_return_inv; [exact H'|].
    eapply dispatch_vertex_body_inv; eassumption.
  - eapply load_inv; eassumption.
  - unfold pl_dispatch_save in H.
    destruct (save_bytes (dp wd)); [|discriminate].
    cbn [bind] in H. injection H as <- _.
    apply inv_emit; [exact IH|].
    apply quiet_app; apply quiet_logs, Forall_forall;
      intros e He; apply in_map_iff in He; destruct He as (x & <- & _);
      exact I.
Qed.
End ResourceFacts.

(** [pl_dispatch_destroy(ptr)]: the backend calls of the call, which
    does nothing for NULL. (The accumulators of the pool are freed as well;
    they are not backend objects.) *)
Definition pl_dispatch_destroy (ptr : option world) : list event :=
  match ptr with
  | None => []
  | Some wd => flat_map pass_destroy (passes (dp wd))
  end.

Lemma reset_frames_current_index n : forall wd,
  0 <= current_index (dp wd) < 256 ->
  current_index (dp (reset_frames n wd))
  = uint8 (current_index (dp wd) + Z.of_nat n).
Proof.
  induction n as [|n IH]; intros wd Hi.
  - simpl. unfold uint8. rewrite Z.add_0_r, Z.mod_small; [reflexivity|].
    change (2 ^ 8) with 256. exact Hi.
  - change (reset_frames (S n) wd)
      with (reset_frames n (pl_dispatch_reset_frame wd)).
    rewrite IH.
    + simpl current_index. unfold uint8. rewrite Zplus_mod_idemp_l.
      f_equal. lia.
    + simpl. unfold uint8. apply Z.mod_pos_bound. reflexivity.
Qed.

Section Lifetime.
Context {fns : pl_gpu_fns} {lib : shader_lib} {libc : libc_qsort}.

(** What a dispatch that returns true leaves at the end of the trace. *)
Definition ran_record (wd1 : world) : Prop :=
  exists idx p q tr,
    nth_error (passes (dp wd1)) idx = Some p /\ pass_ p = Some q /\
    trace wd1 = tr ++ [EvPassRun (run_params p)].

Ltac ran_cases H :=
  body_cases H;
  match goal with
  | En : nth_error (passes (dp ?w)) ?idx = Some ?p0,
    Ep : pass_ ?p0 = Some ?q,
    Eu : update_bindings_and_vars ?p0 _ = Some (?p1, ?evs)
    |- ran_record (emit (store_pass ?w ?idx (with_run_params ?p1 ?rp)) _) =>
      apply update_bindings_and_vars_resources in Eu;
      destruct Eu as (Eu & _);
      exists idx, (with_run_params p1 rp), q, (trace w ++ evs);
      split; [apply nth_error_array_set, nth_error_Some; congruence|];
      split; [simpl; congruence|simpl; now rewrite app_assoc]
  end.

Lemma dispatch_finish_body_ran wd sh params wd1 sh1 :
  dispatch_finish_body wd sh params = Some (wd1, sh1, true) -> ran_record wd1.
Proof. unfold dispatch_finish_body, dispatch_error. intros H. ran_cases H. Qed.

Lemma dispatch_compute_body_ran wd sh params wd1 sh1 :
  dispatch_compute_body wd sh params = Some (wd1, sh1, true) -> ran_record wd1.
Proof. unfold dispatch_compute_body, dispatch_error. intros H. ran_cases H. Qed.

Lemma dispatch_vertex_body_ran wd sh params wd1 sh1 :
  dispatch_vertex_body wd sh params = Some (wd1, sh1, true) -> ran_record wd1.
Proof. unfold dispatch_vertex_body, dispatch_error. intros H. ran_cases H. Qed.

Lemma dispatch_return_ran a wd1 sh1 ret wd' psh ret' :
  dispatch_return a (wd1, sh1, ret) = (wd', psh, ret') ->
  ret' = ret /\ (ran_record wd1 -> ran_record wd').
Proof.
  unfold dispatch_return, pl_dispatch_abort. simpl.
  intros H. injection H as <- <- <-. split; [reflexivity|].
  intros (idx & p & q & tr & H1 & H2 & H3). exists idx, p, q, tr. auto.
Qed.

(** What the three entry points share: the world after a call that
    returned true. *)
Lemma dispatch_ran wd wd' psh :
  (exists params, pl_dispatch_finish wd params = Some (wd', psh, true)) \/
  (exists params, pl_dispatch_compute wd params = Some (wd', psh, true)) \/
  (exists params, pl_dispatch_vertex wd params = Some (wd', psh, true)) ->
  ran_record wd'.
Proof.
  intros [[params H]|[[params H]|[params H]]].
  - unfold pl_dispatch_finish in H.
    destruct (p_shader params) as [a|]; [|discriminate].
    destruct (nth_error (heap wd) a) as [sh|]; [|discriminate].
    destruct (dispatch_finish_body wd sh params) as [[[wd1 sh1] r]|] eqn:E;
      [|discriminate].
    assert (H' : dispatch_return a (wd1, sh1, r) = (wd', psh, true))
      by (cbn [option_map] in H; congruence).
    apply dispatch_return_ran in H'. destruct H' as [<- Hr].
    apply Hr. eapply dispatch_finish_body_ran; eassumption.
  - unfold pl_dispatch_compute in H.
    destruct (cp_shader params) as [a|]; [|discriminate].
    destruct (nth_error (heap wd) a) as [sh|]; [|discriminate].
    destruct (dispatch_compute_body wd sh params) as [[[wd1 sh1] r]|] eqn:E;
      [|discriminate].
    assert (H' : dispatch_return a (wd1, sh1, r) = (wd', psh, true))
      by (cbn [option_map] in H; congruence).
    apply dispatch_return_ran in H'. destruct H' as [<- Hr].
    apply Hr. eapply dispatch_compute_body_ran; eassumption.
  - unfold pl_dispatch_vertex in H.
    destruct (vp_shader params) as [a|]; [|discriminate].
    destruct (nth_error (heap wd) a) as [sh|]; [|discriminate].
    destruct (dispatch_vertex_body wd sh params) as [[[wd1 sh1] r]|] eqn:E;
      [|discriminate].
    assert (H' : dispatch_return a (wd1, sh1, r) = (wd', psh, true))
      by (cbn [option_map] in H; congruence).
    apply dispatch_return_ran in H'. destruct H' as [<- Hr].
    apply Hr. eapply dispatch_vertex_body_ran; eassumption.
Qed.

Lemma dispatch_reachable g wd wd' psh ret :
  reachable g wd ->
  (exists params, pl_dispatch_finish wd params = Some (wd', psh, ret)) \/
  (exists params, pl_dispatch_compute wd params = Some (wd', psh, ret)) \/
  (exists params, pl_dispatch_vertex wd params = Some (wd', psh, ret)) ->
  reachable g wd'.
Proof.
  intros Hr [[params H]|[[params H]|[params H]]].
  - eapply reach_finish; eassumption.
  - eapply reach_compute; eassumption.
  - eapply reach_vertex; eassumption.
Qed.

Variable g : pl_gpu.

(** X18. No pass or buffer is leaked or destroyed twice. In every world
    reached from a new dispatch object, the passes that the backend created
    are, counted with multiplicity, those it was asked to destroy together
    with those the records hold; the same for the uniform buffers. *)
Theorem resources_balanced (wd : world) :
  reachable g wd ->
  Permutation (created_passes (trace wd))
              (destroyed_passes (trace wd) ++ live_passes (passes (dp wd))) /\
  Permutation (created_bufs (trace wd))
              (destroyed_bufs (trace wd) ++ live_bufs (passes (dp wd))).
Proof.
  intros H. apply reachable_inv in H. exact (proj1 H).
Qed.

(** X19. [pl_dispatch_destroy] releases everything: after it, on any
    reachable world, every pass and every uniform buffer that the backend
    created has been destroyed, each once. On NULL it does nothing. *)
Theorem destroy_releases_all (wd : world) :
  reachable g wd ->
  Permutation (created_passes (trace wd ++ pl_dispatch_destroy (Some wd)))
              (destroyed_passes (trace wd ++ pl_dispatch_destroy (Some wd))) /\
  Permutation (created_bufs (trace wd ++ pl_dispatch_destroy (Some wd)))
              (destroyed_bufs (trace wd ++ pl_dispatch_destroy (Some wd))) /\
  pl_dispatch_destroy None = [].
Proof.
  intros H. apply reachable_inv in H. destruct H as ([Hp Hb] & _).
  destruct (pass_destroy_resources (passes (dp wd))) as (D1 & D2 & D3 & D4).
  unfold pl_dispatch_destroy.
  unfold created_passes, created_bufs, destroyed_passes, destroyed_bufs in *.
  rewrite !flat_map_app, D1, D2, D3, D4, !app_nil_r.
  split; [exact Hp|]. split; [exact Hb|reflexivity].
Qed.

(** X20. In every reachable world the loaded programs are in order: no
    entry is empty and no signature occurs twice among them; so
    [pl_dispatch_save] does not run into the assertion of [write_buf]. *)
Theorem reachable_save_succeeds (wd : world) :
  reachable g wd ->
  Forall (fun c => cached_program_ c <> []) (cached_passes (dp wd)) /\
  NoDup (map cp_signature (cached_passes (dp wd))) /\
  exists out, save_bytes (dp wd) = Some out.
Proof.
  intros H. apply reachable_inv in H. destruct H as (_ & [Hne Hnd] & _).
  split; [exact Hne|]. split; [exact Hnd|].
  rewrite (save_bytes_spec (dp wd) Hne). eauto.
Qed.

(** X21. The pass that is run is the pass of the record. When one of the
    three entry points returns true on a reachable world, the last event is
    the run of a record of the collection with its own run parameters, and
    these name the pass that the record holds, which the backend created. *)
Theorem dispatch_runs_record_pass (wd wd' : world) (psh : option sh_ptr) :
  reachable g wd ->
  (exists params, pl_dispatch_finish wd params = Some (wd', psh, true)) \/
  (exists params, pl_dispatch_compute wd params = Some (wd', psh, true)) \/
  (exists params, pl_dispatch_vertex wd params = Some (wd', psh, true)) ->
  exists idx p q tr,
    nth_error (passes (dp wd')) idx = Some p /\
    pass_ p = Some q /\
    trace wd' = tr ++ [EvPassRun (run_params p)] /\
    rp_pass (run_params p) = Some q /\
    In q (created_passes tr).
Proof.
  intros Hreach H.
  pose proof (dispatch_reachable Hreach H) as Hr'.
  apply reachable_inv in Hr'. destruct Hr' as ([Hp _] & _ & Hown & _).
  apply dispatch_ran in H. destruct H as (idx & p & q & tr & Hn & Hq & Ht).
  exists idx, p, q, tr. split; [exact Hn|]. split; [exact Hq|].
  split; [exact Ht|].
  assert (Hin : In p (passes (dp wd'))) by (eapply nth_error_In; eassumption).
  split.
  - rewrite Forall_forall in Hown. specialize (Hown p Hin).
    unfold runs_own_pass in Hown. congruence.
  - assert (Hq' : In q (created_passes (trace wd'))).
    { eapply Permutation_in; [apply Permutation_sym, Hp|].
      apply in_or_app. right. unfold live_passes. apply in_flat_map.
      exists p. split; [exact Hin|]. unfold pass_of. rewrite Hq. now left. }
    rewrite Ht in Hq'. unfold created_passes in *.
    rewrite flat_map_app in Hq'. simpl in Hq'. now rewrite app_nil_r in Hq'.
Qed.

(** X23. The collection holds at most one record more than its capacity.
    In every reachable world the capacity is at least [MAX_PASSES] and the
    number of records is at most the capacity plus one: the collector runs
    before the new record is appended and doubles the capacity when it
    cannot evict. *)
Theorem passes_within_capacity (wd : world) :
  reachable g wd ->
  MAX_PASSES <= max_passes (dp wd) /\
  Z.of_nat (length (passes (dp wd))) <= max_passes (dp wd) + 1.
Proof.
  intros H. apply reachable_inv in H. destruct H as (_ & _ & _ & Hn & _).
  exact Hn.
Qed.

(** X24. The age of a record is computed on a frame index that wraps at
    256: in a reachable world, 256 further frames (or a multiple) leave the
    age of every record as it is, so a record that was idle for 256 frames
    looks as recently used as before. *)
Theorem pass_age_wraps (wd : world) (p : pass) (k : nat) :
  reachable g wd ->
  pass_age (dp (reset_frames (256 * k) wd)) p = pass_age (dp wd) p.
Proof.
  intros H. apply reachable_inv in H. destruct H as (_ & _ & _ & _ & [Hi _]).
  unfold pass_age. rewrite (reset_frames_current_index (256 * k) wd Hi).
  rewrite Nat2Z.inj_mul. unfold uint8.
  change (2 ^ 8) with 256. change (Z.of_nat 256) with 256.
  rewrite (Z.mul_comm 256), Z_mod_plus_full, Z.mod_small by exact Hi.
  reflexivity.
Qed.
End Lifetime.

(** ** A failed accumulator is refused *)

(** X22. An accumulator that has failed is not dispatched: each of the
    three entry points returns false, logs the error, gives the accumulator
    back to the pool and sets the handle to NULL; no record is looked up or
    built and the backend is not called. *)
Theorem dispatch_refuses_failed
        {fns : pl_gpu_fns} {lib : shader_lib} {libc : libc_qsort}
        (wd : world) (a : sh_ptr) (sh : pl_shader) :
  nth_error (heap wd) a = Some sh ->
  failed sh = true ->
  let wd' :=
    {| dp := set_shaders (dp wd) (PL_ARRAY_APPEND (shaders (dp wd)) a);
       heap := heap wd;
       trace := trace wd ++ [PL_ERR "Trying to dispatch a failed shader."] |} in
  (forall params, p_shader params = Some a ->
     pl_dispatch_finish wd params = Some (wd', None, false)) /\
  (forall params, cp_shader params = Some a ->
     pl_dispatch_compute wd params = Some (wd', None, false)) /\
  (forall params, vp_shader params = Some a ->
     pl_dispatch_vertex wd params = Some (wd', None, false)).
Proof.
  intros Hn Hf wd'. subst wd'.
  split; [|split]; intros params Hp.
  - unfold pl_dispatch_finish, dispatch_finish_body, dispatch_error.
    rewrite Hp, Hn, Hf. unfold dispatch_return, pl_dispatch_abort. simpl.
    now rewrite (array_set_same _ _ Hn).
  - unfold pl_dispatch_compute, dispatch_compute_body, dispatch_error.
    rewrite Hp, Hn, Hf. unfold dispatch_return, pl_dispatch_abort. simpl.
    now rewrite (array_set_same _ _ Hn).
  - unfold pl_dispatch_vertex, dispatch_vertex_body, dispatch_error.
    rewrite Hp, Hn, Hf. unfold dispatch_return, pl_dispatch_abort. simpl.
    now rewrite (array_set_same _ _ Hn).
Qed.

(** ** The properties above on concrete runs *)

Lemma dispatch_text_reachable g wd t wd' :
  reachable g wd -> dispatch_text wd t = Some wd' -> reachable g wd'.
Proof.
  unfold dispatch_text, pl_dispatch_begin, build_compute. intros Hr H.
  destruct (pl_dispatch_begin_ex wd false) as [[w a]|] eqn:Eb; [|discriminate].
  cbn [bind] in H.
  destruct (pl_dispatch_compute _ _) as [[[w' psh] r]|] eqn:Ec;
    [|discriminate].
  cbn [bind fst] in H. injection H as <-.
  eapply reach_compute; [|exact Ec].
  apply reach_build. eapply reach_begin; eassumption.
Qed.

Lemma dispatch_texts_reachable g ts : forall wd wd',
  reachable g wd -> dispatch_texts wd ts = Some wd' -> reachable g wd'.
Proof.
  induction ts as [|t ts IH]; intros wd wd' Hr H; simpl in H.
  - injection H as <-. exact Hr.
  - destruct (dispatch_text wd t) as [w|] eqn:E; [|discriminate].
    cbn [bind] in H. eapply IH; [|exact H].
    eapply dispatch_text_reachable; eassumption.
Qed.

Lemma one_live_world_reachable : reachable ref_gpu one_live_world.
Proof.
  unfold one_live_world.
  destruct (dispatch_texts (new_world ref_gpu) ["x"%string]) as [wd|] eqn:E.
  - eapply dispatch_texts_reachable; [apply reach_create|exact E].
  - apply reach_create.
Qed.

Lemma tint_world_reachable : reachable ref_gpu tint_world.
Proof.
  set (W := {| dp := pl_dispatch_create ref_gpu;
               heap := [pl_shader_alloc {| sh_id := 0; sh_index := 0 |}];
               trace := [] |}).
  change (reachable ref_gpu
            {| dp := dp W; heap := array_set (heap W) 0 tint_shader;
               trace := trace W |}).
  apply reach_build.
  apply (@reach_begin _ _ _ ref_gpu (new_world ref_gpu) false W 0%nat);
    [apply reach_create | reflexivity].
Qed.

(** A new dispatch object into which [two_entry_cache] was loaded. *)
Definition loaded_world : world :=
  match pl_dispatch_load (new_world ref_gpu) two_entry_cache with
  | Some wd => wd
  | None => new_world ref_gpu
  end.

(** Five shaders compiled in one frame with capacity 4. *)
Definition five_young_world : world :=
  match dispatch_texts capacity4_world (map text_of (seq 0 5)) with
  | Some wd => wd
  | None => capacity4_world
  end.

(** [tint_world] after its shader was dispatched. *)
Definition tint_done_world : world :=
  match pl_dispatch_compute tint_world tint_params with
  | Some (wd, _, _) => wd
  | None => tint_world
  end.

(** The parameters of a compute pass before anything is placed. *)
Definition compute_pass_params : pl_pass_params :=
  {| pass_type := PL_PASS_COMPUTE; descriptors := []; variables := [];
     push_constants_size := 0; vertex_attribs := [];
     vertex_type := PL_PRIM_TRIANGLE_STRIP; vertex_stride := 0;
     blend_params := None; load_target := false; target_dummy := None;
     vertex_shader := EmptyString; glsl_shader := EmptyString;
     cached_program := [] |}.

Definition vec2_attrib (name : string) : pl_shader_va :=
  {| attr := {| va_name := name;
                va_fmt := {| fmt_id := 7; texel_size := 8 |};
                va_offset := 0; va_location := 0 |};
     va_data := [] |}.

Lemma find_pass_returns_signature_witness :
  exists wd' sh' i p,
    find_pass (new_world ref_gpu) (compute_shader "x") None None None false
              None None = Some (wd', sh', i) /\
    nth_error (passes (dp wd')) i = Some p /\ signature p = 337.
Proof.
  destruct (find_pass (new_world ref_gpu) (compute_shader "x") None None None
                      false None None) as [[[wd' sh'] i]|] eqn:E.
  - destruct (find_pass_returns_signature _ _ _ _ _ _ _ _ E)
      as ((p & Hn & Hs & _) & _).
    exists wd', sh', i, p. split; [reflexivity|]. split; [exact Hn|].
    rewrite Hs. vm_compute. reflexivity.
  - vm_compute in E. discriminate.
Defined.

Lemma find_pass_memoized_witness :
  exists wd' sh' i,
    find_pass (new_world ref_gpu) (compute_shader "x") None None None false
              None None = Some (wd', sh', i) /\
    find_pass wd' (compute_shader "x") None None None false None None
    = Some (wd', compute_shader "x", i).
Proof.
  destruct (find_pass (new_world ref_gpu) (compute_shader "x") None None None
                      false None None) as [[[wd' sh'] i]|] eqn:E.
  - exists wd', sh', i. split; [reflexivity|].
    eapply find_pass_memoized; [exact E|reflexivity|reflexivity].
  - vm_compute in E. discriminate.
Defined.

Lemma raster_hit_matches_witness :
  exists p,
    nth_error (passes (dp two_format_world)) 1 = Some p /\ signature p = 337 /\
    forall q, pass_ p = Some q ->
      exists td, target_dummy (pass_params q) = Some td /\
                 fmt_id (format (tex_params td)) = 2.
Proof.
  assert (H : scan_passes 337 false (Some (target_of_format 2)) None false
                          None (passes (dp two_format_world)) 0 = ScanHit 1)
    by (vm_compute; reflexivity).
  destruct (raster_hit_matches _ _ _ _ _ _ H) as (p & Hn & Hs & Hq).
  exists p. split; [exact Hn|]. split; [exact Hs|].
  intros q Eq. destruct (Hq q Eq) as ((td & Ht & Hf) & _).
  exists td. split; [exact Ht|exact Hf].
Defined.

Lemma gc_doubles_when_young_witness :
  length (passes (dp five_young_world)) = 5%nat /\
  max_passes (dp (garbage_collect_passes five_young_world)) = 8 /\
  trace (garbage_collect_passes five_young_world) = trace five_young_world.
Proof.
  split; [vm_compute; reflexivity|].
  assert (Hover : max_passes (dp five_young_world)
                  < Z.of_nat (length (passes (dp five_young_world))))
    by (vm_compute; reflexivity).
  assert (Hy : Forall (fun p => pass_age (dp five_young_world) p < MIN_AGE)
                      (passes (dp five_young_world))).
  { apply Forall_forall. intros p Hp. unfold pass_age.
    assert (Hl : forallb (fun p => current_index (dp five_young_world)
                                   - last_index p <? MIN_AGE)
                         (passes (dp five_young_world)) = true)
      by (vm_compute; reflexivity).
    rewrite forallb_forall in Hl. apply Z.ltb_lt, Hl, Hp. }
  destruct (gc_doubles_when_young five_young_world Hover Hy) as (_ & Hm & Ht).
  split; [rewrite Hm; vm_compute; reflexivity|exact Ht].
Defined.

Lemma gc_keeps_most_recent_witness :
  exists evicted,
    Permutation (passes (dp old_world))
                (passes (dp (garbage_collect_passes old_world)) ++ evicted) /\
    (forall k e, In k (passes (dp (garbage_collect_passes old_world))) ->
                 In e evicted -> last_index e <= last_index k) /\
    trace (garbage_collect_passes old_world)
      = trace old_world ++ flat_map pass_destroy evicted
        ++ match evicted with
           | [] => []
           | _ :: _ => [PL_DEBUG "Evicted passes from dispatch cache"]
           end /\
    (evicted <> [] ->
     max_passes (dp (garbage_collect_passes old_world))
     = max_passes (dp old_world)).
Proof. exact (gc_keeps_most_recent old_world). Defined.

(** A [vec4] variable. *)
Definition vec4_var : pl_shader_var :=
  {| var := {| var_name := "tint"; var_type := PL_VAR_FLOAT;
               dim_v := 4; dim_m := 1; dim_a := 1 |};
     data := repeat Byte.x3f 16; dynamic := false |}.

Lemma add_pass_var_placement_witness :
  exists ubo_d' params' pv',
    add_pass_var ref_gpu init_ubo_desc compute_pass_params vec4_var
                 zero_pass_var false
    = (true, ubo_d', params', pv', []) /\
    pv_type pv' = PASS_VAR_PUSHC /\
    push_constants_size params' <= max_pushc_size (limits ref_gpu).
Proof.
  destruct (add_pass_var ref_gpu init_ubo_desc compute_pass_params vec4_var
                         zero_pass_var false)
    as [[[[ok u] p] pv'] evs] eqn:E.
  pose proof (@add_pass_var_placement _ ref_gpu init_ubo_desc
                compute_pass_params vec4_var zero_pass_var false
                ok u p pv' evs eq_refl E) as H.
  assert (Hc : (ok, pv_type pv', evs) = (true, PASS_VAR_PUSHC, []))
    by (vm_compute in E; injection E as <- _ _ <- <-; reflexivity).
  injection Hc as -> Ht ->. rewrite Ht in H.
  exists u, p, pv'. split; [reflexivity|]. split; [exact Ht|]. apply H.
Defined.

Lemma place_vars_never_fails_witness :
  exists ubo_d' params' pvs',
    place_vars ref_gpu false (vars tint_shader) [zero_pass_var]
               init_ubo_desc compute_pass_params
    = (true, ubo_d', params', pvs', []) /\
    length pvs' = 1%nat.
Proof.
  destruct (place_vars ref_gpu false (vars tint_shader) [zero_pass_var]
                       init_ubo_desc compute_pass_params)
    as [[[[ok u] p] pvs'] evs] eqn:E.
  destruct (@place_vars_never_fails _ ref_gpu false _ _ _ _ _ _ _ _ _
              (or_introl eq_refl) E) as (-> & -> & Hl).
  exists u, p, pvs'. split; [reflexivity|exact Hl].
Defined.

Lemma update_bindings_and_vars_again_witness :
  exists p p' evs p'',
    nth_error (passes (dp tint_done_world)) 0 = Some p /\
    update_bindings_and_vars p tint_shader = Some (p', evs) /\
    update_bindings_and_vars p' tint_shader = Some (p'', []) /\
    pass_vars p'' = pass_vars p'.
Proof.
  assert (Hc : match nth_error (passes (dp tint_done_world)) 0 with
               | Some p =>
                   match update_bindings_and_vars p tint_shader with
                   | Some _ => true
                   | None => false
                   end
               | None => false
               end = true) by (vm_compute; reflexivity).
  destruct (nth_error (passes (dp tint_done_world)) 0) as [p|];
    [|discriminate Hc].
  destruct (update_bindings_and_vars p tint_shader) as [[p' evs]|] eqn:E;
    [|discriminate Hc].
  destruct (update_bindings_and_vars_again _ _ E) as (p'' & H1 & H2 & _).
  exists p, p', evs, p''. auto.
Defined.

Lemma place_descriptors_bindings_witness :
  option_map binding
    (nth_error (place_descriptors ref_gpu
                  [zero_shader_desc; init_ubo_desc; zero_shader_desc]
                  (fun _ => 0)) 2) = Some 2.
Proof.
  destruct (place_descriptors_bindings ref_gpu
              [zero_shader_desc; init_ubo_desc; zero_shader_desc])
    as (_ & Hn & _).
  rewrite (Hn 2%nat _ eq_refl). vm_compute. reflexivity.
Defined.

Lemma place_vertex_attribs_packed_witness :
  option_map va_offset
    (nth_error (fst (place_vertex_attribs false
                       [vec2_attrib "pos"; vec2_attrib "coord"] 0 0)) 1)
  = Some 8 /\
  snd (place_vertex_attribs false
         [vec2_attrib "pos"; vec2_attrib "coord"] 0 0) = 16.
Proof.
  destruct (place_vertex_attribs_packed false
              [vec2_attrib "pos"; vec2_attrib "coord"] 0)
    as (_ & Hs & Hn).
  split; [|rewrite Hs; reflexivity].
  rewrite (Hn 1%nat _ eq_refl). reflexivity.
Defined.

Lemma begin_after_abort_witness :
  exists wd',
    pl_dispatch_begin_ex (fst (pl_dispatch_abort one_shader_world (Some 0%nat)))
                         true = Some (wd', 0%nat) /\
    shaders (dp wd') = [].
Proof.
  destruct (@begin_after_abort one_shader_world 0%nat _ true eq_refl)
    as (wd' & H1 & H2 & _).
  exists wd'. split; [exact H1|exact H2].
Defined.

Lemma dispatch_runs_once_witness :
  exists wd' evs,
    pl_dispatch_compute one_shader_world
      {| cp_shader := Some 0%nat; dispatch_size := (1, 1, 1);
         cp_width := 0; cp_height := 0 |} = Some (wd', None, true) /\
    trace wd' = trace one_shader_world ++ evs /\ count_runs evs = 1%nat.
Proof.
  assert (Hc : option_map (fun x => (snd (fst x), snd x))
                 (pl_dispatch_compute one_shader_world
                    {| cp_shader := Some 0%nat; dispatch_size := (1, 1, 1);
                       cp_width := 0; cp_height := 0 |})
               = Some (None, true)) by (vm_compute; reflexivity).
  destruct (pl_dispatch_compute one_shader_world _)
    as [[[wd' psh] r]|] eqn:E; [|discriminate].
  simpl in Hc. injection Hc as -> ->.
  destruct (proj1 (proj2 dispatch_runs_once) _ _ _ _ _ E) as (evs & Ht & Hr).
  exists wd', evs. auto.
Defined.

Lemma find_pass_consumes_cached_witness :
  exists wd' sh' k,
    find_pass loaded_world (compute_shader "x") None None None false None None
    = Some (wd', sh', k) /\
    map cp_signature (cached_passes (dp loaded_world)) = [337; 9] /\
    map cp_signature (cached_passes (dp wd')) = [9].
Proof.
  destruct (find_pass loaded_world (compute_shader "x") None None None false
                      None None) as [[[wd' sh'] k]|] eqn:E;
    [|vm_compute in E; discriminate].
  destruct (find_pass_consumes_cached _ _ _ _ _ _ _ _ E) as (evs & _ & Hm).
  assert (Es : scan_passes (uint64 (pl_shader_signature (compute_shader "x")))
                 (pl_shader_is_compute (compute_shader "x")) None None false
                 None (passes (dp loaded_world)) 0 = ScanMiss)
    by (vm_compute; reflexivity).
  rewrite Es in Hm.
  assert (Ef : option_map fst
                 (find_cached
                    (uint64 (pl_shader_signature (compute_shader "x")))
                    (cached_passes (dp loaded_world)) 0) = Some 0%nat)
    by (vm_compute; reflexivity).
  destruct (find_cached _ _ 0) as [[i c]|]; [|discriminate Ef].
  simpl in Ef. injection Ef as ->. destruct Hm as [Hc _].
  exists wd', sh', k. split; [reflexivity|].
  split; [vm_compute; reflexivity|]. rewrite Hc. vm_compute. reflexivity.
Defined.

Lemma save_bytes_size_witness :
  exists out,
    save_bytes (dp loaded_world) = Some out /\
    Z.of_nat (length out) = 76.
Proof.
  assert (Hne : Forall (fun c => cached_program_ c <> [])
                       (cached_passes (dp loaded_world))).
  { apply Forall_forall. intros c Hc.
    assert (Hl : forallb (fun c => negb (Nat.eqb (length (cached_program_ c)) 0))
                         (cached_passes (dp loaded_world)) = true)
      by (vm_compute; reflexivity).
    rewrite forallb_forall in Hl. specialize (Hl c Hc).
    intros E0. rewrite E0 in Hl. discriminate. }
  destruct (proj1 (save_bytes_size (dp loaded_world)) Hne) as (out & Hs & Hl).
  exists out. split; [exact Hs|]. rewrite Hl. vm_compute. reflexivity.
Defined.


Lemma resources_balanced_witness :
  Permutation (created_passes (trace one_live_world))
              (destroyed_passes (trace one_live_world)
               ++ live_passes (passes (dp one_live_world))) /\
  length (live_passes (passes (dp one_live_world))) = 1%nat.
Proof.
  split; [|vm_compute; reflexivity].
  exact (proj1 (resources_balanced one_live_world_reachable)).
Defined.

Lemma destroy_releases_all_witness :
  Permutation
    (created_passes (trace one_live_world
                     ++ pl_dispatch_destroy (Some one_live_world)))
    (destroyed_passes (trace one_live_world
                       ++ pl_dispatch_destroy (Some one_live_world))) /\
  length (pl_dispatch_destroy (Some one_live_world)) = 1%nat.
Proof.
  split; [|vm_compute; reflexivity].
  exact (proj1 (destroy_releases_all one_live_world_reachable)).
Defined.

Lemma reachable_save_succeeds_witness :
  exists out, save_bytes (dp one_live_world) = Some out.
Proof.
  exact (proj2 (proj2 (reachable_save_succeeds one_live_world_reachable))).
Defined.

Lemma dispatch_runs_record_pass_witness :
  exists wd' idx p q tr,
    pl_dispatch_compute tint_world tint_params = Some (wd', None, true) /\
    nth_error (passes (dp wd')) idx = Some p /\
    pass_ p = Some q /\
    trace wd' = tr ++ [EvPassRun (run_params p)] /\
    rp_pass (run_params p) = Some q.
Proof.
  assert (Hc : option_map (fun x => (snd (fst x), snd x))
                          (pl_dispatch_compute tint_world tint_params)
               = Some (None, true)) by (vm_compute; reflexivity).
  destruct (pl_dispatch_compute tint_world tint_params)
    as [[[wd' psh] r]|] eqn:E; [|discriminate].
  simpl in Hc. injection Hc as -> ->.
  destruct (@dispatch_runs_record_pass _ _ _ ref_gpu tint_world wd' None
              tint_world_reachable
              (or_intror (or_introl (ex_intro _ tint_params E))))
    as (idx & p & q & tr & H1 & H2 & H3 & H4 & _).
  exists wd', idx, p, q, tr. auto.
Defined.

(** A compute shader whose builder reported a failure. *)
Definition failed_shader : pl_shader :=
  {| sh_params := {| sh_id := 0; sh_index := 0 |}; failed := true;
     mutable := true; is_compute := true; input := PL_SHADER_SIG_NONE;
     output := PL_SHADER_SIG_NONE; compute_group_size := (16, 16);
     output_size := None; glsl_text := "s";
     vars := []; descs := []; vas := [] |}.

Lemma dispatch_refuses_failed_witness :
  exists wd',
    pl_dispatch_compute
      {| dp := pl_dispatch_create ref_gpu;
         heap := [failed_shader]; trace := [] |}
      {| cp_shader := Some 0%nat; dispatch_size := (1, 1, 1);
         cp_width := 0; cp_height := 0 |} = Some (wd', None, false) /\
    passes (dp wd') = [] /\ shaders (dp wd') = [0%nat].
Proof.
  destruct (@dispatch_refuses_failed _ _ _
              {| dp := pl_dispatch_create ref_gpu;
                 heap := [failed_shader]; trace := [] |}
              0%nat failed_shader eq_refl eq_refl) as (_ & Hc & _).
  eexists. split; [apply Hc; reflexivity|]. split; reflexivity.
Defined.

Lemma passes_within_capacity_witness :
  MAX_PASSES <= max_passes (dp one_live_world) /\
  Z.of_nat (length (passes (dp one_live_world)))
  <= max_passes (dp one_live_world) + 1.
Proof. exact (passes_within_capacity one_live_world_reachable). Defined.

Lemma pass_age_wraps_witness :
  Forall (fun p => pass_age (dp (reset_frames 256 one_live_world)) p
                   = pass_age (dp one_live_world) p)
         (passes (dp one_live_world)).
Proof.
  apply Forall_forall. intros p _.
  exact (pass_age_wraps p 1 one_live_world_reachable).
Defined.

(** ** Loading the same cache again *)

(** The program that [find_pass] would attach for a signature. *)
Definition lookup_cached (sig : Z) (l : list cached_pass)
  : option (list byte) :=
  option_map (fun r => cached_program_ (snd r)) (find_cached sig l 0).

(** The end of one round of the load loop: the entry with the signature,
    a new one at the end if there is none, gets the program. *)
Definition store_cached (sig : Z) (prog : list byte) (l : list cached_pass)
  : list cached_pass :=
  let '(i, cps) :=
    match find_cached sig l 0 with
    | Some (i, _) => (i, l)
    | None => (length l, l ++ [{| cp_signature := sig; cached_program_ := [] |}])
    end in
  array_set cps i {| cp_signature := sig; cached_program_ := prog |}.

(** What one round does to the loaded programs: nothing for an entry of
    size zero. *)
Definition apply_round (op : option (Z * list byte)) (d : pl_dispatch)
  : pl_dispatch :=
  match op with
  | None => d
  | Some (sig, prog) =>
      set_cached_passes d (store_cached sig prog (cached_passes d))
  end.

Lemma find_cached_shift sig l : forall i,
  find_cached sig l (S i)
  = option_map (fun r => (S (fst r), snd r)) (find_cached sig l i).
Proof.
  induction l as [|c l IH]; intros i; simpl; [reflexivity|].
  destruct (cp_signature c =? sig); [reflexivity|apply IH].
Qed.

Lemma store_cached_hit sig prog c l :
  cp_signature c = sig ->
  store_cached sig prog (c :: l)
  = {| cp_signature := sig; cached_program_ := prog |} :: l.
Proof.
  intros H. unfold store_cached. simpl. apply Z.eqb_eq in H. now rewrite H.
Qed.

Lemma store_cached_skip sig prog c l :
  cp_signature c <> sig ->
  store_cached sig prog (c :: l) = c :: store_cached sig prog l.
Proof.
  intros H. unfold store_cached. simpl. apply Z.eqb_neq in H. rewrite H.
  rewrite find_cached_shift.
  destruct (find_cached sig l 0) as [[i c0]|]; reflexivity.
Qed.

Lemma lookup_cached_cons sig c l :
  lookup_cached sig (c :: l)
  = if cp_signature c =? sig then Some (cached_program_ c)
    else lookup_cached sig l.
Proof.
  unfold lookup_cached. simpl.
  destruct (cp_signature c =? sig); [reflexivity|].
  rewrite find_cached_shift. now destruct (find_cached sig l 0) as [[i c0]|].
Qed.

Lemma lookup_cached_absent sig l :
  ~ In sig (map cp_signature l) -> lookup_cached sig l = None.
Proof.
  induction l as [|c l IH]; intros H; [reflexivity|].
  rewrite lookup_cached_cons. simpl in H.
  destruct (cp_signature c =? sig) eqn:E.
  - apply Z.eqb_eq in E. tauto.
  - apply IH. tauto.
Qed.

Lemma lookup_store_cached sig prog k l :
  lookup_cached k (store_cached sig prog l)
  = if sig =? k then Some prog else lookup_cached k l.
Proof.
  induction l as [|c l IH].
  - unfold store_cached. simpl. unfold lookup_cached. simpl.
    now destruct (sig =? k).
  - destruct (Z.eq_dec (cp_signature c) sig) as [Hc|Hc].
    + rewrite (@store_cached_hit sig prog c l Hc), !lookup_cached_cons. simpl.
      rewrite Hc. now destruct (sig =? k).
    + rewrite (@store_cached_skip sig prog c l Hc), !lookup_cached_cons, IH.
      destruct (cp_signature c =? k) eqn:Ek; [|reflexivity].
      apply Z.eqb_eq in Ek. rewrite <- Ek.
      apply Z.eqb_neq in Hc. rewrite Z.eqb_sym, Hc. reflexivity.
Qed.

Lemma keys_store_cached_in sig prog l :
  In sig (map cp_signature l) ->
  map cp_signature (store_cached sig prog l) = map cp_signature l.
Proof.
  induction l as [|c l IH]; intros H; [contradiction|].
  destruct (Z.eq_dec (cp_signature c) sig) as [Hc|Hc].
  - rewrite (@store_cached_hit sig prog c l Hc). simpl. now rewrite Hc.
  - rewrite (@store_cached_skip sig prog c l Hc). simpl. rewrite IH; [reflexivity|].
    simpl in H. tauto.
Qed.

Lemma keys_store_cached sig prog l :
  incl (map cp_signature l) (map cp_signature (store_cached sig prog l)) /\
  In sig (map cp_signature (store_cached sig prog l)).
Proof.
  induction l as [|c l [IH1 IH2]].
  - unfold store_cached. simpl. split; [intros x []|now left].
  - destruct (Z.eq_dec (cp_signature c) sig) as [Hc|Hc].
    + rewrite (@store_cached_hit sig prog c l Hc). simpl. rewrite Hc.
      split; [apply incl_refl|now left].
    + rewrite (@store_cached_skip sig prog c l Hc). simpl.
      split; [|now right].
      intros x [Hx|Hx]; [now left|right; apply IH1, Hx].
Qed.

(** Lists of loaded programs with the same signatures in the same order,
    none twice, and the same program for every signature are equal. *)
Lemma cached_eq_by_lookup l1 : forall l2,
  NoDup (map cp_signature l1) ->
  map cp_signature l1 = map cp_signature l2 ->
  (forall k, lookup_cached k l1 = lookup_cached k l2) ->
  l1 = l2.
Proof.
  induction l1 as [|c1 l1 IH]; intros [|c2 l2] Hnd Hk Hl; try discriminate.
  - reflexivity.
  - simpl in Hk. injection Hk as Hs Hk.
    inversion Hnd as [|? ? Hn1 Hnd']; subst.
    assert (Hn2 : ~ In (cp_signature c1) (map cp_signature l2))
      by (rewrite <- Hk; exact Hn1).
    pose proof (Hl (cp_signature c1)) as H1.
    rewrite !lookup_cached_cons, <- Hs, Z.eqb_refl in H1.
    injection H1 as Hp.
    f_equal.
    + destruct c1, c2; simpl in *; congruence.
    + apply IH; [exact Hnd'|exact Hk|].
      intros k. specialize (Hl k). rewrite !lookup_cached_cons, <- Hs in Hl.
      destruct (cp_signature c1 =? k) eqn:E; [|exact Hl].
      apply Z.eqb_eq in E. subst k.
      now rewrite !lookup_cached_absent.
Qed.

(** A round reads the bytes and the compiled records, and not the loaded
    programs, to find its way through the cache. *)
Lemma load_entry_round d cache pos d' pos' evs :
  load_entry d cache pos = Some (d', pos', evs) ->
  exists op,
    d' = apply_round op d /\
    forall d2, passes d2 = passes d ->
      load_entry d2 cache pos = Some (apply_round op d2, pos', evs).
Proof.
  unfold load_entry. intros H.
  destruct (LOAD 8 cache pos) as [r1|]; [|discriminate]. cbn [bind] in *.
  destruct (LOAD 8 cache (snd r1)) as [r2|]; [|discriminate]. cbn [bind] in *.
  destruct (le_combine (fst r2) =? 0).
  { injection H as <- <- <-. exists None. split; [reflexivity|].
    intros d2 _. reflexivity. }
  destruct (skip_compiled (le_combine (fst r1))
              (Z.to_nat (le_combine (fst r2))) (passes d) (snd r2))
    as [pos2 evs2] eqn:Es.
  assert (H' : exists r3,
             LOAD (Z.to_nat (le_combine (fst r2))) cache pos2 = Some r3 /\
             d' = apply_round (Some (le_combine (fst r1), fst r3)) d /\
             pos' = snd r3 /\
             evs = evs2 ++ [PL_DEBUG "Loading bytes of cached program"]).
  { unfold apply_round, store_cached.
    destruct (find_cached (le_combine (fst r1)) (cached_passes d) 0)
      as [[i c]|];
      (destruct (LOAD (Z.to_nat (le_combine (fst r2))) cache pos2) as [r3|];
       [|discriminate]); cbn [bind] in H; injection H as <- <- <-;
      exists r3; repeat split. }
  destruct H' as (r3 & L3 & -> & -> & ->).
  exists (Some (le_combine (fst r1), fst r3)). split; [reflexivity|].
  intros d2 Hp. rewrite Hp, Es.
  unfold apply_round, store_cached.
  destruct (find_cached (le_combine (fst r1)) (cached_passes d2) 0)
    as [[i c]|]; rewrite L3; reflexivity.
Qed.

Lemma apply_round_frame op d :
  passes (apply_round op d) = passes d /\
  incl (map cp_signature (cached_passes d))
       (map cp_signature (cached_passes (apply_round op d))).
Proof.
  destruct op as [[sig prog]|]; simpl.
  - split; [reflexivity|apply keys_store_cached].
  - split; [reflexivity|apply incl_refl].
Qed.

Lemma load_entries_keys n : forall d cache pos d' pos' evs,
  load_entries n d cache pos = Some (d', pos', evs) ->
  incl (map cp_signature (cached_passes d))
       (map cp_signature (cached_passes d')).
Proof.
  induction n as [|n IH]; intros d cache pos d' pos' evs H.
  - simpl in H. injection H as <- <- <-. apply incl_refl.
  - simpl in H.
    destruct (load_entry d cache pos) as [[[d1 pos1] e1]|] eqn:E1;
      [|discriminate].
    cbn [bind] in H.
    destruct (load_entries n d1 cache pos1) as [[[d2 pos2] e2]|] eqn:E2;
      [|discriminate].
    cbn [bind] in H. injection H as <- <- <-.
    apply load_entry_round in E1. destruct E1 as (op & -> & _).
    eapply incl_tran; [apply apply_round_frame|]. eapply IH; eassumption.
Qed.

(** The second run, from a state that already has every signature of the
    result of the first: it takes the same way through the cache, adds no
    entry, and every signature has the program of the first run unless
    neither run touched it. *)
Lemma load_entries_again n : forall A cache pos A' pos' evs,
  load_entries n A cache pos = Some (A', pos', evs) ->
  forall B,
    passes B = passes A ->
    incl (map cp_signature (cached_passes A'))
         (map cp_signature (cached_passes B)) ->
    exists B',
      load_entries n B cache pos = Some (B', pos', evs) /\
      same_but_cached B B' /\
      map cp_signature (cached_passes B') = map cp_signature (cached_passes B) /\
      forall k,
        lookup_cached k (cached_passes B') = lookup_cached k (cached_passes A')
        \/ (lookup_cached k (cached_passes B')
            = lookup_cached k (cached_passes B) /\
            lookup_cached k (cached_passes A')
            = lookup_cached k (cached_passes A)).
Proof.
  induction n as [|n IH]; intros A cache pos A' pos' evs H B Hp Hin.
  - simpl in H. injection H as <- <- <-. exists B.
    split; [reflexivity|]. unfold same_but_cached. repeat split; auto.
  - simpl in H.
    destruct (load_entry A cache pos) as [[[A1 pos1] e1]|] eqn:E1;
      [|discriminate].
    cbn [bind] in H.
    destruct (load_entries n A1 cache pos1) as [[[A2 pos2] e2]|] eqn:E2;
      [|discriminate].
    cbn [bind] in H. injection H as <- <- <-.
    apply load_entry_round in E1. destruct E1 as (op & -> & Hop).
    pose proof (load_entries_keys _ _ _ _ E2) as Hk2.
    assert (HkB : map cp_signature (cached_passes (apply_round op B))
                  = map cp_signature (cached_passes B)).
    { destruct op as [[sig prog]|]; [|reflexivity]. simpl.
      apply keys_store_cached_in. apply Hin, Hk2. simpl.
      apply keys_store_cached. }
    destruct (IH _ _ _ _ _ _ E2 (apply_round op B)) as (B' & HB & Hs & Hk & Hl).
    { rewrite (proj1 (apply_round_frame op B)),
        (proj1 (apply_round_frame op A)). exact Hp. }
    { rewrite HkB. exact Hin. }
    exists B'. simpl. rewrite (Hop B Hp). cbn [bind]. rewrite HB. cbn [bind].
    split; [reflexivity|]. split.
    { unfold same_but_cached in *.
      destruct Hs as (S1 & S2 & S3 & S4 & S5 & S6).
      destruct op as [[sig prog]|]; simpl in *; repeat split; assumption. }
    split; [congruence|].
    intros k. destruct (Hl k) as [Hl1|[Hl1 Hl2]]; [left; exact Hl1|].
    destruct op as [[sig prog]|]; simpl in *; [|right; split; assumption].
    rewrite lookup_store_cached in Hl1, Hl2.
    destruct (sig =? k); [left; congruence|right; split; assumption].
Qed.

(** X25. Loading the same cache twice is loading it once. When no
    signature occurs twice among the loaded programs and
    [pl_dispatch_load] returns, a second call with the same bytes returns
    too, logs what the first call logged, and leaves the loaded programs,
    and everything else in the dispatch object, as the first call left
    them. *)
Theorem load_twice (wd : world) (cache : list byte) (wd1 : world) :
  NoDup (map cp_signature (cached_passes (dp wd))) ->
  pl_dispatch_load wd cache = Some wd1 ->
  exists wd2 evs,
    pl_dispatch_load wd1 cache = Some wd2 /\
    cached_passes (dp wd2) = cached_passes (dp wd1) /\
    same_but_cached (dp wd1) (dp wd2) /\
    trace wd1 = trace wd ++ evs /\ trace wd2 = trace wd1 ++ evs.
Proof.
  unfold pl_dispatch_load. intros Hnd H.
  assert (Hrefl : forall d, same_but_cached d d)
    by (intros d; unfold same_but_cached; repeat split).
  destruct (LOAD 4 cache 0) as [r0|]; [|discriminate]. cbn [bind] in *.
  destruct (negb (bytes_eqb (fst r0) cache_magic)).
  { injection H as <-. eexists _, _. split; [reflexivity|]. simpl. auto. }
  destruct (LOAD 4 cache (snd r0)) as [r1|]; [|discriminate]. cbn [bind] in *.
  destruct (negb (le_combine (fst r1) =? cache_version)).
  { injection H as <-. eexists _, _. split; [reflexivity|]. simpl. auto. }
  destruct (LOAD 4 cache (snd r1)) as [r2|]; [|discriminate]. cbn [bind] in *.
  destruct (load_entries _ _ _ _) as [[[d p] e]|] eqn:E; [|discriminate].
  cbn [bind] in H. injection H as <-. simpl.
  pose proof (load_entries_nodup _ _ _ _ E Hnd) as Hnd'.
  pose proof (load_entries_frame _ _ _ _ E) as ((_ & _ & _ & _ & _ & Hp) & _).
  destruct (load_entries_again _ _ _ _ E d Hp (incl_refl _))
    as (B' & HB & Hs & Hk & Hl).
  rewrite HB. cbn [bind]. eexists _, e. split; [reflexivity|]. simpl.
  split; [|auto].
  symmetry. apply cached_eq_by_lookup; [exact Hnd'|congruence|].
  intros k. destruct (Hl k) as [Hl1|[Hl1 _]]; congruence.
Qed.

(** ** The other accumulators *)

(** X26. A dispatch writes to one accumulator only: when one of the three
    entry points returns, the accumulators are as before except the one the
    handle pointed to, which holds what the dispatch made of it; none is
    allocated or freed. *)
Theorem dispatch_touches_one_accumulator
        {fns : pl_gpu_fns} {lib : shader_lib} {libc : libc_qsort} :
  (forall wd params wd' psh ret,
      pl_dispatch_finish wd params = Some (wd', psh, ret) ->
      exists a sh', p_shader params = Some a /\
                    heap wd' = array_set (heap wd) a sh') /\
  (forall wd params wd' psh ret,
      pl_dispatch_compute wd params = Some (wd', psh, ret) ->
      exists a sh', cp_shader params = Some a /\
                    heap wd' = array_set (heap wd) a sh') /\
  (forall wd params wd' psh ret,
      pl_dispatch_vertex wd params = Some (wd', psh, ret) ->
      exists a sh', vp_shader params = Some a /\
                    heap wd' = array_set (heap wd) a sh').
Proof.
  split; [|split].
  - intros wd params wd' psh ret H. unfold pl_dispatch_finish in H.
    destruct (p_shader params) as [a|]; [|discriminate].
    destruct (nth_error (heap wd) a) as [sh|]; [|discriminate].
    destruct (dispatch_finish_body wd sh params) as [[[wd1 sh1] r]|] eqn:E;
      [|discriminate].
    assert (H' : dispatch_return a (wd1, sh1, r) = (wd', psh, ret))
      by (cbn [option_map] in H; congruence).
    apply dispatch_return_pool in H'. destruct H' as (_ & _ & _ & Hh).
    apply dispatch_finish_body_pool in E. destruct E as [_ E].
    exists a, sh1. split; [reflexivity|congruence].
  - intros wd params wd' psh ret H. unfold pl_dispatch_compute in H.
    destruct (cp_shader params) as [a|]; [|discriminate].
    destruct (nth_error (heap wd) a) as [sh|]; [|discriminate].
    destruct (dispatch_compute_body wd sh params) as [[[wd1 sh1] r]|] eqn:E;
      [|discriminate].
    assert (H' : dispatch_return a (wd1, sh1, r) = (wd', psh, ret))
      by (cbn [option_map] in H; congruence).
    apply dispatch_return_pool in H'. destruct H' as (_ & _ & _ & Hh).
    apply dispatch_compute_body_pool in E. destruct E as [_ E].
    exists a, sh1. split; [reflexivity|congruence].
  - intros wd params wd' psh ret H. unfold pl_dispatch_vertex in H.
    destruct (vp_shader params) as [a|]; [|discriminate].
    destruct (nth_error (heap wd) a) as [sh|]; [|discriminate].
    destruct (dispatch_vertex_body wd sh params) as [[[wd1 sh1] r]|] eqn:E;
      [|discriminate].
    assert (H' : dispatch_return a (wd1, sh1, r) = (wd', psh, ret))
      by (cbn [option_map] in H; congruence).
    apply dispatch_return_pool in H'. destruct H' as (_ & _ & _ & Hh).
    apply dispatch_vertex_body_pool in E. destruct E as [_ E].
    exists a, sh1. split; [reflexivity|congruence].
Qed.

Lemma load_twice_witness :
  exists wd1 wd2,
    pl_dispatch_load (new_world ref_gpu) two_entry_cache = Some wd1 /\
    pl_dispatch_load wd1 two_entry_cache = Some wd2 /\
    cached_passes (dp wd2) = cached_passes (dp wd1) /\
    length (cached_passes (dp wd1)) = 2%nat.
Proof.
  destruct (pl_dispatch_load (new_world ref_gpu) two_entry_cache)
    as [wd1|] eqn:E; [|vm_compute in E; discriminate].
  destruct (@load_twice (new_world ref_gpu) two_entry_cache wd1
              (NoDup_nil _) E) as (wd2 & evs & H1 & H2 & _).
  exists wd1, wd2. split; [reflexivity|]. split; [exact H1|].
  split; [exact H2|].
  vm_compute in E. injection E as <-. reflexivity.
Defined.

Lemma dispatch_touches_one_accumulator_witness :
  exists wd' ret sh',
    pl_dispatch_compute one_shader_world
      {| cp_shader := Some 0%nat; dispatch_size := (1, 1, 1);
         cp_width := 0; cp_height := 0 |} = Some (wd', None, ret) /\
    heap wd' = [sh'].
Proof.
  assert (Hc : option_map (fun x => snd (fst x))
                 (pl_dispatch_compute one_shader_world
                    {| cp_shader := Some 0%nat; dispatch_size := (1, 1, 1);
                       cp_width := 0; cp_height := 0 |})
               = Some None) by (vm_compute; reflexivity).
  destruct (pl_dispatch_compute one_shader_world _)
    as [[[wd' psh] r]|] eqn:E; [|discriminate].
  simpl in Hc. injection Hc as ->.
  destruct (proj1 (proj2 dispatch_touches_one_accumulator) _ _ _ _ _ E)
    as (a & sh' & Ha & Hh).
  simpl in Ha. injection Ha as <-.
  exists wd', r, sh'. split; [reflexivity|exact Hh].
Defined.

(** ** A shader is compiled once *)

Section CompiledOnce.
Context {fns : pl_gpu_fns} {lib : shader_lib} {libc : libc_qsort}.

(** A lookup for a compute shader whose signature is in the collection
    finds a record: nothing is built. *)
Lemma find_pass_compute_hit wd sh target vert_pos blend load vparams out_proj
      wd' sh' i r :
  pl_shader_is_compute sh = true ->
  In r (passes (dp wd)) ->
  signature r = uint64 (pl_shader_signature sh) ->
  find_pass wd sh target vert_pos blend load vparams out_proj
    = Some (wd', sh', i) ->
  trace wd' = trace wd /\
  cached_passes (dp wd') = cached_passes (dp wd) /\
  map signature (passes (dp wd')) = map signature (passes (dp wd)).
Proof.
  unfold find_pass. intros Hc Hin Hs H. rewrite Hc in H.
  destruct (scan_passes _ true _ _ _ _ _ _) as [k| |] eqn:Es;
    [| |discriminate].
  - destruct (nth_error (passes (dp wd)) k) as [p|] eqn:En; [|discriminate].
    injection H as <- <- <-. simpl. repeat split.
    eapply map_array_set_same; [exact En|reflexivity].
  - exfalso. apply scan_passes_miss in Es. rewrite Forall_forall in Es.
    specialize (Es r Hin). unfold passed_over in Es. simpl in Es.
    rewrite Hs, Z.eqb_refl in Es. simpl in Es.
    destruct (pass_ r); discriminate.
Qed.

Lemma update_bindings_and_vars_signature p sh p' evs :
  update_bindings_and_vars p sh = Some (p', evs) ->
  signature p' = signature p.
Proof.
  unfold update_bindings_and_vars. intros H.
  destruct (_ <? _)%nat; [discriminate|].
  destruct (update_pass_vars _ _ _ _) as [[[pvs rp] e]|]; [|discriminate].
  injection H as <- <-. reflexivity.
Qed.

Lemma dispatch_compute_body_hit wd sh params wd1 sh1 ret r :
  vas sh = [] ->
  In r (passes (dp wd)) ->
  signature r = uint64 (pl_shader_signature sh) ->
  dispatch_compute_body wd sh params = Some (wd1, sh1, ret) ->
  exists evs,
    trace wd1 = trace wd ++ evs /\ quiet evs /\
    cached_passes (dp wd1) = cached_passes (dp wd) /\
    map signature (passes (dp wd1)) = map signature (passes (dp wd)).
Proof.
  unfold dispatch_compute_body, dispatch_error. intros Hv Hin Hs H.
  rewrite Hv in H. cbn [length Nat.eqb negb andb] in H.
  body_cases H.
  all: try match goal with
           | E : negb (pl_shader_is_compute _) = false |- _ =>
               apply negb_false_iff in E
           end.
  all: try match goal with
           | Ec : pl_shader_is_compute ?s = true,
             E : find_pass _ ?s _ _ _ _ _ _ = Some _ |- _ =>
               destruct (@find_pass_compute_hit _ _ _ _ _ _ _ _ _ _ _ _
                           Ec Hin Hs E) as (Et & Ecp & Em)
           end.
  all: try match goal with
           | E : update_bindings_and_vars _ _ = Some _ |- _ =>
               pose proof (update_bindings_and_vars_signature _ _ E);
               apply update_bindings_and_vars_resources in E;
               destruct E as (_ & _ & ? & _)
           end.
  all: simpl.
  all: try rewrite Et.
  all: try rewrite Ecp.
  all: try rewrite <- Em.
  all: try (eexists; split; [reflexivity|]; split; [|split; [reflexivity|]];
            [ first [ apply quiet_app; [assumption|repeat constructor]
                    | repeat constructor ]
            | first [ reflexivity
                    | eapply map_array_set_same; [eassumption|];
                      simpl; congruence ] ]; fail).
  all: exists []; rewrite app_nil_r; repeat split; try constructor; auto.
Qed.

(** X27. A compute shader whose signature is in the collection is not
    compiled again: when [pl_dispatch_compute] is called with an
    accumulator without vertex attributes and some record has its
    signature, the call creates and destroys no pass and no buffer, uses no
    loaded program, and leaves the signatures of the collection as they
    are. *)
Theorem compute_compiles_once (wd : world)
        (params : pl_dispatch_compute_params) (a : sh_ptr) (sh : pl_shader)
        (r : pass) (wd' : world) (psh : option sh_ptr) (ret : bool) :
  cp_shader params = Some a ->
  nth_error (heap wd) a = Some sh ->
  vas sh = [] ->
  In r (passes (dp wd)) ->
  signature r = uint64 (pl_shader_signature sh) ->
  pl_dispatch_compute wd params = Some (wd', psh, ret) ->
  exists evs,
    trace wd' = trace wd ++ evs /\
    created_passes evs = [] /\ destroyed_passes evs = [] /\
    created_bufs evs = [] /\ destroyed_bufs evs = [] /\
    cached_passes (dp wd') = cached_passes (dp wd) /\
    map signature (passes (dp wd')) = map signature (passes (dp wd)).
Proof.
  intros Hp Hn Hv Hin Hs H. unfold pl_dispatch_compute in H.
  rewrite Hp, Hn in H.
  destruct (dispatch_compute_body wd sh params) as [[[wd1 sh1] r1]|] eqn:E;
    [|discriminate].
  assert (H' : dispatch_return a (wd1, sh1, r1) = (wd', psh, ret))
    by (cbn [option_map] in H; congruence).
  destruct (@dispatch_compute_body_hit _ _ _ _ _ _ _ Hv Hin Hs E) as (evs & Et & Hq & Hc & Hm).
  unfold dispatch_return, pl_dispatch_abort in H'. simpl in H'.
  injection H' as <- _ _. simpl.
  apply quiet_spec in Hq. destruct Hq as (Q1 & Q2 & Q3 & Q4).
  exists evs. repeat split; assumption.
Qed.
End CompiledOnce.

Lemma compute_compiles_once_witness :
  exists wd' psh ret evs,
    pl_dispatch_compute (build_compute one_live_world 0%nat "x")
      {| cp_shader := Some 0%nat; dispatch_size := (1, 1, 1);
         cp_width := 0; cp_height := 0 |} = Some (wd', psh, ret) /\
    trace wd' = trace one_live_world ++ evs /\ created_passes evs = [].
Proof.
  assert (Hc : match nth_error (passes (dp one_live_world)) 0%nat with
               | Some r => signature r =? 337
               | None => false
               end = true) by (vm_compute; reflexivity).
  destruct (nth_error (passes (dp one_live_world)) 0) as [r|] eqn:En;
    [|discriminate Hc].
  apply Z.eqb_eq in Hc. apply nth_error_In in En.
  destruct (pl_dispatch_compute (build_compute one_live_world 0%nat "x")
              {| cp_shader := Some 0%nat; dispatch_size := (1, 1, 1);
                 cp_width := 0; cp_height := 0 |})
    as [[[wd' psh] ret]|] eqn:E; [|vm_compute in E; discriminate].
  assert (Hn : nth_error (heap (build_compute one_live_world 0%nat "x")) 0%nat
               = Some (compute_shader "x")) by (vm_compute; reflexivity).
  assert (Hs : signature r
               = uint64 (pl_shader_signature (compute_shader "x")))
    by (rewrite Hc; vm_compute; reflexivity).
  destruct (@compute_compiles_once _ _ _
              (build_compute one_live_world 0%nat "x")
              {| cp_shader := Some 0%nat; dispatch_size := (1, 1, 1);
                 cp_width := 0; cp_height := 0 |} 0%nat
              (compute_shader "x") r wd' psh ret
              eq_refl Hn eq_refl En Hs E) as (evs & Ht & Hcr & _).
  exists wd', psh, ret, evs. auto.
Defined.

(** ** Identity tags across the operations of a frame *)

(** What [pl_dispatch_begin_ex] hands out whenever it returns: the handle
    points to an accumulator, whose tag is the counter when [unique] and 0
    otherwise, and the counter has moved on by one modulo 256 when
    [unique]. *)
Lemma begin_ex_accumulator wd u wd' a :
  pl_dispatch_begin_ex wd u = Some (wd', a) ->
  exists sh,
    nth_error (heap wd') a = Some sh /\
    sh_id (sh_params sh) = (if u then current_ident (dp wd) else 0) /\
    current_ident (dp wd')
      = (if u then uint8 (current_ident (dp wd) + 1)
         else current_ident (dp wd)).
Proof.
  unfold pl_dispatch_begin_ex. intros H.
  destruct (PL_ARRAY_POP _) as [[rest s]|].
  - destruct (nth_error (heap wd) s) as [x|] eqn:E; [|discriminate].
    injection H as <- <-. simpl.
    eexists. split; [apply nth_error_array_set, nth_error_Some; congruence|].
    split; [reflexivity|]. destruct u; reflexivity.
  - injection H as <- <-. simpl.
    eexists. split; [rewrite nth_error_app2, Nat.sub_diag by lia; reflexivity|].
    split; [reflexivity|]. destruct u; reflexivity.
Qed.

(** The worlds that the operations of the interface lead to from a new
    dispatch object, as in [reachable], each with the identity tags that
    the unique accumulators were given since the last
    [pl_dispatch_reset_frame] (or since the creation), oldest first. Any
    operation may stand between two calls of [pl_dispatch_begin_ex]. *)
Inductive in_frame {fns : pl_gpu_fns} {lib : shader_lib}
          {libc : libc_qsort} (g : pl_gpu) : world -> list Z -> Prop :=
| frame_create : in_frame g (new_world g) []
| frame_reset_frame wd tags :
    in_frame g wd tags -> in_frame g (pl_dispatch_reset_frame wd) []
| frame_begin wd tags wd' a :
    in_frame g wd tags -> pl_dispatch_begin_ex wd false = Some (wd', a) ->
    in_frame g wd' tags
| frame_begin_unique wd tags wd' a sh :
    in_frame g wd tags -> pl_dispatch_begin_ex wd true = Some (wd', a) ->
    nth_error (heap wd') a = Some sh ->
    in_frame g wd' (tags ++ [sh_id (sh_params sh)])
| frame_abort wd tags psh :
    in_frame g wd tags -> in_frame g (fst (pl_dispatch_abort wd psh)) tags
| frame_build wd tags a sh :
    in_frame g wd tags ->
    in_frame g {| dp := dp wd; heap := array_set (heap wd) a sh;
                  trace := trace wd |} tags
| frame_finish wd tags params wd' psh ret :
    in_frame g wd tags ->
    pl_dispatch_finish wd params = Some (wd', psh, ret) ->
    in_frame g wd' tags
| frame_compute wd tags params wd' psh ret :
    in_frame g wd tags ->
    pl_dispatch_compute wd params = Some (wd', psh, ret) ->
    in_frame g wd' tags
| frame_vertex wd tags params wd' psh ret :
    in_frame g wd tags ->
    pl_dispatch_vertex wd params = Some (wd', psh, ret) ->
    in_frame g wd' tags
| frame_load wd tags cache wd' :
    in_frame g wd tags -> pl_dispatch_load wd cache = Some wd' ->
    in_frame g wd' tags
| frame_save wd tags wd' out :
    in_frame g wd tags -> pl_dispatch_save wd = Some (wd', out) ->
    in_frame g wd' tags.

Section IdentFacts.
Context {fns : pl_gpu_fns} {lib : shader_lib} {libc : libc_qsort}.

(** Nothing but [pl_dispatch_begin_ex] and [pl_dispatch_reset_frame] writes
    the identity counter. *)
Lemma find_pass_ident wd sh target vert_pos blend load vparams out_proj
      wd' sh' i :
  find_pass wd sh target vert_pos blend load vparams out_proj
    = Some (wd', sh', i) ->
  current_ident (dp wd') = current_ident (dp wd).
Proof.
  unfold find_pass. intros H.
  destruct (scan_passes _ _ _ _ _ _ _ _); [| |discriminate].
  - destruct (nth_error _ _); [|discriminate].
    injection H as <- <- <-. reflexivity.
  - destruct (build_pass _ _ _ _ _ _ _ _ _) as [[wd0 b]|] eqn:E;
      [|discriminate].
    injection H as <- <- <-. simpl.
    apply build_pass_frame in E. destruct E as ((_ & _ & E & _) & _).
    destruct (gc_frame wd0) as (_ & G & _). congruence.
Qed.

Ltac ident_cases H :=
  body_cases H;
  try match goal with
      | E : find_pass _ _ _ _ _ _ _ _ = Some _ |- _ =>
          apply find_pass_ident in E
      end;
  simpl in *; congruence.

Lemma dispatch_finish_body_ident wd sh params wd1 sh1 ret :
  dispatch_finish_body wd sh params = Some (wd1, sh1, ret) ->
  current_ident (dp wd1) = current_ident (dp wd).
Proof. unfold dispatch_finish_body, dispatch_error. intros H. ident_cases H. Qed.

Lemma dispatch_compute_body_ident wd sh params wd1 sh1 ret :
  dispatch_compute_body wd sh params = Some (wd1, sh1, ret) ->
  current_ident (dp wd1) = current_ident (dp wd).
Proof. unfold dispatch_compute_body, dispatch_error. intros H. ident_cases H. Qed.

Lemma dispatch_vertex_body_ident wd sh params wd1 sh1 ret :
  dispatch_vertex_body wd sh params = Some (wd1, sh1, ret) ->
  current_ident (dp wd1) = current_ident (dp wd).
Proof. unfold dispatch_vertex_body, dispatch_error. intros H. ident_cases H. Qed.

Lemma dispatch_return_ident a wd1 sh1 ret wd' psh ret' :
  dispatch_return a (wd1, sh1, ret) = (wd', psh, ret') ->
  current_ident (dp wd') = current_ident (dp wd1).
Proof.
  unfold dispatch_return, pl_dispatch_abort. simpl.
  intros H. injection H as <- _ _. reflexivity.
Qed.

Lemma pl_dispatch_finish_ident wd params wd' psh ret :
  pl_dispatch_finish wd params = Some (wd', psh, ret) ->
  current_ident (dp wd') = current_ident (dp wd).
Proof.
  unfold pl_dispatch_finish. intros H.
  destruct (p_shader params) as [a|]; [|discriminate].
  destruct (nth_error (heap wd) a) as [sh|]; [|discriminate].
  destruct (dispatch_finish_body wd sh params) as [[[wd1 sh1] r]|] eqn:E;
    [|discriminate].
  assert (H' : dispatch_return a (wd1, sh1, r) = (wd', psh, ret))
    by (cbn [option_map] in H; congruence).
  apply dispatch_return_ident in H'. apply dispatch_finish_body_ident in E.
  congruence.
Qed.

Lemma pl_dispatch_compute_ident wd params wd' psh ret :
  pl_dispatch_compute wd params = Some (wd', psh, ret) ->
  current_ident (dp wd') = current_ident (dp wd).
Proof.
  unfold pl_dispatch_compute. intros H.
  destruct (cp_shader params) as [a|]; [|discriminate].
  destruct (nth_error (heap wd) a) as [sh|]; [|discriminate].
  destruct (dispatch_compute_body wd sh params) as [[[wd1 sh1] r]|] eqn:E;
    [|discriminate].
  assert (H' : dispatch_return a (wd1, sh1, r) = (wd', psh, ret))
    by (cbn [option_map] in H; congruence).
  apply dispatch_return_ident in H'. apply dispatch_compute_body_ident in E.
  congruence.
Qed.

Lemma pl_dispatch_vertex_ident wd params wd' psh ret :
  pl_dispatch_vertex wd params = Some (wd', psh, ret) ->
  current_ident (dp wd') = current_ident (dp wd).
Proof.
  unfold pl_dispatch_vertex. intros H.
  destruct (vp_shader params) as [a|]; [|discriminate].
  destruct (nth_error (heap wd) a) as [sh|]; [|discriminate].
  destruct (dispatch_vertex_body wd sh params) as [[[wd1 sh1] r]|] eqn:E;
    [|discriminate].
  assert (H' : dispatch_return a (wd1, sh1, r) = (wd', psh, ret))
    by (cbn [option_map] in H; congruence).
  apply dispatch_return_ident in H'. apply dispatch_vertex_body_ident in E.
  congruence.
Qed.

Lemma pl_dispatch_load_ident wd cache wd' :
  pl_dispatch_load wd cache = Some wd' ->
  current_ident (dp wd') = current_ident (dp wd).
Proof.
  unfold pl_dispatch_load. intros H.
  destruct (LOAD 4 cache 0) as [r0|]; [|discriminate]. cbn [bind] in H.
  destruct (negb _); [injection H as <-; reflexivity|].
  destruct (LOAD 4 cache (snd r0)) as [r1|]; [|discriminate]. cbn [bind] in H.
  destruct (negb _); [injection H as <-; reflexivity|].
  destruct (LOAD 4 cache (snd r1)) as [r2|]; [|discriminate]. cbn [bind] in H.
  destruct (load_entries _ _ _ _) as [[[d p] e]|] eqn:E; [|discriminate].
  cbn [bind] in H. injection H as <-. simpl.
  apply load_entries_frame in E. destruct E as ((_ & E & _) & _). exact E.
Qed.

Lemma pl_dispatch_save_ident wd wd' out :
  pl_dispatch_save wd = Some (wd', out) ->
  current_ident (dp wd') = current_ident (dp wd).
Proof.
  unfold pl_dispatch_save. intros H.
  destruct (save_bytes (dp wd)); [|discriminate].
  cbn [bind] in H. injection H as <- _. reflexivity.
Qed.

Variable g : pl_gpu.

(** The frames are those of the reachable worlds: every world of a frame is
    reachable, and every reachable world is in a frame. *)
Lemma in_frame_reachable wd tags : in_frame g wd tags -> reachable g wd.
Proof.
  induction 1.
  - apply reach_create.
  - apply reach_reset_frame; assumption.
  - eapply reach_begin; eassumption.
  - eapply reach_begin; eassumption.
  - apply reach_abort; assumption.
  - apply reach_build; assumption.
  - eapply reach_finish; eassumption.
  - eapply reach_compute; eassumption.
  - eapply reach_vertex; eassumption.
  - eapply reach_load; eassumption.
  - eapply reach_save; eassumption.
Qed.

Lemma reachable_in_frame wd : reachable g wd -> exists tags, in_frame g wd tags.
Proof.
  induction 1 as [|wd u wd' a _ [tags IH] E|wd _ [tags IH]|wd psh _ [tags IH]
                  |wd a sh _ [tags IH]|wd params wd' psh ret _ [tags IH] E
                  |wd params wd' psh ret _ [tags IH] E
                  |wd params wd' psh ret _ [tags IH] E
                  |wd cache wd' _ [tags IH] E|wd wd' out _ [tags IH] E].
  - exists []. apply frame_create.
  - destruct u.
    + destruct (begin_ex_accumulator _ _ E) as (sh & Hn & _).
      eexists. eapply frame_begin_unique; eassumption.
    + exists tags. eapply frame_begin; eassumption.
  - exists []. eapply frame_reset_frame; eassumption.
  - exists tags. apply frame_abort; assumption.
  - exists tags. apply frame_build; assumption.
  - exists tags. eapply frame_finish; eassumption.
  - exists tags. eapply frame_compute; eassumption.
  - exists tags. eapply frame_vertex; eassumption.
  - exists tags. eapply frame_load; eassumption.
  - exists tags. eapply frame_save; eassumption.
Qed.

(** The counter of a frame is the number of unique accumulators begun in
    it, modulo 256, and their tags count up from 0 modulo 256. *)
Lemma in_frame_tags wd tags :
  in_frame g wd tags ->
  current_ident (dp wd) = uint8 (Z.of_nat (length tags)) /\
  tags = map (fun i => uint8 (0 + Z.of_nat i)) (seq 0 (length tags)).
Proof.
  induction 1 as [|wd tags _ _|wd tags wd' a _ [IH1 IH2] E
                  |wd tags wd' a sh _ [IH1 IH2] E Hn
                  |wd tags psh _ IH|wd tags a sh _ IH
                  |wd tags params wd' psh ret _ [IH1 IH2] E
                  |wd tags params wd' psh ret _ [IH1 IH2] E
                  |wd tags params wd' psh ret _ [IH1 IH2] E
                  |wd tags cache wd' _ [IH1 IH2] E
                  |wd tags wd' out _ [IH1 IH2] E].
  - split; reflexivity.
  - split; reflexivity.
  - destruct (begin_ex_accumulator _ _ E) as (sh & _ & _ & Hc).
    split; [congruence|exact IH2].
  - destruct (begin_ex_accumulator _ _ E) as (sh' & Hn' & Hid & Hc).
    rewrite Hn in Hn'. injection Hn' as <-.
    rewrite length_app, Nat.add_1_r, seq_S, map_app, <- IH2.
    split.
    + rewrite Hc, IH1. unfold uint8. rewrite Zplus_mod_idemp_l.
      f_equal. lia.
    + rewrite Hid, IH1. reflexivity.
  - destruct psh; exact IH.
  - exact IH.
  - apply pl_dispatch_finish_ident in E. split; [congruence|exact IH2].
  - apply pl_dispatch_compute_ident in E. split; [congruence|exact IH2].
  - apply pl_dispatch_vertex_ident in E. split; [congruence|exact IH2].
  - apply pl_dispatch_load_ident in E. split; [congruence|exact IH2].
  - apply pl_dispatch_save_ident in E. split; [congruence|exact IH2].
Qed.

(** A run of [begin_many] is a part of a frame. *)
Lemma begin_many_in_frame flags : forall wd tags0 wd' tags,
  in_frame g wd tags0 ->
  begin_many wd flags = Some (wd', tags) ->
  in_frame g wd' (tags0 ++ unique_tags tags).
Proof.
  induction flags as [|u flags IH]; intros wd tags0 wd' tags F H.
  - simpl in H. injection H as <- <-. rewrite app_nil_r. exact F.
  - cbn [begin_many] in H. unfold bind in H.
    destruct (pl_dispatch_begin_ex wd u) as [[wd1 a]|] eqn:E1; [|discriminate].
    destruct (nth_error (heap wd1) a) as [sh|] eqn:E2; [|discriminate].
    destruct (begin_many wd1 flags) as [[wd2 tags2]|] eqn:E3; [|discriminate].
    simpl in H. injection H as <- <-. unfold unique_tags. destruct u; simpl.
    + change (sh_id (sh_params sh) :: map snd (filter fst tags2))
        with ([sh_id (sh_params sh)] ++ unique_tags tags2).
      rewrite app_assoc. eapply IH; [|exact E3].
      eapply frame_begin_unique; eassumption.
    + eapply IH; [|exact E3]. eapply frame_begin; eassumption.
Qed.

(** Every pointer in the pool points to an accumulator, as long as the
    handles given to [pl_dispatch_abort] do: each operation keeps it so. *)
Lemma pool_valid_kept wd :
  pool_valid wd ->
  pool_valid (pl_dispatch_reset_frame wd) /\
  (forall u wd' a, pl_dispatch_begin_ex wd u = Some (wd', a) ->
                   pool_valid wd') /\
  (forall a, (a < length (heap wd))%nat ->
             pool_valid (fst (pl_dispatch_abort wd (Some a)))) /\
  (forall a sh, pool_valid {| dp := dp wd; heap := array_set (heap wd) a sh;
                              trace := trace wd |}) /\
  (forall params wd' psh ret,
      pl_dispatch_finish wd params = Some (wd', psh, ret) -> pool_valid wd') /\
  (forall params wd' psh ret,
      pl_dispatch_compute wd params = Some (wd', psh, ret) -> pool_valid wd') /\
  (forall params wd' psh ret,
      pl_dispatch_vertex wd params = Some (wd', psh, ret) -> pool_valid wd') /\
  (forall cache wd', pl_dispatch_load wd cache = Some wd' -> pool_valid wd') /\
  (forall wd' out, pl_dispatch_save wd = Some (wd', out) -> pool_valid wd').
Proof.
  intros Hv.
  assert (Hret : forall a sh wd1 sh1 r wd' psh ret,
             nth_error (heap wd) a = Some sh ->
             shaders (dp wd1) = shaders (dp wd) /\ heap wd1 = heap wd ->
             dispatch_return a (wd1, sh1, r) = (wd', psh, ret) ->
             pool_valid wd').
  { intros a sh wd1 sh1 r wd' psh ret Hn [E1 E2] H.
    apply dispatch_return_pool in H. destruct H as (_ & _ & Hs & Hh).
    unfold pool_valid. rewrite Hs, Hh, length_array_set, E1, E2.
    apply Forall_app. split; [exact Hv|].
    constructor; [|constructor]. apply nth_error_Some. congruence. }
  split; [exact Hv|].
  split.
  { intros u wd' a E.
    destruct (begin_ex_spec u Hv) as (wd1 & a1 & sh & E1 & _ & _ & _ & Hv1).
    congruence. }
  split.
  { intros a Ha. unfold pool_valid, PL_ARRAY_APPEND. simpl.
    apply Forall_app. split; [exact Hv|]. constructor; [exact Ha|constructor]. }
  split.
  { intros a sh. unfold pool_valid. simpl. rewrite length_array_set. exact Hv. }
  split.
  { intros params wd' psh ret H. unfold pl_dispatch_finish in H.
    destruct (p_shader params) as [a|]; [|discriminate].
    destruct (nth_error (heap wd) a) as [sh|] eqn:En; [|discriminate].
    destruct (dispatch_finish_body wd sh params) as [[[wd1 sh1] r]|] eqn:E;
      [|discriminate].
    assert (H' : dispatch_return a (wd1, sh1, r) = (wd', psh, ret))
      by (cbn [option_map] in H; congruence).
    apply dispatch_finish_body_pool in E.
    exact (Hret a sh wd1 sh1 r wd' psh ret En E H'). }
  split.
  { intros params wd' psh ret H. unfold pl_dispatch_compute in H.
    destruct (cp_shader params) as [a|]; [|discriminate].
    destruct (nth_error (heap wd) a) as [sh|] eqn:En; [|discriminate].
    destruct (dispatch_compute_body wd sh params) as [[[wd1 sh1] r]|] eqn:E;
      [|discriminate].
    assert (H' : dispatch_return a (wd1, sh1, r) = (wd', psh, ret))
      by (cbn [option_map] in H; congruence).
    apply dispatch_compute_body_pool in E.
    exact (Hret a sh wd1 sh1 r wd' psh ret En E H'). }
  split.
  { intros params wd' psh ret H. unfold pl_dispatch_vertex in H.
    destruct (vp_shader params) as [a|]; [|discriminate].
    destruct (nth_error (heap wd) a) as [sh|] eqn:En; [|discriminate].
    destruct (dispatch_vertex_body wd sh params) as [[[wd1 sh1] r]|] eqn:E;
      [|discriminate].
    assert (H' : dispatch_return a (wd1, sh1, r) = (wd', psh, ret))
      by (cbn [option_map] in H; congruence).
    apply dispatch_vertex_body_pool in E.
    exact (Hret a sh wd1 sh1 r wd' psh ret En E H'). }
  split.
  { intros cache wd' H. unfold pl_dispatch_load in H.
    destruct (LOAD 4 cache 0) as [r0|]; [|discriminate]. cbn [bind] in H.
    destruct (negb _); [injection H as <-; exact Hv|].
    destruct (LOAD 4 cache (snd r0)) as [r1|]; [|discriminate].
    cbn [bind] in H.
    destruct (negb _); [injection H as <-; exact Hv|].
    destruct (LOAD 4 cache (snd r1)) as [r2|]; [|discriminate].
    cbn [bind] in H.
    destruct (load_entries _ _ _ _) as [[[d p] e]|] eqn:E; [|discriminate].
    cbn [bind] in H. injection H as <-.
    apply load_entries_frame in E.
    destruct E as ((_ & _ & _ & _ & E & _) & _).
    unfold pool_valid. simpl. rewrite E. exact Hv. }
  { intros wd' out H. unfold pl_dispatch_save in H.
    destruct (save_bytes (dp wd)); [|discriminate].
    cbn [bind] in H. injection H as <- _. exact Hv. }
Qed.
End IdentFacts.

(** C7, as the code has it. Take any run of the interface, with any
    operations between the calls of [pl_dispatch_begin_ex], and the tags
    given to the unique accumulators since the last
    [pl_dispatch_reset_frame]. The [n]-th of them is [n] modulo 256 and the
    counter is their number modulo 256: the counter is a [uint8_t]. So the
    tags of a frame are pairwise distinct as long as no more than 256 unique
    accumulators are begun in it. And the next call returns: when the
    pointers in the pool point to accumulators, [pl_dispatch_begin_ex]
    returns an accumulator, whose tag is that number modulo 256 when
    [unique] and 0 otherwise. *)
Theorem unique_tags_distinct
        {fns : pl_gpu_fns} {lib : shader_lib} {libc : libc_qsort}
        (g : pl_gpu) (wd : world) (tags : list Z) :
  in_frame g wd tags ->
  tags = map (fun i => uint8 (Z.of_nat i)) (seq 0 (length tags)) /\
  current_ident (dp wd) = uint8 (Z.of_nat (length tags)) /\
  ((length tags <= 256)%nat -> NoDup tags) /\
  (pool_valid wd ->
   forall u, exists wd' a sh,
     pl_dispatch_begin_ex wd u = Some (wd', a) /\
     nth_error (heap wd') a = Some sh /\
     sh_id (sh_params sh)
       = (if u then uint8 (Z.of_nat (length tags)) else 0)).
Proof.
  intros H. destruct (in_frame_tags H) as [Hc Ht].
  split; [exact Ht|]. split; [exact Hc|]. split.
  - intros Hn. rewrite Ht. apply NoDup_uint8_run, Hn.
  - intros Hv u.
    destruct (begin_ex_spec u Hv) as (wd1 & a & sh & E1 & E2 & Hid & _).
    exists wd1, a, sh. split; [exact E1|]. split; [exact E2|].
    rewrite Hid, Hc. reflexivity.
Qed.

(** A frame with a dispatch, a load and an abort between its unique
    accumulators. *)
Definition frame_first : world * sh_ptr :=
  match pl_dispatch_begin_ex (pl_dispatch_reset_frame one_live_world) true with
  | Some r => r
  | None => (one_live_world, 0%nat)
  end.

Definition frame_dispatched : world :=
  match pl_dispatch_compute
          (build_compute (fst frame_first) (snd frame_first) "y")
          {| cp_shader := Some (snd frame_first); dispatch_size := (1, 1, 1);
             cp_width := 0; cp_height := 0 |} with
  | Some r => fst (fst r)
  | None => fst frame_first
  end.

Definition frame_second : world * sh_ptr :=
  match pl_dispatch_begin_ex frame_dispatched true with
  | Some r => r
  | None => (frame_dispatched, 0%nat)
  end.

Definition frame_loaded : world :=
  match pl_dispatch_load (fst frame_second) two_entry_cache with
  | Some wd => wd
  | None => fst frame_second
  end.

Definition frame_aborted : world :=
  fst (pl_dispatch_abort frame_loaded (Some (snd frame_second))).

Definition frame_third : world * sh_ptr :=
  match pl_dispatch_begin_ex frame_aborted true with
  | Some r => r
  | None => (frame_aborted, 0%nat)
  end.

Lemma unique_tags_distinct_witness :
  exists tags,
    in_frame ref_gpu (fst frame_third) tags /\
    tags = [0; 1; 2] /\ NoDup tags /\
    exists wd' a sh,
      pl_dispatch_begin_ex (fst frame_third) true = Some (wd', a) /\
      nth_error (heap wd') a = Some sh /\ sh_id (sh_params sh) = 3.
Proof.
  destruct (reachable_in_frame one_live_world_reachable) as [t0 F0].
  assert (F : exists tags, in_frame ref_gpu (fst frame_third) tags /\
                           length tags = 3%nat).
  { eexists. split.
    - eapply (@frame_begin_unique _ _ _ _ frame_aborted _ (fst frame_third));
        [|vm_compute; reflexivity|vm_compute; reflexivity].
      apply (@frame_abort _ _ _ _ frame_loaded).
      eapply (@frame_load _ _ _ _ (fst frame_second) _ two_entry_cache
                frame_loaded);
        [|vm_compute; reflexivity].
      eapply (@frame_begin_unique _ _ _ _ frame_dispatched _
                (fst frame_second));
        [|vm_compute; reflexivity|vm_compute; reflexivity].
      eapply (@frame_compute _ _ _ _
                (build_compute (fst frame_first) (snd frame_first) "y") _
                {| cp_shader := Some (snd frame_first);
                   dispatch_size := (1, 1, 1);
                   cp_width := 0; cp_height := 0 |} frame_dispatched);
        [|vm_compute; reflexivity].
      apply (@frame_build _ _ _ _ (fst frame_first)).
      eapply (@frame_begin_unique _ _ _ _
                (pl_dispatch_reset_frame one_live_world) _ (fst frame_first));
        [|vm_compute; reflexivity|vm_compute; reflexivity].
      eapply frame_reset_frame. exact F0.
    - reflexivity. }
  destruct F as (tags & F & Hl).
  assert (Hv : pool_valid (fst frame_third)).
  { assert (Hb : forallb (fun a => (a <? length (heap (fst frame_third)))%nat)
                         (shaders (dp (fst frame_third))) = true)
      by (vm_compute; reflexivity).
    unfold pool_valid. apply Forall_forall. intros a Ha.
    rewrite forallb_forall in Hb. apply Nat.ltb_lt, Hb, Ha. }
  destruct (unique_tags_distinct F) as (Ht & _ & Hn & Hb).
  exists tags. rewrite Hl in Ht. split; [exact F|].
  split; [exact Ht|]. split; [apply Hn; rewrite Hl; lia|].
  destruct (Hb Hv true) as (wd' & a & sh & E1 & E2 & E3).
  exists wd', a, sh. rewrite Hl in E3.
  split; [exact E1|]. split; [exact E2|exact E3].
Defined.
